(** * Mantlememo: the marketplace ledger of app/contracts/contract.sol

    A shallow embedding of the Solidity contract [Mantlememo] and the
    properties of its registry, staking, settlement and withdrawal
    operations.

    Conventions of the embedding.
    - [uint256] is [Z]; Solidity 0.8 checked arithmetic is written out:
      an addition that would exceed [2^256 - 1] and a subtraction that
      would go below zero abort with [Panic 0x11].
    - A [mapping] is a finite map read with the total lookup [!!!]: a key
      that was never written reads as the zero value of the struct.
    - [keccak256] is a parameter of the development (the class
      [Keccak256]); [abi_encodePacked] is written out (20 big-endian
      bytes of the address, then the bytes of the string).
    - A function body is a computation in a state-and-error monad. A
      revert carries the state as it was when the revert was raised; the
      executor of a call, [execute], throws that state away and keeps
      the state from before the call.
    - [payable(msg.sender).call{value: v}] with empty call data fails
      when the contract holds less than [v] or when the code of the
      recipient reverts. That code runs once the value has left the
      contract, with all the gas and with the ledger as it is at that
      point, and the contract has no reentrancy guard: before it
      answers, the recipient may call any function of the contract, any
      number of times and through any address, and those calls may in
      turn send value and be called back from ([Payee], [run_payee]).
      When the recipient reverts, what it did is undone with it.
    - [stake] and [queryCapsule] are the only [payable] functions; the
      calls to the others carry no value. *)

From Stdlib Require Import ZArith NArith Ascii String List Lia.
From stdpp Require Import base gmap strings list.

Local Open Scope Z_scope.

(** ** Machine types *)

Abbreviation uint256 := Z (only parsing).
Abbreviation address := N (only parsing).
Abbreviation bytes32 := N (only parsing).

Definition MAX_UINT256 : Z := 2 ^ 256 - 1.
Definition ADDRESS_LIMIT : N := (2 ^ 160)%N.

Definition ether : Z := 10 ^ 18.
Definition days : Z := 86400.

(** ** 1. Constants and configuration *)

Definition MAX_PRICE_PER_QUERY : uint256 := 1 * ether.
Definition MIN_PRICE_PER_QUERY : uint256 := ether / 10000.
Definition MAX_STAKE_AMOUNT : uint256 := 100 * ether.
Definition MIN_STAKE_AMOUNT : uint256 := ether / 10000.
Definition MIN_STRING_LENGTH : uint256 := 1.
Definition LOCK_PERIOD_SECONDS : uint256 := 7 * days.

(** ** 2. Custom errors, [require] failures and arithmetic panics *)

Inductive Error : Type :=
| EmptyString
| InvalidMetadataLength
| CapsuleNotFound
| InvalidPrice
| PriceTooHigh
| InsufficientPayment
| TransferFailed
| StakeTooHigh
| InsufficientStake
| StakeLocked
| Unauthorized
| RequireFailed (reason : string)
| Panic (code : Z).

(** ** 3. Data structures *)

Module Agent.
Record t : Type := mk {
    owner : address;
    agentId : string;
    name : string;
    displayName : string;
    platform : string;
    createdAt : uint256;
    reputation : uint256;
    exists_ : bool
  }.
Definition zero : t :=
  mk 0%N String.EmptyString String.EmptyString String.EmptyString
     String.EmptyString 0 0 false.
End Agent.

Module Capsule.
Record t : Type := mk {
    creator : address;
    capsuleId : string;
    name : string;
    description : string;
    category : string;
    price : uint256;
    totalStake : uint256;
    createdAt : uint256;
    updatedAt : uint256;
    earnings : uint256;
    exists_ : bool
  }.
Definition zero : t :=
  mk 0%N String.EmptyString String.EmptyString String.EmptyString
     String.EmptyString 0 0 0 0 0 false.

Definition set_price (v : uint256) (c : t) : t :=
    mk (creator c) (capsuleId c) (name c) (description c) (category c)
       v (totalStake c) (createdAt c) (updatedAt c) (earnings c) (exists_ c).
Definition set_totalStake (v : uint256) (c : t) : t :=
    mk (creator c) (capsuleId c) (name c) (description c) (category c)
       (price c) v (createdAt c) (updatedAt c) (earnings c) (exists_ c).
Definition set_updatedAt (v : uint256) (c : t) : t :=
    mk (creator c) (capsuleId c) (name c) (description c) (category c)
       (price c) (totalStake c) (createdAt c) v (earnings c) (exists_ c).
Definition set_earnings (v : uint256) (c : t) : t :=
    mk (creator c) (capsuleId c) (name c) (description c) (category c)
       (price c) (totalStake c) (createdAt c) (updatedAt c) v (exists_ c).
End Capsule.

Module Staking.
  (* The [amount] field of the source is commented out. *)
Record t : Type := mk {
    stakedAt : uint256;
    lockUntil : uint256;
    exists_ : bool
  }.
Definition zero : t := mk 0 0 false.

Definition set_stakedAt (v : uint256) (s : t) : t :=
    mk v (lockUntil s) (exists_ s).
Definition set_lockUntil (v : uint256) (s : t) : t :=
    mk (stakedAt s) v (exists_ s).
Definition set_exists (v : bool) (s : t) : t :=
    mk (stakedAt s) (lockUntil s) v.
End Staking.

Module Earnings.
Record t : Type := mk {
    totalEarnings : uint256;
    queryCount : uint256;
    lastUpdated : uint256
  }.
Definition zero : t := mk 0 0 0.

Definition set_totalEarnings (v : uint256) (e : t) : t :=
    mk v (queryCount e) (lastUpdated e).
Definition set_queryCount (v : uint256) (e : t) : t :=
    mk (totalEarnings e) v (lastUpdated e).
Definition set_lastUpdated (v : uint256) (e : t) : t :=
    mk (totalEarnings e) (queryCount e) v.
End Earnings.

#[global] Instance agent_inhabited : Inhabited Agent.t := populate Agent.zero.
#[global] Instance capsule_inhabited : Inhabited Capsule.t := populate Capsule.zero.
#[global] Instance staking_inhabited : Inhabited Staking.t := populate Staking.zero.
#[global] Instance earnings_inhabited : Inhabited Earnings.t := populate Earnings.zero.

(** ** 4. On-chain history logs *)

Module AgentRegisteredLog.
Record t : Type := mk { owner : address; agentId : string; timestamp : uint256 }.
End AgentRegisteredLog.

Module CapsuleCreatedLog.
Record t : Type := mk { creator : address; capsuleId : string; timestamp : uint256 }.
End CapsuleCreatedLog.

Module StakedOnCapsuleLog.
Record t : Type :=
    mk { staker : address; capsuleId : string; amount : uint256; timestamp : uint256 }.
End StakedOnCapsuleLog.

Module UnstakedFromCapsuleLog.
Record t : Type :=
    mk { staker : address; capsuleId : string; amount : uint256; timestamp : uint256 }.
End UnstakedFromCapsuleLog.

Module PriceUpdatedLog.
Record t : Type := mk { capsuleId : string; newPrice : uint256; timestamp : uint256 }.
End PriceUpdatedLog.

Module EarningsWithdrawnLog.
Record t : Type := mk { creator : address; amount : uint256; timestamp : uint256 }.
End EarningsWithdrawnLog.

Module CapsuleQueriedLog.
Record t : Type :=
    mk { user : address; capsuleId : string; amountPaid : uint256; timestamp : uint256 }.
End CapsuleQueriedLog.

(** ** 6. Events *)

Inductive Event : Type :=
| AgentRegistered (owner : address) (agentId : string)
| CapsuleCreated (creator : address) (capsuleId : string)
| StakedOnCapsule (staker : address) (capsuleId : string) (amount : uint256)
| UnstakedFromCapsule (staker : address) (capsuleId : string) (amount : uint256)
| PriceUpdated (capsuleId : string) (newPrice : uint256)
| EarningsWithdrawn (creator : address) (amount : uint256)
| CapsuleQueried (user : address) (capsuleId : string) (amountPaid : uint256).

(** ** 5. Storage

    The seven history arrays and the six mappings of the contract, as the
    source declares them ([stakes] is keyed by the pair of the capsule
    key and the staker), together with what the chain keeps for the
    contract: its [balance] ([address(this).balance]), the [events] it
    has emitted and the [transfers] of value it has made, oldest first. *)

Record State : Type := mkState {
  agentRegisteredHistory : list AgentRegisteredLog.t;
  capsuleCreatedHistory : list CapsuleCreatedLog.t;
  stakedOnCapsuleHistory : list StakedOnCapsuleLog.t;
  unstakedFromCapsuleHistory : list UnstakedFromCapsuleLog.t;
  priceUpdatedHistory : list PriceUpdatedLog.t;
  earningsWithdrawnHistory : list EarningsWithdrawnLog.t;
  capsuleQueriedHistory : list CapsuleQueriedLog.t;
  agents : gmap bytes32 Agent.t;
  capsules : gmap bytes32 Capsule.t;
  earnings : gmap bytes32 Earnings.t;
  stakes : gmap (bytes32 * address) Staking.t;
  ownerAgents : gmap address (list string);
  ownerCapsules : gmap address (list string);
  balance : uint256;
  events : list Event;
  transfers : list (address * uint256)
}.

Definition set_agentRegisteredHistory (v : list AgentRegisteredLog.t) (st : State) : State :=
  mkState v (capsuleCreatedHistory st) (stakedOnCapsuleHistory st)
    (unstakedFromCapsuleHistory st) (priceUpdatedHistory st)
    (earningsWithdrawnHistory st) (capsuleQueriedHistory st) (agents st)
    (capsules st) (earnings st) (stakes st) (ownerAgents st)
    (ownerCapsules st) (balance st) (events st) (transfers st).

Definition set_capsuleCreatedHistory (v : list CapsuleCreatedLog.t) (st : State) : State :=
  mkState (agentRegisteredHistory st) v (stakedOnCapsuleHistory st)
    (unstakedFromCapsuleHistory st) (priceUpdatedHistory st)
    (earningsWithdrawnHistory st) (capsuleQueriedHistory st) (agents st)
    (capsules st) (earnings st) (stakes st) (ownerAgents st)
    (ownerCapsules st) (balance st) (events st) (transfers st).

Definition set_stakedOnCapsuleHistory (v : list StakedOnCapsuleLog.t) (st : State) : State :=
  mkState (agentRegisteredHistory st) (capsuleCreatedHistory st) v
    (unstakedFromCapsuleHistory st) (priceUpdatedHistory st)
    (earningsWithdrawnHistory st) (capsuleQueriedHistory st) (agents st)
    (capsules st) (earnings st) (stakes st) (ownerAgents st)
    (ownerCapsules st) (balance st) (events st) (transfers st).

Definition set_unstakedFromCapsuleHistory (v : list UnstakedFromCapsuleLog.t) (st : State) : State :=
  mkState (agentRegisteredHistory st) (capsuleCreatedHistory st)
    (stakedOnCapsuleHistory st) v (priceUpdatedHistory st)
    (earningsWithdrawnHistory st) (capsuleQueriedHistory st) (agents st)
    (capsules st) (earnings st) (stakes st) (ownerAgents st)
    (ownerCapsules st) (balance st) (events st) (transfers st).

Definition set_priceUpdatedHistory (v : list PriceUpdatedLog.t) (st : State) : State :=
  mkState (agentRegisteredHistory st) (capsuleCreatedHistory st)
    (stakedOnCapsuleHistory st) (unstakedFromCapsuleHistory st) v
    (earningsWithdrawnHistory st) (capsuleQueriedHistory st) (agents st)
    (capsules st) (earnings st) (stakes st) (ownerAgents st)
    (ownerCapsules st) (balance st) (events st) (transfers st).

Definition set_earningsWithdrawnHistory (v : list EarningsWithdrawnLog.t) (st : State) : State :=
  mkState (agentRegisteredHistory st) (capsuleCreatedHistory st)
    (stakedOnCapsuleHistory st) (unstakedFromCapsuleHistory st)
    (priceUpdatedHistory st) v (capsuleQueriedHistory st) (agents st)
    (capsules st) (earnings st) (stakes st) (ownerAgents st)
    (ownerCapsules st) (balance st) (events st) (transfers st).

Definition set_capsuleQueriedHistory (v : list CapsuleQueriedLog.t) (st : State) : State :=
  mkState (agentRegisteredHistory st) (capsuleCreatedHistory st)
    (stakedOnCapsuleHistory st) (unstakedFromCapsuleHistory st)
    (priceUpdatedHistory st) (earningsWithdrawnHistory st) v (agents st)
    (capsules st) (earnings st) (stakes st) (ownerAgents st)
    (ownerCapsules st) (balance st) (events st) (transfers st).

Definition set_agents (v : gmap bytes32 Agent.t) (st : State) : State :=
  mkState (agentRegisteredHistory st) (capsuleCreatedHistory st)
    (stakedOnCapsuleHistory st) (unstakedFromCapsuleHistory st)
    (priceUpdatedHistory st) (earningsWithdrawnHistory st)
    (capsuleQueriedHistory st) v (capsules st) (earnings st) (stakes st)
    (ownerAgents st) (ownerCapsules st) (balance st) (events st)
    (transfers st).

Definition set_capsules (v : gmap bytes32 Capsule.t) (st : State) : State :=
  mkState (agentRegisteredHistory st) (capsuleCreatedHistory st)
    (stakedOnCapsuleHistory st) (unstakedFromCapsuleHistory st)
    (priceUpdatedHistory st) (earningsWithdrawnHistory st)
    (capsuleQueriedHistory st) (agents st) v (earnings st) (stakes st)
    (ownerAgents st) (ownerCapsules st) (balance st) (events st)
    (transfers st).

Definition set_earnings (v : gmap bytes32 Earnings.t) (st : State) : State :=
  mkState (agentRegisteredHistory st) (capsuleCreatedHistory st)
    (stakedOnCapsuleHistory st) (unstakedFromCapsuleHistory st)
    (priceUpdatedHistory st) (earningsWithdrawnHistory st)
    (capsuleQueriedHistory st) (agents st) (capsules st) v (stakes st)
    (ownerAgents st) (ownerCapsules st) (balance st) (events st)
    (transfers st).

Definition set_stakes (v : gmap (bytes32 * address) Staking.t) (st : State) : State :=
  mkState (agentRegisteredHistory st) (capsuleCreatedHistory st)
    (stakedOnCapsuleHistory st) (unstakedFromCapsuleHistory st)
    (priceUpdatedHistory st) (earningsWithdrawnHistory st)
    (capsuleQueriedHistory st) (agents st) (capsules st) (earnings st) v
    (ownerAgents st) (ownerCapsules st) (balance st) (events st)
    (transfers st).

Definition set_ownerAgents (v : gmap address (list string)) (st : State) : State :=
  mkState (agentRegisteredHistory st) (capsuleCreatedHistory st)
    (stakedOnCapsuleHistory st) (unstakedFromCapsuleHistory st)
    (priceUpdatedHistory st) (earningsWithdrawnHistory st)
    (capsuleQueriedHistory st) (agents st) (capsules st) (earnings st)
    (stakes st) v (ownerCapsules st) (balance st) (events st) (transfers st).

Definition set_ownerCapsules (v : gmap address (list string)) (st : State) : State :=
  mkState (agentRegisteredHistory st) (capsuleCreatedHistory st)
    (stakedOnCapsuleHistory st) (unstakedFromCapsuleHistory st)
    (priceUpdatedHistory st) (earningsWithdrawnHistory st)
    (capsuleQueriedHistory st) (agents st) (capsules st) (earnings st)
    (stakes st) (ownerAgents st) v (balance st) (events st) (transfers st).

Definition set_balance (v : uint256) (st : State) : State :=
  mkState (agentRegisteredHistory st) (capsuleCreatedHistory st)
    (stakedOnCapsuleHistory st) (unstakedFromCapsuleHistory st)
    (priceUpdatedHistory st) (earningsWithdrawnHistory st)
    (capsuleQueriedHistory st) (agents st) (capsules st) (earnings st)
    (stakes st) (ownerAgents st) (ownerCapsules st) v (events st)
    (transfers st).

Definition set_events (v : list Event) (st : State) : State :=
  mkState (agentRegisteredHistory st) (capsuleCreatedHistory st)
    (stakedOnCapsuleHistory st) (unstakedFromCapsuleHistory st)
    (priceUpdatedHistory st) (earningsWithdrawnHistory st)
    (capsuleQueriedHistory st) (agents st) (capsules st) (earnings st)
    (stakes st) (ownerAgents st) (ownerCapsules st) (balance st) v
    (transfers st).

Definition set_transfers (v : list (address * uint256)) (st : State) : State :=
  mkState (agentRegisteredHistory st) (capsuleCreatedHistory st)
    (stakedOnCapsuleHistory st) (unstakedFromCapsuleHistory st)
    (priceUpdatedHistory st) (earningsWithdrawnHistory st)
    (capsuleQueriedHistory st) (agents st) (capsules st) (earnings st)
    (stakes st) (ownerAgents st) (ownerCapsules st) (balance st) (events st) v.

Definition initial_state : State :=
  mkState [] [] [] [] [] [] [] ∅ ∅ ∅ ∅ ∅ ∅ 0 [] [].

(** ** Execution environment and the monad of function bodies *)

(* The external functions, with their arguments and, for the payable
   ones, the value sent along. *)
Inductive Call : Type :=
| RegisterAgent (_agentId _name _displayName _platform : string)
| CreateCapsule (_capsuleId _name _description _category : string) (_price : uint256)
| Stake (_capsuleId : string) (msg_value : uint256)
| Unstake (_capsuleId : string) (_amount : uint256)
| QueryCapsule (_creator : address) (_capsuleId : string) (msg_value : uint256)
| WithdrawEarnings (_capsuleId : string)
| UpdateCapsulePrice (_capsuleId : string) (_newPrice : uint256).

Inductive Outcome : Type :=
| Success
| Failure (e : Error).

(* What the code at an address does when the contract sends it value. It
   answers, accepting the value or reverting; before it answers it may
   call the contract: [CallBack sender call receiver next] makes [call]
   with [sender] as [msg.sender] (the recipient itself or a contract it
   goes through), [receiver] being the code that runs if that call sends
   value in turn, and goes on as [next] says, given how the call ended
   and the ledger it left. Every choice may depend on the ledger. *)
Inductive Payee : Type :=
| Answer (accepts : bool)
| CallBack (sender : address) (call : Call) (receiver : State -> Payee)
           (next : Outcome -> State -> Payee).

Record Env : Type := mkEnv {
  msg_sender : address;
  block_timestamp : uint256;
  (* the code at [msg_sender], given the ledger it observes when it is
     sent value *)
  payee : State -> Payee
}.

Inductive Result (A : Type) : Type :=
| Done (a : A) (st : State)
| Reverted (e : Error) (dirty : State).

Arguments Done {A} a st.
Arguments Reverted {A} e dirty.

Definition M (A : Type) : Type := State -> Result A.

Definition ret {A : Type} (a : A) : M A := fun st => Done a st.

Definition bind {A B : Type} (m : M A) (k : A -> M B) : M B :=
  fun st =>
    match m st with
    | Done a st' => k a st'
    | Reverted e dirty => Reverted e dirty
    end.

Notation "'do' x <- m ; k" := (bind m (fun x => k))
  (at level 10, x name, m at level 100, k at level 200, only parsing).

Definition revert {A : Type} (e : Error) : M A := fun st => Reverted e st.
Definition gets {A : Type} (f : State -> A) : M A := fun st => Done (f st) st.
Definition modify (f : State -> State) : M unit := fun st => Done tt (f st).

(* [if (b) revert e();] *)
Definition revert_if (b : bool) (e : Error) : M unit :=
  if b then revert e else ret tt.

(* [require(b, reason);] *)
Definition require (b : bool) (reason : string) : M unit :=
  if b then ret tt else revert (RequireFailed reason).

(* Checked arithmetic of Solidity 0.8. *)
Definition checked_add (a b : uint256) : M uint256 :=
  if a + b <=? MAX_UINT256 then ret (a + b) else revert (Panic 17).

Definition checked_sub (a b : uint256) : M uint256 :=
  if b <=? a then ret (a - b) else revert (Panic 17).

(* Storage references: [capsules[k]], [stakes[k][a]], [earnings[k]], read
   and written in place. *)
Definition capsule_at (k : bytes32) : M Capsule.t :=
  gets (fun st => capsules st !!! k).

Definition update_capsule (k : bytes32) (f : Capsule.t -> Capsule.t) : M unit :=
  modify (fun st => set_capsules (<[k := f (capsules st !!! k)]> (capsules st)) st).

Definition stake_at (k : bytes32) (a : address) : M Staking.t :=
  gets (fun st => stakes st !!! (k, a)).

Definition update_stake (k : bytes32) (a : address) (f : Staking.t -> Staking.t)
  : M unit :=
  modify (fun st => set_stakes (<[(k, a) := f (stakes st !!! (k, a))]> (stakes st)) st).

Definition earnings_at (k : bytes32) : M Earnings.t :=
  gets (fun st => earnings st !!! k).

Definition update_earnings (k : bytes32) (f : Earnings.t -> Earnings.t) : M unit :=
  modify (fun st => set_earnings (<[k := f (earnings st !!! k)]> (earnings st)) st).

Definition emit (ev : Event) : M unit :=
  modify (fun st => set_events (events st ++ [ev]) st).

(** ** Key derivation *)

(* [n] bytes of [a], most significant first, in front of [tail]. *)
Fixpoint be_bytes (n : nat) (a : N) (tail : string) : string :=
  match n with
  | O => tail
  | S n' => be_bytes n' (a / 256)%N (String (ascii_of_N (a mod 256)%N) tail)
  end.

(* [abi.encodePacked(address, string)] *)
Definition abi_encodePacked (a : address) (s : string) : string :=
  be_bytes 20 a s.

(* [bytes(s).length] *)
Definition bytes_length (s : string) : uint256 := Z.of_nat (String.length s).

(** ** 7. Core functions *)

(* The hash function of the chain. *)
Class Keccak256 : Type := keccak256 : string -> bytes32.

Section Functions.

Context {hash : Keccak256}.

(* [keccak256(abi.encodePacked(a, id))] *)
Definition derive_key (a : address) (id : string) : bytes32 :=
  keccak256 (abi_encodePacked a id).

(* The run of the recipient's code on the ledger it is handed: the
   ledger it leaves when it accepts, nothing when it reverts. The
   functions are written for any such run; [run_payee] below is the run
   of a [Payee]. *)
Variable receive : State -> option State.

(* [(bool success, ) = payable(to).call{value: value}], with empty call
   data: the code at [to] runs with the value already transferred and
   with the ledger as it is at that point; when it reverts, the transfer
   and all it did are undone. *)
Definition call_value (to : address) (value : uint256) : M bool :=
  fun st =>
    if balance st <? value then Done false st
    else
      let paid := set_transfers (transfers st ++ [(to, value)])
                    (set_balance (balance st - value) st) in
      match receive paid with
      | Some st' => Done true st'
      | None => Done false st
      end.

Definition registerAgent (env : Env)
    (_agentId _name _displayName _platform : string) : M unit :=
  (* Validation *)
  do _ <- revert_if (bytes_length _agentId <? MIN_STRING_LENGTH) EmptyString;
  do _ <- revert_if (bytes_length _name <? MIN_STRING_LENGTH) EmptyString;
  do _ <- revert_if (32 <? bytes_length _agentId) InvalidMetadataLength;
  do _ <- revert_if (128 <? bytes_length _name) InvalidMetadataLength;
  (* Key derivation *)
  let agentKey := derive_key (msg_sender env) _agentId in
  do agent <- gets (fun st => agents st !!! agentKey);
  do _ <- require (negb (Agent.exists_ agent)) "Agent already exists";
  (* State update: the eight fields of [agents[agentKey]] *)
  do _ <- modify (fun st =>
            set_agents
              (<[agentKey :=
                   Agent.mk (msg_sender env) _agentId _name _displayName _platform
                            (block_timestamp env) 10000 true]> (agents st)) st);
  do _ <- modify (fun st =>
            set_ownerAgents
              (<[msg_sender env :=
                   (ownerAgents st !!! msg_sender env) ++ [_agentId]]>
                 (ownerAgents st)) st);
  (* Logging *)
  do _ <- emit (AgentRegistered (msg_sender env) _agentId);
  modify (fun st =>
    set_agentRegisteredHistory
      (agentRegisteredHistory st ++
         [AgentRegisteredLog.mk (msg_sender env) _agentId (block_timestamp env)]) st).

Definition createCapsule (env : Env)
    (_capsuleId _name _description _category : string) (_price : uint256) : M unit :=
  do _ <- revert_if (bytes_length _capsuleId <? MIN_STRING_LENGTH) EmptyString;
  do _ <- revert_if (32 <? bytes_length _capsuleId) InvalidMetadataLength;
  do _ <- revert_if (_price <? MIN_PRICE_PER_QUERY) InvalidPrice;
  do _ <- revert_if (MAX_PRICE_PER_QUERY <? _price) PriceTooHigh;
  let capsuleKey := derive_key (msg_sender env) _capsuleId in
  do capsule <- capsule_at capsuleKey;
  do _ <- require (negb (Capsule.exists_ capsule)) "Capsule already exists";
  (* the eleven fields of [capsules[capsuleKey]] *)
  do _ <- modify (fun st =>
            set_capsules
              (<[capsuleKey :=
                   Capsule.mk (msg_sender env) _capsuleId _name _description _category
                              _price 0 (block_timestamp env) (block_timestamp env)
                              0 true]> (capsules st)) st);
  do _ <- modify (fun st =>
            set_ownerCapsules
              (<[msg_sender env :=
                   (ownerCapsules st !!! msg_sender env) ++ [_capsuleId]]>
                 (ownerCapsules st)) st);
  do _ <- emit (CapsuleCreated (msg_sender env) _capsuleId);
  modify (fun st =>
    set_capsuleCreatedHistory
      (capsuleCreatedHistory st ++
         [CapsuleCreatedLog.mk (msg_sender env) _capsuleId (block_timestamp env)]) st).

(* [msg_value] has been credited to the contract when the body starts. *)
Definition stake (env : Env) (msg_value : uint256) (_capsuleId : string) : M unit :=
  let amount := msg_value in
  do _ <- revert_if (amount <? MIN_STAKE_AMOUNT) InsufficientPayment;
  do _ <- revert_if (MAX_STAKE_AMOUNT <? amount) StakeTooHigh;
  (* 1. Identify capsule *)
  let capsuleKey := derive_key (msg_sender env) _capsuleId in
  do capsule <- capsule_at capsuleKey;
  (* 2. Checks *)
  do _ <- revert_if (negb (Capsule.exists_ capsule)) CapsuleNotFound;
  do _ <- revert_if (negb (Capsule.creator capsule =? msg_sender env)%N) Unauthorized;
  (* 3. Update user stake record *)
  do userStake <- stake_at capsuleKey (msg_sender env);
  do _ <- (if negb (Staking.exists_ userStake) then
             do total <- checked_add (Capsule.totalStake capsule) amount;
             do _ <- update_capsule capsuleKey (Capsule.set_totalStake total);
             do _ <- update_stake capsuleKey (msg_sender env)
                       (Staking.set_stakedAt (block_timestamp env));
             do lock <- checked_add (block_timestamp env) LOCK_PERIOD_SECONDS;
             do _ <- update_stake capsuleKey (msg_sender env)
                       (Staking.set_lockUntil lock);
             update_stake capsuleKey (msg_sender env) (Staking.set_exists true)
           else
             do total <- checked_add (Capsule.totalStake capsule) amount;
             do _ <- update_capsule capsuleKey (Capsule.set_totalStake total);
             (* Extend lock period on new deposit *)
             do lock <- checked_add (block_timestamp env) LOCK_PERIOD_SECONDS;
             update_stake capsuleKey (msg_sender env) (Staking.set_lockUntil lock));
  (* 4. Update capsule *)
  do _ <- update_capsule capsuleKey (Capsule.set_updatedAt (block_timestamp env));
  do _ <- emit (StakedOnCapsule (msg_sender env) _capsuleId amount);
  modify (fun st =>
    set_stakedOnCapsuleHistory
      (stakedOnCapsuleHistory st ++
         [StakedOnCapsuleLog.mk (msg_sender env) _capsuleId amount
                                (block_timestamp env)]) st).

Definition unstake (env : Env) (_capsuleId : string) (_amount : uint256) : M unit :=
  do _ <- revert_if (_amount =? 0) InsufficientPayment;
  let capsuleKey := derive_key (msg_sender env) _capsuleId in
  do capsule <- capsule_at capsuleKey;
  do _ <- revert_if (negb (Capsule.exists_ capsule)) CapsuleNotFound;
  do userStake <- stake_at capsuleKey (msg_sender env);
  (* 1. Check balance *)
  do _ <- revert_if (negb (Staking.exists_ userStake)
                     || (Capsule.totalStake capsule <? _amount)) InsufficientStake;
  (* 2. Check lock period *)
  do _ <- revert_if (block_timestamp env <? Staking.lockUntil userStake) StakeLocked;
  (* 3. Update state (effects before interaction) *)
  do total <- checked_sub (Capsule.totalStake capsule) _amount;
  do _ <- update_capsule capsuleKey (Capsule.set_totalStake total);
  do _ <- update_capsule capsuleKey (Capsule.set_updatedAt (block_timestamp env));
  (* 4. Send money (interaction) *)
  do success <- call_value (msg_sender env) _amount;
  do _ <- revert_if (negb success) TransferFailed;
  do _ <- emit (UnstakedFromCapsule (msg_sender env) _capsuleId _amount);
  modify (fun st =>
    set_unstakedFromCapsuleHistory
      (unstakedFromCapsuleHistory st ++
         [UnstakedFromCapsuleLog.mk (msg_sender env) _capsuleId _amount
                                    (block_timestamp env)]) st).

(* [msg_value] has been credited to the contract when the body starts. *)
Definition queryCapsule (env : Env) (msg_value : uint256)
    (_creator : address) (_capsuleId : string) : M unit :=
  (* 1. Identify capsule using creator address + id *)
  let capsuleKey := derive_key _creator _capsuleId in
  do capsule <- capsule_at capsuleKey;
  (* 2. Validation *)
  do _ <- revert_if (negb (Capsule.exists_ capsule)) CapsuleNotFound;
  let cost := Capsule.price capsule in
  do _ <- revert_if (msg_value <? cost) InsufficientPayment;
  (* 3. Accounting (credit the creator) *)
  do earningRecord <- earnings_at capsuleKey;
  do earned <- checked_add (Capsule.earnings capsule) cost;
  do _ <- update_capsule capsuleKey (Capsule.set_earnings earned);
  do total <- checked_add (Earnings.totalEarnings earningRecord) cost;
  do _ <- update_earnings capsuleKey (Earnings.set_totalEarnings total);
  do count <- checked_add (Earnings.queryCount earningRecord) 1;
  do _ <- update_earnings capsuleKey (Earnings.set_queryCount count);
  do _ <- update_earnings capsuleKey (Earnings.set_lastUpdated (block_timestamp env));
  (* 4. Refund excess payment *)
  do excess <- checked_sub msg_value cost;
  do _ <- (if 0 <? excess then
             do success <- call_value (msg_sender env) excess;
             revert_if (negb success) TransferFailed
           else ret tt);
  (* 5. Emit event for off-chain backend *)
  do _ <- emit (CapsuleQueried (msg_sender env) _capsuleId cost);
  modify (fun st =>
    set_capsuleQueriedHistory
      (capsuleQueriedHistory st ++
         [CapsuleQueriedLog.mk (msg_sender env) _capsuleId cost
                               (block_timestamp env)]) st).

Definition withdrawEarnings (env : Env) (_capsuleId : string) : M unit :=
  (* Only the owner can withdraw, so the key is derived from msg.sender *)
  let capsuleKey := derive_key (msg_sender env) _capsuleId in
  do earningRecord <- earnings_at capsuleKey;
  let amount := Earnings.totalEarnings earningRecord in
  do _ <- revert_if (amount =? 0) InsufficientPayment;
  do held <- gets balance;
  do _ <- revert_if (held <? amount) TransferFailed;
  (* Reset balance BEFORE transfer to prevent re-entrancy *)
  do _ <- update_earnings capsuleKey (Earnings.set_totalEarnings 0);
  do _ <- update_capsule capsuleKey (Capsule.set_earnings 0);
  do success <- call_value (msg_sender env) amount;
  do _ <- revert_if (negb success) TransferFailed;
  do _ <- emit (EarningsWithdrawn (msg_sender env) amount);
  modify (fun st =>
    set_earningsWithdrawnHistory
      (earningsWithdrawnHistory st ++
         [EarningsWithdrawnLog.mk (msg_sender env) amount (block_timestamp env)]) st).

Definition updateCapsulePrice (env : Env) (_capsuleId : string) (_newPrice : uint256)
  : M unit :=
  do _ <- revert_if (_newPrice <? MIN_PRICE_PER_QUERY) InvalidPrice;
  do _ <- revert_if (MAX_PRICE_PER_QUERY <? _newPrice) PriceTooHigh;
  let capsuleKey := derive_key (msg_sender env) _capsuleId in
  do capsule <- capsule_at capsuleKey;
  do _ <- revert_if (negb (Capsule.exists_ capsule)) CapsuleNotFound;
  do _ <- revert_if (negb (msg_sender env =? Capsule.creator capsule)%N) Unauthorized;
  do _ <- update_capsule capsuleKey (Capsule.set_price _newPrice);
  do _ <- update_capsule capsuleKey (Capsule.set_updatedAt (block_timestamp env));
  do _ <- emit (PriceUpdated _capsuleId _newPrice);
  modify (fun st =>
    set_priceUpdatedHistory
      (priceUpdatedHistory st ++
         [PriceUpdatedLog.mk _capsuleId _newPrice (block_timestamp env)]) st).

(** ** 8. View functions *)

Definition getAgentDetails (st : State) (_owner : address) (_agentId : string)
  : Agent.t :=
  agents st !!! derive_key _owner _agentId.

Definition getCapsuleDetails (st : State) (_creator : address) (_capsuleId : string)
  : Capsule.t :=
  capsules st !!! derive_key _creator _capsuleId.

Definition getStakeDetails (st : State) (_creator : address) (_capsuleId : string)
    (_staker : address) : Staking.t :=
  stakes st !!! (derive_key _creator _capsuleId, _staker).

(* The getter of the public mapping [earnings], at the key of a capsule. *)
Definition getEarnings (st : State) (_creator : address) (_capsuleId : string)
  : Earnings.t :=
  earnings st !!! derive_key _creator _capsuleId.

(** ** Transactions *)

Definition body (env : Env) (call : Call) : M unit :=
  match call with
  | RegisterAgent a n d p => registerAgent env a n d p
  | CreateCapsule c n d g p => createCapsule env c n d g p
  | Stake c v => stake env v c
  | Unstake c a => unstake env c a
  | QueryCapsule a c v => queryCapsule env v a c
  | WithdrawEarnings c => withdrawEarnings env c
  | UpdateCapsulePrice c p => updateCapsulePrice env c p
  end.

(* A payable call credits its value to the contract. *)
Definition receive_value (call : Call) (st : State) : State :=
  match call with
  | Stake _ v => set_balance (balance st + v) st
  | QueryCapsule _ _ v => set_balance (balance st + v) st
  | _ => st
  end.

(* One call, from outside or from a recipient's code: the value is
   credited, the body runs, and a revert restores the state from before
   the call. *)
Definition execute (env : Env) (call : Call) (st : State) : Outcome * State :=
  match body env call (receive_value call st) with
  | Done _ st' => (Success, st')
  | Reverted e _ => (Failure e, st)
  end.

End Functions.

Section Contract.

Context {hash : Keccak256}.

(* The run of a recipient's code at block time [now]: its calls are
   executed one after the other, each with the run of its own receiver
   for the value it sends, and the last answer decides. *)
Fixpoint run_payee (now : uint256) (p : Payee) (st : State) : option State :=
  match p with
  | Answer true => Some st
  | Answer false => None
  | CallBack sender call receiver next =>
      let r := execute (fun paid => run_payee now (receiver paid) paid)
                       (mkEnv sender now receiver) call st in
      run_payee now (next (fst r) (snd r)) (snd r)
  end.

(* The run of the code of [msg.sender] on the ledger it is handed. *)
Definition reaction (env : Env) : State -> option State :=
  fun paid => run_payee (block_timestamp env) (payee env paid) paid.

(* The transaction executor: a call from outside, in which value sent to
   [msg.sender] runs the code of [msg.sender]. *)
Definition transact (env : Env) (call : Call) (st : State) : Outcome * State :=
  execute (reaction env) env call st.

Record Tx : Type := mkTx { tx_env : Env; tx_call : Call }.

Definition apply_tx (st : State) (tx : Tx) : State :=
  snd (transact (tx_env tx) (tx_call tx) st).

Definition run (txs : list Tx) (st : State) : State :=
  fold_left apply_tx txs st.

(* What the types of the ABI guarantee about a call. *)
Definition uint256_ok (z : Z) : bool := (0 <=? z) && (z <=? MAX_UINT256).
Definition address_ok (a : N) : bool := (a <? ADDRESS_LIMIT)%N.

Definition well_typed (tx : Tx) : bool :=
  address_ok (msg_sender (tx_env tx))
  && uint256_ok (block_timestamp (tx_env tx))
  && match tx_call tx with
     | RegisterAgent _ _ _ _ => true
     | CreateCapsule _ _ _ _ p => uint256_ok p
     | Stake _ v => uint256_ok v
     | Unstake _ a => uint256_ok a
     | QueryCapsule a _ v => address_ok a && uint256_ok v
     | WithdrawEarnings _ => true
     | UpdateCapsulePrice _ p => uint256_ok p
     end.

(* Every call that a recipient's code can make, whatever it observes,
   has the property [T] of its sender, the block time and the call. *)
Inductive callbacks (T : address -> uint256 -> Call -> Prop) (now : uint256)
  : Payee -> Prop :=
| callbacks_answer (accepts : bool) : callbacks T now (Answer accepts)
| callbacks_call (sender : address) (call : Call) (receiver : State -> Payee)
    (next : Outcome -> State -> Payee) :
    T sender now call ->
    (forall st, callbacks T now (receiver st)) ->
    (forall out st, callbacks T now (next out st)) ->
    callbacks T now (CallBack sender call receiver next).

(* Nothing is assumed of the calls. *)
Definition any_call : address -> uint256 -> Call -> Prop := fun _ _ _ => True.

Definition call_well_typed (sender : address) (now : uint256) (call : Call)
  : Prop :=
  well_typed (mkTx (mkEnv sender now (fun _ => Answer true)) call) = true.

(* The calls made from the recipient's code are calls through the ABI
   too. *)
Definition callbacks_well_typed (tx : Tx) : Prop :=
  forall st, callbacks call_well_typed (block_timestamp (tx_env tx))
                       (payee (tx_env tx) st).

Inductive reachable : State -> Prop :=
| reachable_initial : reachable initial_state
| reachable_step (st : State) (tx : Tx) :
    reachable st -> well_typed tx = true -> callbacks_well_typed tx ->
    reachable (apply_tx st tx).

End Contract.

(** ** Invariants and idealisations used by the properties *)

(* [keccak256] is treated as an ideal hash: no two byte strings share a
   digest (the specification's "collision-resistant key"). *)
Class CollisionFree (hash : Keccak256) : Prop :=
  keccak256_inj : forall x y : string, keccak256 x = keccak256 y -> x = y.

Section Invariants.

Context {hash : Keccak256}.

(* The two earnings fields kept for a key: [Capsule.earnings] and
   [Earnings.totalEarnings]. *)
Definition earnings_pair (st : State) (k : bytes32) : uint256 * uint256 :=
  (Capsule.earnings (capsules st !!! k), Earnings.totalEarnings (earnings st !!! k)).

Definition earnings_mirrored (st : State) : Prop :=
  forall k, Capsule.earnings (capsules st !!! k)
            = Earnings.totalEarnings (earnings st !!! k).

Definition unlisted_earn_nothing (st : State) : Prop :=
  forall k, Capsule.exists_ (capsules st !!! k) = false ->
            Earnings.totalEarnings (earnings st !!! k) = 0.

(* What a successful call is expected to leave in the two fields at [k]:
   a query adds the price to both at the capsule's key, a withdrawal
   zeroes both at the caller's key, nothing else changes them. *)
Definition expected_earnings (env : Env) (call : Call) (st : State) (k : bytes32)
  : uint256 * uint256 :=
  match call with
  | QueryCapsule a id _ =>
      if decide (k = derive_key a id) then
        (Capsule.earnings (capsules st !!! k) + Capsule.price (capsules st !!! k),
         Earnings.totalEarnings (earnings st !!! k)
         + Capsule.price (capsules st !!! k))
      else earnings_pair st k
  | WithdrawEarnings id =>
      if decide (k = derive_key (msg_sender env) id) then (0, 0)
      else earnings_pair st k
  | _ => earnings_pair st k
  end.

(* The code of the caller answers a transfer of value, one way or the
   other, without calling the contract. *)
Definition answers_directly (env : Env) : Prop :=
  forall st, exists accepts, payee env st = Answer accepts.

(* The functions that send no value: all but [unstake], [queryCapsule]
   and [withdrawEarnings]. *)
Definition sends_no_value (call : Call) : bool :=
  match call with
  | Unstake _ _ | QueryCapsule _ _ _ | WithdrawEarnings _ => false
  | _ => true
  end.

(* Every record that exists sits at the key derived from its own owner
   and id, and that owner is an address. *)
Definition capsules_keyed (st : State) : Prop :=
  forall k, Capsule.exists_ (capsules st !!! k) = true ->
            address_ok (Capsule.creator (capsules st !!! k)) = true
            /\ k = derive_key (Capsule.creator (capsules st !!! k))
                              (Capsule.capsuleId (capsules st !!! k)).

Definition agents_keyed (st : State) : Prop :=
  forall k, Agent.exists_ (agents st !!! k) = true ->
            address_ok (Agent.owner (agents st !!! k)) = true
            /\ k = derive_key (Agent.owner (agents st !!! k))
                              (Agent.agentId (agents st !!! k)).

End Invariants.

(** ** A concrete run

    [keccak256] is instantiated by an injective encoding of byte strings
    so that the contract can be run; the scenario is the one of the
    specification: alice registers an agent, lists the capsule "cap1" at
    0.05 ether and stakes 0.1 ether on it at [t_stake]; bob then pays
    0.1 ether for a query. *)

Module Scenario.

Definition hash : Keccak256 := fun s => Npos (encode s).

Definition alice : address := 10%N.
Definition bob : address := 11%N.

Definition t_create : uint256 := 1000.
Definition t_stake : uint256 := 2000.
Definition t_unlock : uint256 := t_stake + LOCK_PERIOD_SECONDS.

Definition at_time (who : address) (now : uint256) : Env :=
  mkEnv who now (fun _ => Answer true).
(* the same caller, whose code refuses incoming value *)
Definition refusing (who : address) (now : uint256) : Env :=
  mkEnv who now (fun _ => Answer false).
(* the same caller, whose code makes one call to the contract, in its own
   name, when it is sent value, and then accepts; value sent to it by
   that call is accepted at once *)
Definition calling_back (who : address) (now : uint256) (call : Call) : Env :=
  mkEnv who now
        (fun _ => CallBack who call (fun _ => Answer true)
                           (fun _ _ => Answer true)).

(* the same caller, whose code makes one call to the contract when it
   is sent value, and then reverts *)
Definition reverting_after (who : address) (now : uint256) (call : Call) : Env :=
  mkEnv who now
        (fun _ => CallBack who call (fun _ => Answer true)
                           (fun _ _ => Answer false)).

Definition register_agent : Tx :=
  mkTx (at_time alice t_create) (RegisterAgent "agent1" "Agent" "Agent One" "openai").

Definition create_capsule : Tx :=
  mkTx (at_time alice t_create)
       (CreateCapsule "cap1" "Capsule" "notes" "coding" (5 * 10 ^ 16)).

Definition stake_capsule : Tx :=
  mkTx (at_time alice t_stake) (Stake "cap1" (10 ^ 17)).

Definition query_capsule : Tx :=
  mkTx (at_time bob 3000) (QueryCapsule alice "cap1" (10 ^ 17)).

Definition registered : State := apply_tx (hash := hash) initial_state register_agent.

Definition listed : State := apply_tx (hash := hash) registered create_capsule.

Definition staked : State := apply_tx (hash := hash) listed stake_capsule.

Definition queried : State := apply_tx (hash := hash) staked query_capsule.

End Scenario.

(** ** 8. View functions: owner lists, logs and the batched lookups *)

Section Views.

Context {hash : Keccak256}.

Definition getAgentsByOwner (st : State) (_owner : address) : list string :=
  ownerAgents st !!! _owner.

Definition getCapsulesByOwner (st : State) (_owner : address) : list string :=
  ownerCapsules st !!! _owner.

Definition getAllCapsuleLogs (st : State) : list CapsuleCreatedLog.t :=
  capsuleCreatedHistory st.

Definition getAllAgentLogs (st : State) : list AgentRegisteredLog.t :=
  agentRegisteredHistory st.

(* [for (uint256 i = 0; i < ids.length; i++) details[i] = capsules[key]]
   with [n] iterations left; the index stays within both arrays. *)
Fixpoint capsule_details_loop (st : State) (_owner : address) (ids : list string)
    (n i : nat) (details : list Capsule.t) : list Capsule.t :=
  match n with
  | O => details
  | S n' =>
      let key := derive_key _owner (ids !!! i) in
      capsule_details_loop st _owner ids n' (S i)
        (<[i := capsules st !!! key]> details)
  end.

Definition getCapsulesByOwnerDetailed (st : State) (_owner : address)
  : list Capsule.t :=
  let ids := ownerCapsules st !!! _owner in
  (* [new Capsule[](ids.length)] *)
  let details := replicate (length ids) Capsule.zero in
  capsule_details_loop st _owner ids (length ids) 0 details.

Fixpoint agent_details_loop (st : State) (_owner : address) (ids : list string)
    (n i : nat) (details : list Agent.t) : list Agent.t :=
  match n with
  | O => details
  | S n' =>
      let key := derive_key _owner (ids !!! i) in
      agent_details_loop st _owner ids n' (S i)
        (<[i := agents st !!! key]> details)
  end.

Definition getAgentsByOwnerDetailed (st : State) (_owner : address)
  : list Agent.t :=
  let ids := ownerAgents st !!! _owner in
  let details := replicate (length ids) Agent.zero in
  agent_details_loop st _owner ids (length ids) 0 details.

End Views.

(** ** Sums, totals and the invariants of the ledger *)

(* The sum of [f] over the records of a mapping, and over a log. *)
Definition sum_over {A : Type} (f : A -> Z) (m : gmap bytes32 A) : Z :=
  map_fold (fun _ a acc => f a + acc) 0 m.

Definition sum_of {A : Type} (f : A -> Z) (l : list A) : Z :=
  fold_right (fun a acc => f a + acc) 0 l.

Definition total_staked (st : State) : Z :=
  sum_over Capsule.totalStake (capsules st).

Definition total_earned (st : State) : Z :=
  sum_over Earnings.totalEarnings (earnings st).

Definition total_queries (st : State) : Z :=
  sum_over Earnings.queryCount (earnings st).

Definition in_uint256 (z : Z) : Prop := 0 <= z <= MAX_UINT256.

(* Every number kept in storage is a [uint256]. *)
Definition amounts_in_range (st : State) : Prop :=
  (forall k, in_uint256 (Capsule.price (capsules st !!! k))
             /\ in_uint256 (Capsule.totalStake (capsules st !!! k))
             /\ in_uint256 (Capsule.earnings (capsules st !!! k))
             /\ in_uint256 (Capsule.createdAt (capsules st !!! k))
             /\ in_uint256 (Capsule.updatedAt (capsules st !!! k)))
  /\ (forall k, in_uint256 (Earnings.totalEarnings (earnings st !!! k))
                /\ in_uint256 (Earnings.queryCount (earnings st !!! k))
                /\ in_uint256 (Earnings.lastUpdated (earnings st !!! k)))
  /\ (forall k a, in_uint256 (Staking.stakedAt (stakes st !!! (k, a)))
                  /\ in_uint256 (Staking.lockUntil (stakes st !!! (k, a))))
  /\ (forall k, in_uint256 (Agent.createdAt (agents st !!! k))
                /\ in_uint256 (Agent.reputation (agents st !!! k))).

(* A record whose [exists] flag is off is the zero record, and no
   earnings are kept for a capsule that does not exist. *)
Definition unlisted_blank (st : State) : Prop :=
  (forall k, Capsule.exists_ (capsules st !!! k) = false ->
             capsules st !!! k = Capsule.zero
             /\ earnings st !!! k = Earnings.zero)
  /\ (forall k, Agent.exists_ (agents st !!! k) = false ->
                agents st !!! k = Agent.zero)
  /\ (forall k a, Staking.exists_ (stakes st !!! (k, a)) = false ->
                  stakes st !!! (k, a) = Staking.zero).

(* The logs account for the money and for the events. *)
Definition books_balanced (st : State) : Prop :=
  sum_of CapsuleQueriedLog.amountPaid (capsuleQueriedHistory st)
  = total_earned st + sum_of EarningsWithdrawnLog.amount (earningsWithdrawnHistory st)
  /\ sum_of StakedOnCapsuleLog.amount (stakedOnCapsuleHistory st)
     = total_staked st
       + sum_of UnstakedFromCapsuleLog.amount (unstakedFromCapsuleHistory st)
  /\ total_queries st = Z.of_nat (length (capsuleQueriedHistory st))
  /\ length (events st)
     = (length (agentRegisteredHistory st) + length (capsuleCreatedHistory st)
        + length (stakedOnCapsuleHistory st)
        + length (unstakedFromCapsuleHistory st)
        + length (priceUpdatedHistory st)
        + length (earningsWithdrawnHistory st)
        + length (capsuleQueriedHistory st))%nat.

(* Between two ledgers the books moved together: the balance as the
   stakes and earnings, the logged amounts as the totals they account
   for, the query log as the query counts and the events as the history
   arrays. *)
Definition moved_together (st st' : State) : Prop :=
  balance st' - balance st
  = (total_staked st' + total_earned st') - (total_staked st + total_earned st)
  /\ sum_of CapsuleQueriedLog.amountPaid (capsuleQueriedHistory st')
     - sum_of CapsuleQueriedLog.amountPaid (capsuleQueriedHistory st)
     = (total_earned st'
        + sum_of EarningsWithdrawnLog.amount (earningsWithdrawnHistory st'))
       - (total_earned st
          + sum_of EarningsWithdrawnLog.amount (earningsWithdrawnHistory st))
  /\ sum_of StakedOnCapsuleLog.amount (stakedOnCapsuleHistory st')
     - sum_of StakedOnCapsuleLog.amount (stakedOnCapsuleHistory st)
     = (total_staked st'
        + sum_of UnstakedFromCapsuleLog.amount (unstakedFromCapsuleHistory st'))
       - (total_staked st
          + sum_of UnstakedFromCapsuleLog.amount (unstakedFromCapsuleHistory st))
  /\ total_queries st' - total_queries st
     = Z.of_nat (length (capsuleQueriedHistory st'))
       - Z.of_nat (length (capsuleQueriedHistory st))
  /\ Z.of_nat (length (events st')) - Z.of_nat (length (events st))
     = Z.of_nat
         (length (agentRegisteredHistory st') + length (capsuleCreatedHistory st')
          + length (stakedOnCapsuleHistory st')
          + length (unstakedFromCapsuleHistory st')
          + length (priceUpdatedHistory st')
          + length (earningsWithdrawnHistory st')
          + length (capsuleQueriedHistory st'))
       - Z.of_nat
           (length (agentRegisteredHistory st) + length (capsuleCreatedHistory st)
            + length (stakedOnCapsuleHistory st)
            + length (unstakedFromCapsuleHistory st)
            + length (priceUpdatedHistory st)
            + length (earningsWithdrawnHistory st)
            + length (capsuleQueriedHistory st)).

Definition prices_within_limits (st : State) : Prop :=
  forall k, Capsule.exists_ (capsules st !!! k) = true ->
            MIN_PRICE_PER_QUERY <= Capsule.price (capsules st !!! k)
            <= MAX_PRICE_PER_QUERY.

Definition reputations_initial (st : State) : Prop :=
  forall k, Agent.exists_ (agents st !!! k) = true ->
            Agent.reputation (agents st !!! k) = 10000.

(* A stake record belongs to the creator of an existing capsule, and a
   capsule with stake has the record of its creator. *)
Definition stakes_by_creator (st : State) : Prop :=
  (forall k a, Staking.exists_ (stakes st !!! (k, a)) = true ->
               Capsule.exists_ (capsules st !!! k) = true
               /\ Capsule.creator (capsules st !!! k) = a)
  /\ (forall k, Capsule.totalStake (capsules st !!! k) <> 0 ->
                Staking.exists_
                  (stakes st !!! (k, Capsule.creator (capsules st !!! k))) = true).

(* Each history and the event and transfer traces of [st] are kept, in
   order, at the front of those of [st']. *)
Definition logs_extend (st st' : State) : Prop :=
  agentRegisteredHistory st `prefix_of` agentRegisteredHistory st'
  /\ capsuleCreatedHistory st `prefix_of` capsuleCreatedHistory st'
  /\ stakedOnCapsuleHistory st `prefix_of` stakedOnCapsuleHistory st'
  /\ unstakedFromCapsuleHistory st `prefix_of` unstakedFromCapsuleHistory st'
  /\ priceUpdatedHistory st `prefix_of` priceUpdatedHistory st'
  /\ earningsWithdrawnHistory st `prefix_of` earningsWithdrawnHistory st'
  /\ capsuleQueriedHistory st `prefix_of` capsuleQueriedHistory st'
  /\ events st `prefix_of` events st'
  /\ transfers st `prefix_of` transfers st'
  /\ (forall a, ownerAgents st !!! a `prefix_of` ownerAgents st' !!! a)
  /\ (forall a, ownerCapsules st !!! a `prefix_of` ownerCapsules st' !!! a).

Section OwnerListsAndLogs.

Context {hash : Keccak256}.

(* Every listed id has a record of that owner and id at the derived key. *)
Definition capsule_lists_sound (st : State) : Prop :=
  forall a id, id ∈ ownerCapsules st !!! a ->
    Capsule.exists_ (capsules st !!! derive_key a id) = true
    /\ Capsule.creator (capsules st !!! derive_key a id) = a
    /\ Capsule.capsuleId (capsules st !!! derive_key a id) = id.

Definition capsule_lists_nodup (st : State) : Prop :=
  forall a, NoDup (ownerCapsules st !!! a).

Definition agent_lists_sound (st : State) : Prop :=
  forall a id, id ∈ ownerAgents st !!! a ->
    Agent.exists_ (agents st !!! derive_key a id) = true
    /\ Agent.owner (agents st !!! derive_key a id) = a
    /\ Agent.agentId (agents st !!! derive_key a id) = id.

Definition agent_lists_nodup (st : State) : Prop :=
  forall a, NoDup (ownerAgents st !!! a).

(* Every record is listed under its owner. *)
Definition capsule_lists_complete (st : State) : Prop :=
  forall k, Capsule.exists_ (capsules st !!! k) = true ->
    Capsule.capsuleId (capsules st !!! k)
    ∈ ownerCapsules st !!! Capsule.creator (capsules st !!! k).

Definition agent_lists_complete (st : State) : Prop :=
  forall k, Agent.exists_ (agents st !!! k) = true ->
    Agent.agentId (agents st !!! k)
    ∈ ownerAgents st !!! Agent.owner (agents st !!! k).

(* Every creation log entry has its record, and every record its entry. *)
Definition capsule_logs_sound (st : State) : Prop :=
  forall l, l ∈ capsuleCreatedHistory st ->
    let c := capsules st !!! derive_key (CapsuleCreatedLog.creator l)
                                        (CapsuleCreatedLog.capsuleId l) in
    Capsule.exists_ c = true
    /\ Capsule.creator c = CapsuleCreatedLog.creator l
    /\ Capsule.capsuleId c = CapsuleCreatedLog.capsuleId l
    /\ Capsule.createdAt c = CapsuleCreatedLog.timestamp l.

Definition capsule_logs_complete (st : State) : Prop :=
  forall k, Capsule.exists_ (capsules st !!! k) = true ->
    CapsuleCreatedLog.mk (Capsule.creator (capsules st !!! k))
                         (Capsule.capsuleId (capsules st !!! k))
                         (Capsule.createdAt (capsules st !!! k))
    ∈ capsuleCreatedHistory st.

Definition agent_logs_sound (st : State) : Prop :=
  forall l, l ∈ agentRegisteredHistory st ->
    let a := agents st !!! derive_key (AgentRegisteredLog.owner l)
                                      (AgentRegisteredLog.agentId l) in
    Agent.exists_ a = true
    /\ Agent.owner a = AgentRegisteredLog.owner l
    /\ Agent.agentId a = AgentRegisteredLog.agentId l
    /\ Agent.createdAt a = AgentRegisteredLog.timestamp l.

Definition agent_logs_complete (st : State) : Prop :=
  forall k, Agent.exists_ (agents st !!! k) = true ->
    AgentRegisteredLog.mk (Agent.owner (agents st !!! k))
                          (Agent.agentId (agents st !!! k))
                          (Agent.createdAt (agents st !!! k))
    ∈ agentRegisteredHistory st.

End OwnerListsAndLogs.

(** ** The pair a call works on *)

(* Every function derives one key: from the caller and the id it is
   given, except [queryCapsule], which takes the owner as an argument. *)
Definition keyed_owner (sender : address) (call : Call) : address :=
  match call with
  | QueryCapsule _creator _ _ => _creator
  | _ => sender
  end.

Definition keyed_id (call : Call) : string :=
  match call with
  | RegisterAgent _agentId _ _ _ => _agentId
  | CreateCapsule _capsuleId _ _ _ _ => _capsuleId
  | Stake _capsuleId _ => _capsuleId
  | Unstake _capsuleId _ => _capsuleId
  | QueryCapsule _ _capsuleId _ => _capsuleId
  | WithdrawEarnings _capsuleId => _capsuleId
  | UpdateCapsulePrice _capsuleId _ => _capsuleId
  end.

(* The call works on another pair than (q, id). *)
Definition works_elsewhere (q : address) (id : string)
  : address -> uint256 -> Call -> Prop :=
  fun sender _ call =>
    address_ok (keyed_owner sender call) = true
    /\ (q, id) <> (keyed_owner sender call, keyed_id call).

(* The call is made by another address than q. *)
Definition made_by_another (q : address) : address -> uint256 -> Call -> Prop :=
  fun sender _ _ => q <> sender.

(* The four records at a key are the same in two ledgers. *)
Definition same_records (k : bytes32) (st st' : State) : Prop :=
  agents st' !!! k = agents st !!! k
  /\ capsules st' !!! k = capsules st !!! k
  /\ earnings st' !!! k = earnings st !!! k
  /\ forall a, stakes st' !!! (k, a) = stakes st !!! (k, a).

(* The two id lists of an address are the same in two ledgers. *)
Definition same_lists (q : address) (st st' : State) : Prop :=
  ownerAgents st' !!! q = ownerAgents st !!! q
  /\ ownerCapsules st' !!! q = ownerCapsules st !!! q.

(* What is kept of the records at a key once they exist: of a capsule,
   all that [createCapsule] alone writes; of a stake record, its flag
   and the time of the first deposit. *)
Definition records_kept (k : bytes32) (st st' : State) : Prop :=
  (Capsule.exists_ (capsules st !!! k) = true ->
   Capsule.exists_ (capsules st' !!! k) = true
   /\ Capsule.creator (capsules st' !!! k) = Capsule.creator (capsules st !!! k)
   /\ Capsule.capsuleId (capsules st' !!! k)
      = Capsule.capsuleId (capsules st !!! k)
   /\ Capsule.name (capsules st' !!! k) = Capsule.name (capsules st !!! k)
   /\ Capsule.description (capsules st' !!! k)
      = Capsule.description (capsules st !!! k)
   /\ Capsule.category (capsules st' !!! k)
      = Capsule.category (capsules st !!! k)
   /\ Capsule.createdAt (capsules st' !!! k)
      = Capsule.createdAt (capsules st !!! k))
  /\ (forall a, Staking.exists_ (stakes st !!! (k, a)) = true ->
                Staking.exists_ (stakes st' !!! (k, a)) = true
                /\ Staking.stakedAt (stakes st' !!! (k, a))
                   = Staking.stakedAt (stakes st !!! (k, a))).

(** ** The API client: the base URL *)

Module ApiClient.

(* [url.startsWith(p)] *)
Definition startsWith (url p : string) : bool := String.prefix p url.

Definition normalizeUrl (url : string) : string :=
  if negb (startsWith url "http://") && negb (startsWith url "https://")
  then String.append "http://" url
  else url.

End ApiClient.

(** ** What a failing call can raise and what it may have written *)

(* The errors of each function: its custom errors, the reason of its
   [require] and the panic of its checked additions. The subtractions
   of [unstake] and [queryCapsule] come after a test that excludes the
   underflow. *)
Definition raises (call : Call) : list Error :=
  match call with
  | RegisterAgent _ _ _ _ =>
      [EmptyString; InvalidMetadataLength; RequireFailed "Agent already exists"]
  | CreateCapsule _ _ _ _ _ =>
      [EmptyString; InvalidMetadataLength; InvalidPrice; PriceTooHigh;
       RequireFailed "Capsule already exists"]
  | Stake _ _ =>
      [InsufficientPayment; StakeTooHigh; CapsuleNotFound; Unauthorized; Panic 17]
  | Unstake _ _ =>
      [InsufficientPayment; CapsuleNotFound; InsufficientStake; StakeLocked;
       TransferFailed]
  | QueryCapsule _ _ _ =>
      [CapsuleNotFound; InsufficientPayment; Panic 17; TransferFailed]
  | WithdrawEarnings _ => [InsufficientPayment; TransferFailed]
  | UpdateCapsulePrice _ _ =>
      [InvalidPrice; PriceTooHigh; CapsuleNotFound; Unauthorized]
  end.

(* Nothing was announced or registered between two ledgers: the same
   events, history arrays and transfers, the same agents and owner
   lists. *)
Definition nothing_announced (st st' : State) : Prop :=
  events st' = events st
  /\ transfers st' = transfers st
  /\ agentRegisteredHistory st' = agentRegisteredHistory st
  /\ capsuleCreatedHistory st' = capsuleCreatedHistory st
  /\ stakedOnCapsuleHistory st' = stakedOnCapsuleHistory st
  /\ unstakedFromCapsuleHistory st' = unstakedFromCapsuleHistory st
  /\ priceUpdatedHistory st' = priceUpdatedHistory st
  /\ earningsWithdrawnHistory st' = earningsWithdrawnHistory st
  /\ capsuleQueriedHistory st' = capsuleQueriedHistory st
  /\ agents st' = agents st
  /\ ownerAgents st' = ownerAgents st
  /\ ownerCapsules st' = ownerCapsules st.

(** * Properties *)

(** ** Proof infrastructure *)

Ltac unfold_body H :=
  cbv beta iota zeta delta
    [body registerAgent createCapsule stake unstake queryCapsule withdrawEarnings
     updateCapsulePrice bind ret revert revert_if require gets modify
     checked_add checked_sub capsule_at update_capsule stake_at update_stake
     earnings_at update_earnings emit call_value reaction] in H.

(* Projections of updated states. *)
Ltac state_simpl :=
  cbn [agentRegisteredHistory capsuleCreatedHistory stakedOnCapsuleHistory
       unstakedFromCapsuleHistory priceUpdatedHistory earningsWithdrawnHistory
       capsuleQueriedHistory agents capsules earnings stakes ownerAgents
       ownerCapsules balance events transfers
       set_agentRegisteredHistory set_capsuleCreatedHistory
       set_stakedOnCapsuleHistory set_unstakedFromCapsuleHistory
       set_priceUpdatedHistory set_earningsWithdrawnHistory
       set_capsuleQueriedHistory set_agents set_capsules set_earnings set_stakes
       set_ownerAgents set_ownerCapsules set_balance set_events set_transfers
       receive_value] in *.

(* Follow the branch the body took, one test at a time; where value is
   sent, by what the recipient's code returned. *)
Ltac follow H :=
  unfold_body H; state_simpl;
  repeat match type of H with
         | context [if ?b then _ else _] =>
             let E := fresh "E" in
             destruct b eqn:E; unfold_body H; state_simpl; try discriminate H
         | context [match ?r with Some _ => _ | None => _ end] =>
             let R := fresh "R" in
             destruct r eqn:R; unfold_body H; state_simpl; try discriminate H
         end.

Ltac to_prop :=
  repeat match goal with
         | H : negb _ = true |- _ => apply negb_true_iff in H
         | H : negb _ = false |- _ => apply negb_false_iff in H
         | H : orb _ _ = true |- _ => apply orb_true_iff in H; destruct H
         | H : orb _ _ = false |- _ => apply orb_false_iff in H; destruct H
         | H : andb _ _ = true |- _ => apply andb_true_iff in H; destruct H
         | H : (_ <? _) = true |- _ => apply Z.ltb_lt in H
         | H : (_ <? _) = false |- _ => apply Z.ltb_ge in H
         | H : (_ <=? _) = true |- _ => apply Z.leb_le in H
         | H : (_ <=? _) = false |- _ => apply Z.leb_gt in H
         | H : (_ =? _) = true |- _ => apply Z.eqb_eq in H
         | H : (_ =? _) = false |- _ => apply Z.eqb_neq in H
         | H : (_ =? _)%N = true |- _ => apply N.eqb_eq in H
         | H : (_ =? _)%N = false |- _ => apply N.eqb_neq in H
         | H : (_ <? _)%N = true |- _ => apply N.ltb_lt in H
         end.

(* Use what is known of the answer of the recipient's code. *)
Ltac payee_answers :=
  repeat match goal with
         | Hp : payee ?env ?s = Answer _,
           R : run_payee _ (payee ?env ?s) _ = _ |- _ =>
             rewrite Hp in R; cbn [run_payee] in R
         end.

(* Read a record back from the updated mappings, at the written key or at
   another one. *)
Ltac at_key :=
  state_simpl;
  repeat first
    [ rewrite lookup_total_insert_eq
    | rewrite lookup_total_insert; case_decide; subst; [|try congruence] ];
  simpl in *.

(* Decide the tests of a body, in the goal, from what is known. *)
Ltac settle :=
  cbv beta iota zeta delta
    [body registerAgent createCapsule stake unstake queryCapsule withdrawEarnings
     updateCapsulePrice bind ret revert revert_if require gets modify
     checked_add checked_sub capsule_at update_capsule stake_at update_stake
     earnings_at update_earnings emit call_value];
  state_simpl;
  repeat match goal with
         | |- context [if ?b then _ else _] =>
             let E := fresh "E" in
             destruct b eqn:E;
             [ try (exfalso; to_prop; first [lia | congruence])
             | try (exfalso; to_prop; first [lia | congruence]) ];
             cbv beta iota zeta delta
               [bind ret revert revert_if require gets modify checked_add
                checked_sub capsule_at update_capsule stake_at update_stake
                earnings_at update_earnings emit call_value];
             state_simpl
         end.

(* Name the ledger handed to the recipient's code and split on what
   that code returns. *)
Ltac handed_to receive :=
  match goal with
  | |- context [receive ?x] =>
      match goal with
      | |- _ = match receive ?a with Some _ => _ | None => _ end => unify a x
      end;
      destruct (receive x); reflexivity
  end.

(* A recipient's run that keeps the invariant: from the ledger handed
   over, proved as a side goal, to the ledger it returned. *)
Ltac through_recipient Hrec :=
  match goal with
  | R : _ = Some _ |- _ => apply Hrec in R
  end.

Lemma LOCK_PERIOD_SECONDS_eq : LOCK_PERIOD_SECONDS = 604800.
Proof. reflexivity. Qed.

Section Properties.

Context {hash : Keccak256}.

Lemma transact_success env call st st' :
  transact env call st = (Success, st') <->
  body (reaction env) env call (receive_value call st) = Done tt st'.
Proof.
  unfold transact, execute.
  destruct (body _ env call _) as [[] s|e d]; split; intros H; inversion H; reflexivity.
Qed.

Lemma transact_failure env call st e st' :
  transact env call st = (Failure e, st') <->
  st' = st /\
  exists dirty, body (reaction env) env call (receive_value call st) = Reverted e dirty.
Proof.
  unfold transact, execute.
  destruct (body _ env call _) as [[] s|e0 d]; split.
  - discriminate.
  - intros [_ [d' H]]; discriminate.
  - intros H; inversion H; subst; eauto.
  - intros [-> [d' H]]; inversion H; reflexivity.
Qed.

(** *** Calls made from a recipient's code

    A relation between the ledger before and after a call that holds of
    every single call, whatever the recipient's code does as long as it
    keeps the relation itself, holds of every transaction: of the call
    from outside and of all the calls nested in it. *)

Section Nested.

Variable T : address -> uint256 -> Call -> Prop.
Variable related : State -> State -> Prop.

Hypothesis related_refl : forall st, related st st.
Hypothesis related_trans :
  forall st1 st2 st3, related st1 st2 -> related st2 st3 -> related st1 st3.
Hypothesis related_execute :
  forall receive env call st,
    T (msg_sender env) (block_timestamp env) call ->
    (forall paid st', receive paid = Some st' -> related paid st') ->
    related st (snd (execute receive env call st)).

Lemma run_payee_related now p :
  callbacks T now p ->
  forall st st', run_payee now p st = Some st' -> related st st'.
Proof.
  induction 1 as [[|]|sender call receiver next Hcall _ IHr _ IHn];
    intros st st' Hrun; cbn [run_payee] in Hrun.
  - inversion Hrun; subst. apply related_refl.
  - discriminate Hrun.
  - eapply related_trans; [|eapply IHn; exact Hrun].
    apply (related_execute _ (mkEnv sender now receiver) call st Hcall).
    intros paid s. apply IHr.
Qed.

Lemma transact_related env call st :
  T (msg_sender env) (block_timestamp env) call ->
  (forall s, callbacks T (block_timestamp env) (payee env s)) ->
  related st (snd (transact env call st)).
Proof.
  intros Hcall Hpayee. unfold transact. apply related_execute; [exact Hcall|].
  intros paid s. unfold reaction. apply run_payee_related. apply Hpayee.
Qed.

End Nested.

Lemma callbacks_any now p : callbacks any_call now p.
Proof.
  induction p as [b|sender call receiver IHr next IHn]; constructor; auto.
  exact I.
Qed.

Lemma transact_related_always (related : State -> State -> Prop) :
  (forall st, related st st) ->
  (forall st1 st2 st3, related st1 st2 -> related st2 st3 -> related st1 st3) ->
  (forall receive env call st,
     (forall paid st', receive paid = Some st' -> related paid st') ->
     related st (snd (execute receive env call st))) ->
  forall env call st, related st (snd (transact env call st)).
Proof.
  intros Hrefl Htrans Hexec env call st.
  apply (transact_related any_call related Hrefl Htrans); [|exact I|].
  - intros receive env' call' st' _. apply Hexec.
  - intros s. apply callbacks_any.
Qed.

(* The same for an invariant of the ledger. *)
Lemma transact_keeps (inv : State -> Prop) :
  (forall receive env call st,
     (forall paid st', receive paid = Some st' -> inv paid -> inv st') ->
     inv st -> inv (snd (execute receive env call st))) ->
  forall env call st, inv st -> inv (snd (transact env call st)).
Proof.
  intros Hexec env call st.
  apply (transact_related_always (fun a b => inv a -> inv b)); auto.
Qed.

(* The same for an invariant that rests on the types of the ABI. *)
Lemma apply_tx_keeps (inv : State -> Prop) :
  (forall receive env call st,
     well_typed (mkTx env call) = true ->
     (forall paid st', receive paid = Some st' -> inv paid -> inv st') ->
     inv st -> inv (snd (execute receive env call st))) ->
  forall tx st,
    well_typed tx = true -> callbacks_well_typed tx ->
    inv st -> inv (apply_tx st tx).
Proof.
  intros Hexec [env call] st Hty Hcb. unfold apply_tx. simpl.
  apply (transact_related call_well_typed (fun a b => inv a -> inv b)); auto.
Qed.

(** *** Staking: lock and deposit time *)

Lemma stake_effect_on_record env id v st st' :
  transact env (Stake id v) st = (Success, st') ->
  let before := getStakeDetails st (msg_sender env) id (msg_sender env) in
  let after := getStakeDetails st' (msg_sender env) id (msg_sender env) in
  Staking.lockUntil after = block_timestamp env + 604800
  /\ Staking.exists_ after = true
  /\ Staking.stakedAt after =
       (if Staking.exists_ before then Staking.stakedAt before
        else block_timestamp env).
Proof.
  rewrite transact_success. intros H. follow H.
  all: inversion H; subst; clear H.
  all: unfold getStakeDetails; state_simpl.
  all: rewrite ?lookup_total_insert_eq; simpl.
  all: rewrite LOCK_PERIOD_SECONDS_eq.
  all: to_prop; rewrite E3; auto.
Qed.

(** C5. A successful [stake] at time T leaves [lockUntil = T + 604800] in
    the caller's stake record, whether or not a record existed before;
    the record exists afterwards, so a later successful [stake] by the
    same caller on the same id at T' > T is a top-up, and it resets
    [lockUntil] to T' + 604800. *)
Theorem stake_resets_lock env id v st st' :
  transact env (Stake id v) st = (Success, st') ->
  Staking.lockUntil (getStakeDetails st' (msg_sender env) id (msg_sender env))
  = block_timestamp env + 604800
  /\ Staking.exists_ (getStakeDetails st' (msg_sender env) id (msg_sender env)) = true
  /\ forall env2 v2 st2,
       msg_sender env2 = msg_sender env ->
       block_timestamp env < block_timestamp env2 ->
       transact env2 (Stake id v2) st' = (Success, st2) ->
       Staking.lockUntil (getStakeDetails st2 (msg_sender env) id (msg_sender env))
       = block_timestamp env2 + 604800.
Proof.
  intros H. destruct (stake_effect_on_record _ _ _ _ _ H) as (Hl & He & _).
  repeat split; auto.
  intros env2 v2 st2 Hs _ H2.
  destruct (stake_effect_on_record _ _ _ _ _ H2) as (Hl2 & _).
  rewrite Hs in Hl2. exact Hl2.
Qed.

(** *** Settlement *)

(* [queryCapsule] on an existing capsule, paid in full, with room in the
   counters: the price is credited, and when there is an excess it is
   sent to the caller, whose code decides how the body ends. *)
Lemma queryCapsule_hands_over env creator id V st :
  let c := getCapsuleDetails st creator id in
  let r := getEarnings st creator id in
  let P := Capsule.price c in
  Capsule.exists_ c = true ->
  0 <= balance st ->
  0 <= P <= V ->
  Capsule.earnings c + P <= MAX_UINT256 ->
  Earnings.totalEarnings r + P <= MAX_UINT256 ->
  Earnings.queryCount r + 1 <= MAX_UINT256 ->
  exists credited dirty,
    (Earnings.totalEarnings (getEarnings credited creator id)
     = Earnings.totalEarnings r + P
     /\ Capsule.earnings (getCapsuleDetails credited creator id)
        = Capsule.earnings c + P
     /\ Earnings.queryCount (getEarnings credited creator id)
        = Earnings.queryCount r + 1
     /\ transfers credited
        = transfers st ++ (if V =? P then [] else [(msg_sender env, V - P)])
     /\ balance credited = balance st + P)
    /\ (Earnings.totalEarnings (getEarnings dirty creator id)
        = Earnings.totalEarnings r + P
        /\ Capsule.earnings (getCapsuleDetails dirty creator id)
           = Capsule.earnings c + P)
    /\ forall receive,
         body receive env (QueryCapsule creator id V)
              (receive_value (QueryCapsule creator id V) st)
         = match (if V =? P then Some credited else receive credited) with
           | Some s =>
               Done tt
                 (set_capsuleQueriedHistory
                    (capsuleQueriedHistory s ++
                       [CapsuleQueriedLog.mk (msg_sender env) id P
                                             (block_timestamp env)])
                    (set_events
                       (events s ++ [CapsuleQueried (msg_sender env) id P]) s))
           | None => Reverted TransferFailed dirty
           end.
Proof.
  intros c r P Hex Hbal HP Hc Ht Hq. subst c r P.
  unfold getCapsuleDetails, getEarnings in *.
  destruct (V =? Capsule.price (capsules st !!! derive_key creator id)) eqn:EV;
    to_prop.
  - eexists.
    exists
      (set_earnings
         (<[derive_key creator id :=
              Earnings.set_totalEarnings
                (Earnings.totalEarnings (earnings st !!! derive_key creator id)
                 + Capsule.price (capsules st !!! derive_key creator id))
                (earnings st !!! derive_key creator id)]> (earnings st))
         (set_capsules
            (<[derive_key creator id :=
                 Capsule.set_earnings
                   (Capsule.earnings (capsules st !!! derive_key creator id)
                    + Capsule.price (capsules st !!! derive_key creator id))
                   (capsules st !!! derive_key creator id)]> (capsules st))
            st)).
    split; [|split]; cycle 2.
    + intros receive. settle.
      match goal with
      | |- Done _ (_ _ (set_events _ ?x)) = Done _ (_ _ (set_events _ ?a)) =>
          unify a x
      end.
      reflexivity.
    + state_simpl. rewrite ?lookup_total_insert_eq. simpl.
      repeat split; try reflexivity; try (rewrite app_nil_r; reflexivity); lia.
    + state_simpl. rewrite ?lookup_total_insert_eq. simpl. auto.
  - eexists. eexists. split; [|split]; cycle 2.
    + intros receive. settle. handed_to receive.
    + state_simpl. rewrite ?lookup_total_insert_eq. simpl.
      repeat split; try reflexivity; lia.
    + state_simpl. rewrite ?lookup_total_insert_eq. simpl. auto.
Qed.

(** C1 (as amended). For a capsule that exists, with price P, and a call
    of [queryCapsule] with payment V, in a state whose balance and price
    are non-negative:
    - if V < P, the call fails with [InsufficientPayment] and the state,
      earnings included, is unchanged;
    - if V >= P and the three counters stay within [uint256], the
      contract credits the price: [totalEarnings] and [Capsule.earnings]
      grow by exactly P, [queryCount] by exactly 1 and the contract
      keeps exactly P; this is the ledger [credited];
      -- when V = P nothing is sent and the call succeeds;
      -- when V > P the caller is sent exactly V - P and its code runs
         on [credited]; when that code accepts without calling the
         contract, the call succeeds and leaves the three counters as
         [credited] has them;
      -- when that code reverts, the call fails with [TransferFailed]
         and the state is unchanged;
      -- in general the call ends as the run of that code ends: it
         succeeds with the ledger that the run leaves, calls made back
         to the contract included, plus its event and history entry. *)
Theorem queryCapsule_settlement env creator id V st :
  let c := getCapsuleDetails st creator id in
  let r := getEarnings st creator id in
  let P := Capsule.price c in
  Capsule.exists_ c = true ->
  0 <= balance st ->
  0 <= P ->
  (V < P ->
   transact env (QueryCapsule creator id V) st = (Failure InsufficientPayment, st))
  /\ (P <= V ->
      Capsule.earnings c + P <= MAX_UINT256 ->
      Earnings.totalEarnings r + P <= MAX_UINT256 ->
      Earnings.queryCount r + 1 <= MAX_UINT256 ->
      exists credited,
        (Earnings.totalEarnings (getEarnings credited creator id)
         = Earnings.totalEarnings r + P
         /\ Capsule.earnings (getCapsuleDetails credited creator id)
            = Capsule.earnings c + P
         /\ Earnings.queryCount (getEarnings credited creator id)
            = Earnings.queryCount r + 1
         /\ transfers credited
            = transfers st ++ (if V =? P then [] else [(msg_sender env, V - P)])
         /\ balance credited = balance st + P)
        /\ (V = P \/ payee env credited = Answer true ->
            exists st',
              transact env (QueryCapsule creator id V) st = (Success, st')
              /\ Earnings.totalEarnings (getEarnings st' creator id)
                 = Earnings.totalEarnings r + P
              /\ Capsule.earnings (getCapsuleDetails st' creator id)
                 = Capsule.earnings c + P
              /\ Earnings.queryCount (getEarnings st' creator id)
                 = Earnings.queryCount r + 1
              /\ transfers st'
                 = transfers st
                   ++ (if V =? P then [] else [(msg_sender env, V - P)])
              /\ balance st' = balance st + P)
        /\ (P < V ->
            payee env credited = Answer false ->
            transact env (QueryCapsule creator id V) st
            = (Failure TransferFailed, st))
        /\ (P < V ->
            transact env (QueryCapsule creator id V) st
            = match reaction env credited with
              | Some s =>
                  (Success,
                   set_capsuleQueriedHistory
                     (capsuleQueriedHistory s ++
                        [CapsuleQueriedLog.mk (msg_sender env) id P
                                              (block_timestamp env)])
                     (set_events
                        (events s ++ [CapsuleQueried (msg_sender env) id P]) s))
              | None => (Failure TransferFailed, st)
              end)).
Proof.
  intros c r P Hex Hbal HP.
  split.
  - subst c r P. unfold getCapsuleDetails, getEarnings in *. intros HV.
    destruct (transact env (QueryCapsule creator id V) st) as [[|e] st'] eqn:Htx.
    + exfalso. apply transact_success in Htx. follow Htx; to_prop; lia.
    + apply transact_failure in Htx as [-> [dirty Hd]]. f_equal. f_equal.
      follow Hd; to_prop; try lia; try congruence.
  - intros HV Hc Ht Hq.
    destruct (queryCapsule_hands_over env creator id V st Hex Hbal
                (conj HP HV) Hc Ht Hq)
      as (credited & dirty & Hcredited & _ & Hrun).
    fold c r P in Hcredited, Hrun.
    destruct Hcredited as (Ht' & Hc' & Hq' & Htr & Hb).
    exists credited. split; [repeat split; assumption|].
    unfold transact, execute. rewrite Hrun. unfold reaction.
    split; [|split].
    + intros Hpay.
      assert ((if V =? P then Some credited
               else run_payee (block_timestamp env) (payee env credited) credited)
              = Some credited) as ->.
      { destruct (V =? P) eqn:EV; [reflexivity|]. to_prop.
        destruct Hpay as [|Hpay]; [contradiction|]. rewrite Hpay. reflexivity. }
      eexists. split; [reflexivity|].
      unfold getEarnings, getCapsuleDetails in *. state_simpl. auto.
    + intros HV' Hpay. destruct (V =? P) eqn:EV; to_prop; [lia|].
      rewrite Hpay. reflexivity.
    + intros HV'. destruct (V =? P) eqn:EV; to_prop; [lia|].
      destruct (run_payee _ _ _); reflexivity.
Qed.

(** *** Withdrawal *)

Lemma withdrawEarnings_nothing env id st :
  Earnings.totalEarnings (getEarnings st (msg_sender env) id) = 0 ->
  transact env (WithdrawEarnings id) st = (Failure InsufficientPayment, st).
Proof.
  unfold getEarnings. intros Hzero.
  destruct (transact env (WithdrawEarnings id) st) as [[|e] st'] eqn:Htx.
  - exfalso. apply transact_success in Htx. follow Htx; to_prop; lia.
  - apply transact_failure in Htx as [-> [dirty Hd]]. f_equal. f_equal.
    follow Hd; to_prop; try lia. inversion Hd; reflexivity.
Qed.

(* [withdrawEarnings] with earnings that the contract holds: both fields
   are zeroed, the amount is sent to the caller, and the caller's code
   decides how the body ends. *)
Lemma withdrawEarnings_hands_over env id st :
  let amount := Earnings.totalEarnings (getEarnings st (msg_sender env) id) in
  0 < amount <= balance st ->
  exists asked dirty,
    (Earnings.totalEarnings (getEarnings asked (msg_sender env) id) = 0
     /\ Capsule.earnings (getCapsuleDetails asked (msg_sender env) id) = 0
     /\ transfers asked = transfers st ++ [(msg_sender env, amount)]
     /\ balance asked = balance st - amount)
    /\ (Earnings.totalEarnings (getEarnings dirty (msg_sender env) id) = 0
        /\ Capsule.earnings (getCapsuleDetails dirty (msg_sender env) id) = 0)
    /\ forall receive,
         body receive env (WithdrawEarnings id) st
         = match receive asked with
           | Some s =>
               Done tt
                 (set_earningsWithdrawnHistory
                    (earningsWithdrawnHistory s ++
                       [EarningsWithdrawnLog.mk (msg_sender env) amount
                                                (block_timestamp env)])
                    (set_events
                       (events s ++ [EarningsWithdrawn (msg_sender env) amount])
                       s))
           | None => Reverted TransferFailed dirty
           end.
Proof.
  intros amount Ha. subst amount. unfold getCapsuleDetails, getEarnings in *.
  eexists. eexists. split; [|split]; cycle 2.
  - intros receive. settle. handed_to receive.
  - state_simpl. rewrite ?lookup_total_insert_eq. simpl.
    repeat split; reflexivity.
  - state_simpl. rewrite ?lookup_total_insert_eq. simpl. auto.
Qed.

(** C2 (as amended). For a capsule of the caller with [totalEarnings] =
    amount > 0:
    - when the contract holds less than amount, [withdrawEarnings] fails
      with [TransferFailed] and nothing changes;
    - otherwise both [totalEarnings] and [Capsule.earnings] are zeroed,
      exactly amount is sent to the caller, and the caller's code runs
      on that ledger, [asked] (the zeroing precedes the transfer): a
      [withdrawEarnings] for the same id made from there finds nothing to
      pay and fails with [InsufficientPayment];
      -- when that code accepts without calling the contract, the call
         succeeds, the contract's balance is lower by exactly amount,
         both fields are zero, and a second call by the same caller for
         the same id fails with [InsufficientPayment] and changes
         nothing;
      -- when that code reverts, the body reverts with [TransferFailed]
         in a state with both fields zero, and the transaction restores
         the state from before the call, zeroing included;
      -- in general the call ends as the run of that code ends: it
         succeeds with the ledger that the run leaves, calls made back
         to the contract included, plus its event and history entry. *)
Theorem withdrawEarnings_pays_once env id st :
  let amount := Earnings.totalEarnings (getEarnings st (msg_sender env) id) in
  0 < amount ->
  (balance st < amount ->
   transact env (WithdrawEarnings id) st = (Failure TransferFailed, st))
  /\ (amount <= balance st ->
      exists asked,
        (Earnings.totalEarnings (getEarnings asked (msg_sender env) id) = 0
         /\ Capsule.earnings (getCapsuleDetails asked (msg_sender env) id) = 0
         /\ transfers asked = transfers st ++ [(msg_sender env, amount)]
         /\ balance asked = balance st - amount)
        /\ (forall env2,
              msg_sender env2 = msg_sender env ->
              transact env2 (WithdrawEarnings id) asked
              = (Failure InsufficientPayment, asked))
        /\ (payee env asked = Answer true ->
            exists st',
              transact env (WithdrawEarnings id) st = (Success, st')
              /\ transfers st' = transfers st ++ [(msg_sender env, amount)]
              /\ balance st' = balance st - amount
              /\ Earnings.totalEarnings (getEarnings st' (msg_sender env) id) = 0
              /\ Capsule.earnings (getCapsuleDetails st' (msg_sender env) id) = 0
              /\ forall env2,
                   msg_sender env2 = msg_sender env ->
                   transact env2 (WithdrawEarnings id) st'
                   = (Failure InsufficientPayment, st'))
        /\ (payee env asked = Answer false ->
            transact env (WithdrawEarnings id) st = (Failure TransferFailed, st)
            /\ exists dirty,
                 withdrawEarnings (reaction env) env id st
                 = Reverted TransferFailed dirty
                 /\ Earnings.totalEarnings (getEarnings dirty (msg_sender env) id)
                    = 0
                 /\ Capsule.earnings (getCapsuleDetails dirty (msg_sender env) id)
                    = 0)
        /\ transact env (WithdrawEarnings id) st
           = match reaction env asked with
             | Some s =>
                 (Success,
                  set_earningsWithdrawnHistory
                    (earningsWithdrawnHistory s ++
                       [EarningsWithdrawnLog.mk (msg_sender env) amount
                                                (block_timestamp env)])
                    (set_events
                       (events s ++ [EarningsWithdrawn (msg_sender env) amount])
                       s))
             | None => (Failure TransferFailed, st)
             end).
Proof.
  intros amount Hpos. split.
  - subst amount. unfold getEarnings in *. intros Hshort.
    destruct (transact env (WithdrawEarnings id) st) as [[|e] st'] eqn:Htx.
    + exfalso. apply transact_success in Htx. follow Htx; to_prop; lia.
    + apply transact_failure in Htx as [-> [dirty Hd]]. f_equal. f_equal.
      follow Hd; to_prop; try lia. all: inversion Hd; reflexivity.
  - intros Hheld.
    destruct (withdrawEarnings_hands_over env id st (conj Hpos Hheld))
      as (asked & dirty & Hasked & Hdirty & Hrun).
    fold amount in Hasked, Hrun.
    destruct Hasked as (He & Hc & Ht & Hb).
    exists asked. split; [repeat split; assumption|].
    assert (forall receive,
              withdrawEarnings receive env id st
              = body receive env (WithdrawEarnings id) st) as Hbody
      by reflexivity.
    assert (transact env (WithdrawEarnings id) st
            = match reaction env asked with
              | Some s =>
                  (Success,
                   set_earningsWithdrawnHistory
                     (earningsWithdrawnHistory s ++
                        [EarningsWithdrawnLog.mk (msg_sender env) amount
                                                 (block_timestamp env)])
                     (set_events
                        (events s ++ [EarningsWithdrawn (msg_sender env) amount])
                        s))
              | None => (Failure TransferFailed, st)
              end) as Htx.
    { unfold transact, execute. cbn [receive_value]. rewrite Hrun.
      destruct (reaction env asked); reflexivity. }
    split; [|split; [|split; [|exact Htx]]].
    + intros env2 Hsame. apply withdrawEarnings_nothing.
      rewrite Hsame. exact He.
    + intros Hpay. rewrite Htx. unfold reaction. rewrite Hpay. cbn [run_payee].
      eexists. split; [reflexivity|].
      unfold getEarnings, getCapsuleDetails in *. state_simpl.
      repeat split; auto.
      intros env2 Hsame. apply withdrawEarnings_nothing.
      unfold getEarnings. state_simpl. rewrite Hsame. exact He.
    + intros Hpay. rewrite Htx. unfold reaction. rewrite Hpay. cbn [run_payee].
      split; [reflexivity|].
      exists dirty. rewrite Hbody, Hrun. unfold reaction. rewrite Hpay.
      cbn [run_payee]. split; [reflexivity | exact Hdirty].
Qed.

(** *** Atomicity *)

(* [unstake] whose checks pass, with the amount in the contract: the
   stake is lowered, the amount is sent to the caller, and the caller's
   code decides how the body ends. *)
Lemma unstake_hands_over env id amount st :
  let c := getCapsuleDetails st (msg_sender env) id in
  let s := getStakeDetails st (msg_sender env) id (msg_sender env) in
  Capsule.exists_ c = true ->
  Staking.exists_ s = true ->
  0 < amount <= Capsule.totalStake c ->
  Staking.lockUntil s <= block_timestamp env ->
  amount <= balance st ->
  exists asked dirty,
    (Capsule.totalStake (getCapsuleDetails asked (msg_sender env) id)
     = Capsule.totalStake c - amount
     /\ Capsule.updatedAt (getCapsuleDetails asked (msg_sender env) id)
        = block_timestamp env
     /\ stakes asked = stakes st
     /\ transfers asked = transfers st ++ [(msg_sender env, amount)]
     /\ balance asked = balance st - amount)
    /\ (Capsule.totalStake (getCapsuleDetails dirty (msg_sender env) id)
        = Capsule.totalStake c - amount
        /\ Capsule.updatedAt (getCapsuleDetails dirty (msg_sender env) id)
           = block_timestamp env)
    /\ forall receive,
         body receive env (Unstake id amount) st
         = match receive asked with
           | Some s' =>
               Done tt
                 (set_unstakedFromCapsuleHistory
                    (unstakedFromCapsuleHistory s' ++
                       [UnstakedFromCapsuleLog.mk (msg_sender env) id amount
                                                  (block_timestamp env)])
                    (set_events
                       (events s'
                        ++ [UnstakedFromCapsule (msg_sender env) id amount])
                       s'))
           | None => Reverted TransferFailed dirty
           end.
Proof.
  intros c s Hc Hs Ha Hl Hheld. subst c s.
  unfold getCapsuleDetails, getStakeDetails in *.
  eexists. eexists. split; [|split]; cycle 2.
  - intros receive. settle. handed_to receive.
  - state_simpl. rewrite ?lookup_total_insert_eq. simpl. auto.
  - state_simpl. rewrite ?lookup_total_insert_eq. simpl. auto.
Qed.

(* The same when the contract holds less than the amount. *)
Lemma unstake_unfunded env id amount st :
  let c := getCapsuleDetails st (msg_sender env) id in
  let s := getStakeDetails st (msg_sender env) id (msg_sender env) in
  Capsule.exists_ c = true ->
  Staking.exists_ s = true ->
  0 < amount <= Capsule.totalStake c ->
  Staking.lockUntil s <= block_timestamp env ->
  balance st < amount ->
  exists dirty,
    (Capsule.totalStake (getCapsuleDetails dirty (msg_sender env) id)
     = Capsule.totalStake c - amount
     /\ Capsule.updatedAt (getCapsuleDetails dirty (msg_sender env) id)
        = block_timestamp env)
    /\ forall receive,
         body receive env (Unstake id amount) st = Reverted TransferFailed dirty.
Proof.
  intros c s Hc Hs Ha Hl Hshort. subst c s.
  unfold getCapsuleDetails, getStakeDetails in *.
  eexists. split; cycle 1.
  - intros receive. settle. reflexivity.
  - state_simpl. rewrite ?lookup_total_insert_eq. simpl. auto.
Qed.

(* Every failure of a function is one of its own errors. *)
Lemma failure_is_raised receive env call st e dirty :
  body receive env call st = Reverted e dirty -> e ∈ raises call.
Proof.
  intros Hb.
  destruct call; follow Hb; inversion Hb; subst; clear Hb; cbn [raises].
  all: repeat first [apply list_elem_of_here | apply list_elem_of_further].
  all: exfalso; to_prop; lia.
Qed.

(* On a failing path nothing has been emitted, pushed or registered, and
   no value has left for good; a failure that is neither of a transfer
   nor of an addition comes before the first write. *)
Lemma failure_before_logging receive env call st e dirty :
  body receive env call st = Reverted e dirty ->
  nothing_announced st dirty
  /\ (e <> TransferFailed -> e <> Panic 17 -> dirty = st).
Proof.
  intros Hb. unfold nothing_announced.
  destruct call; follow Hb; inversion Hb; subst; clear Hb; state_simpl.
  all: split; [repeat split; reflexivity|].
  all: intros Ht Hp; try reflexivity; congruence.
Qed.

(** C3. Whatever the operation and the starting state, a failed
    transaction leaves the state (every mapping, owner list, history
    array, the emitted events, the balance and the transfers made) equal
    to the state before the call, and the failure is one of the errors
    that the function raises. The rollback is the one of the platform;
    of the seven functions it is shown that a failure is always raised
    by a revert, by the [require] or by a checked addition, that on
    every failing path no event had been emitted, no history entry
    pushed and no transfer left standing even in the state that the
    revert discards, and that every failure other than [TransferFailed]
    and the arithmetic panic is raised before the first write. In
    particular, when [unstake] passes its checks and the transfer to the
    caller fails, for lack of funds or because the caller's code
    reverts, even after calls it made back to the contract, the body had
    already lowered [totalStake] and set [updatedAt] when it reverted
    with [TransferFailed], and the transaction still ends in the state
    from before the call. *)
Theorem failure_is_atomic :
  (forall env call st e st',
     transact env call st = (Failure e, st') ->
     st' = st /\ e ∈ raises call)
  /\ (forall receive env call st e dirty,
        body receive env call (receive_value call st) = Reverted e dirty ->
        nothing_announced (receive_value call st) dirty
        /\ (e <> TransferFailed -> e <> Panic 17 ->
            dirty = receive_value call st))
  /\ (forall env id amount st,
        let c := getCapsuleDetails st (msg_sender env) id in
        let s := getStakeDetails st (msg_sender env) id (msg_sender env) in
        Capsule.exists_ c = true ->
        Staking.exists_ s = true ->
        0 < amount <= Capsule.totalStake c ->
        Staking.lockUntil s <= block_timestamp env ->
        exists asked,
          (amount <= balance st ->
           transfers asked = transfers st ++ [(msg_sender env, amount)]
           /\ balance asked = balance st - amount)
          /\ (balance st < amount \/ reaction env asked = None ->
              transact env (Unstake id amount) st = (Failure TransferFailed, st)
              /\ exists dirty,
                   unstake (reaction env) env id amount st
                   = Reverted TransferFailed dirty
                   /\ Capsule.totalStake
                        (getCapsuleDetails dirty (msg_sender env) id)
                      = Capsule.totalStake c - amount
                   /\ Capsule.updatedAt
                        (getCapsuleDetails dirty (msg_sender env) id)
                      = block_timestamp env)).
Proof.
  split; [|split].
  - intros env call st e st' H. apply transact_failure in H as [-> [dirty Hd]].
    split; [reflexivity|]. eapply failure_is_raised. exact Hd.
  - intros receive env call st e dirty. apply failure_before_logging.
  - intros env id amount st c s Hc Hs Ha Hl.
    assert (forall receive,
              unstake receive env id amount st
              = body receive env (Unstake id amount) st) as Hbody
      by reflexivity.
    destruct (Z.lt_ge_cases (balance st) amount) as [Hshort|Hheld].
    + destruct (unstake_unfunded env id amount st Hc Hs Ha Hl Hshort)
        as (dirty & Hdirty & Hrun).
      exists st. split; [lia|]. intros _.
      split.
      * unfold transact, execute. cbn [receive_value]. rewrite Hrun. reflexivity.
      * exists dirty. rewrite Hbody, Hrun. split; [reflexivity | exact Hdirty].
    + destruct (unstake_hands_over env id amount st Hc Hs Ha Hl Hheld)
        as (asked & dirty & (_ & _ & _ & Ht & Hb) & Hdirty & Hrun).
      exists asked. split; [auto|].
      intros [Hshort|Hnone]; [lia|].
      split.
      * unfold transact, execute. cbn [receive_value]. rewrite Hrun, Hnone.
        reflexivity.
      * exists dirty. rewrite Hbody, Hrun, Hnone.
        split; [reflexivity | exact Hdirty].
Qed.

(** *** Unstaking *)

(** C6 (as amended). For an existing capsule and stake record of the
    caller and 0 < amount <= [totalStake]:
    - before [lockUntil], [unstake] fails with [StakeLocked];
    - at or after [lockUntil], when the contract holds less than amount,
      it fails with [TransferFailed] and nothing changes;
    - at or after [lockUntil], when the contract holds amount, the
      contract lowers [totalStake] by exactly amount, sets [updatedAt] to
      the time of the call, leaves the stake record ([lockUntil],
      [stakedAt], [exists]) as it was and sends amount to the caller,
      whose code runs on that ledger, [asked];
      -- when that code accepts without calling the contract, the call
         succeeds and leaves [totalStake], [updatedAt] and the stake
         record as [asked] has them;
      -- when that code reverts, the call fails with [TransferFailed]
         and nothing changes;
      -- in general the call ends as the run of that code ends: it
         succeeds with the ledger that the run leaves, calls made back
         to the contract included, plus its event and history entry. *)
Theorem unstake_gating env id amount st :
  let c := getCapsuleDetails st (msg_sender env) id in
  let s := getStakeDetails st (msg_sender env) id (msg_sender env) in
  Capsule.exists_ c = true ->
  Staking.exists_ s = true ->
  0 < amount <= Capsule.totalStake c ->
  (block_timestamp env < Staking.lockUntil s ->
   transact env (Unstake id amount) st = (Failure StakeLocked, st))
  /\ (Staking.lockUntil s <= block_timestamp env ->
      (balance st < amount ->
       transact env (Unstake id amount) st = (Failure TransferFailed, st))
      /\ (amount <= balance st ->
          exists asked,
            (Capsule.totalStake (getCapsuleDetails asked (msg_sender env) id)
             = Capsule.totalStake c - amount
             /\ Capsule.updatedAt (getCapsuleDetails asked (msg_sender env) id)
                = block_timestamp env
             /\ getStakeDetails asked (msg_sender env) id (msg_sender env) = s
             /\ transfers asked = transfers st ++ [(msg_sender env, amount)]
             /\ balance asked = balance st - amount)
            /\ (payee env asked = Answer true ->
                exists st',
                  transact env (Unstake id amount) st = (Success, st')
                  /\ Capsule.totalStake
                       (getCapsuleDetails st' (msg_sender env) id)
                     = Capsule.totalStake c - amount
                  /\ Capsule.updatedAt
                       (getCapsuleDetails st' (msg_sender env) id)
                     = block_timestamp env
                  /\ getStakeDetails st' (msg_sender env) id (msg_sender env) = s
                  /\ transfers st' = transfers st ++ [(msg_sender env, amount)])
            /\ (payee env asked = Answer false ->
                transact env (Unstake id amount) st
                = (Failure TransferFailed, st))
            /\ transact env (Unstake id amount) st
               = match reaction env asked with
                 | Some s' =>
                     (Success,
                      set_unstakedFromCapsuleHistory
                        (unstakedFromCapsuleHistory s' ++
                           [UnstakedFromCapsuleLog.mk (msg_sender env) id amount
                                                      (block_timestamp env)])
                        (set_events
                           (events s'
                            ++ [UnstakedFromCapsule (msg_sender env) id amount])
                           s'))
                 | None => (Failure TransferFailed, st)
                 end)).
Proof.
  intros c s Hc Hs Ha. split; [|intros Hl; split].
  - subst c s. unfold getCapsuleDetails, getStakeDetails in *. intros Hl.
    destruct (transact env (Unstake id amount) st) as [[|e] st'] eqn:Htx.
    + exfalso. apply transact_success in Htx. follow Htx; to_prop; lia.
    + apply transact_failure in Htx as [-> [dirty Hd]]. f_equal. f_equal.
      follow Hd; to_prop; try lia; try congruence.
      all: inversion Hd; reflexivity.
  - intros Hshort.
    destruct (unstake_unfunded env id amount st Hc Hs Ha Hl Hshort)
      as (dirty & _ & Hrun).
    unfold transact, execute. cbn [receive_value]. rewrite Hrun. reflexivity.
  - intros Hheld.
    destruct (unstake_hands_over env id amount st Hc Hs Ha Hl Hheld)
      as (asked & dirty & (Ht & Hu & Hst & Htr & Hb) & _ & Hrun).
    fold c in Ht.
    exists asked.
    assert (getStakeDetails asked (msg_sender env) id (msg_sender env) = s)
      as Hrecord by (subst s; unfold getStakeDetails; rewrite Hst; reflexivity).
    split; [repeat split; assumption|].
    assert (transact env (Unstake id amount) st
            = match reaction env asked with
              | Some s' =>
                  (Success,
                   set_unstakedFromCapsuleHistory
                     (unstakedFromCapsuleHistory s' ++
                        [UnstakedFromCapsuleLog.mk (msg_sender env) id amount
                                                   (block_timestamp env)])
                     (set_events
                        (events s'
                         ++ [UnstakedFromCapsule (msg_sender env) id amount])
                        s'))
              | None => (Failure TransferFailed, st)
              end) as Htx.
    { unfold transact, execute. cbn [receive_value]. rewrite Hrun.
      destruct (reaction env asked); reflexivity. }
    split; [|split; [|exact Htx]].
    + intros Hpay. rewrite Htx. unfold reaction. rewrite Hpay. cbn [run_payee].
      eexists. split; [reflexivity|].
      unfold getCapsuleDetails, getStakeDetails in *. state_simpl. auto.
    + intros Hpay. rewrite Htx. unfold reaction. rewrite Hpay. reflexivity.
Qed.

(** *** Registry: what a transaction does to a record at a given key *)

(* An agent record, once it exists, is never written again. *)
Lemma agent_persists env call st k :
  Agent.exists_ (agents st !!! k) = true ->
  agents (snd (transact env call st)) !!! k = agents st !!! k.
Proof.
  revert env call st.
  apply (transact_related_always
           (fun a b => Agent.exists_ (agents a !!! k) = true ->
                       agents b !!! k = agents a !!! k)).
  - reflexivity.
  - intros a b c Hab Hbc Hex. rewrite Hbc; rewrite Hab; auto.
  - intros receive env call st Hrec Hex. unfold execute.
    destruct (body _ env call _) as [[] st'|e dirty] eqn:Hb; [|reflexivity].
    destruct call; follow Hb; inversion Hb; subst; clear Hb; simpl.
    all: try (through_recipient Hrec; [rewrite R|]).
    all: at_key; try reflexivity; auto.
    to_prop. congruence.
Qed.

(* A capsule record, once it exists, stays in existence, with the same
   creator and id. *)
Lemma capsule_persists env call st k :
  Capsule.exists_ (capsules st !!! k) = true ->
  let c := capsules st !!! k in
  let c' := capsules (snd (transact env call st)) !!! k in
  Capsule.exists_ c' = true
  /\ Capsule.creator c' = Capsule.creator c
  /\ Capsule.capsuleId c' = Capsule.capsuleId c.
Proof.
  revert env call st.
  apply (transact_related_always
           (fun a b => Capsule.exists_ (capsules a !!! k) = true ->
                       Capsule.exists_ (capsules b !!! k) = true
                       /\ Capsule.creator (capsules b !!! k)
                          = Capsule.creator (capsules a !!! k)
                       /\ Capsule.capsuleId (capsules b !!! k)
                          = Capsule.capsuleId (capsules a !!! k))).
  - auto.
  - intros a b c Hab Hbc Hex. destruct (Hab Hex) as (H0 & H1 & H2).
    destruct (Hbc H0) as (I0 & I1 & I2). repeat split; congruence.
  - intros receive env call st Hrec Hex. unfold execute.
    destruct (body _ env call _) as [[] st'|e dirty] eqn:Hb; [|simpl; auto].
    destruct call; follow Hb; inversion Hb; subst; clear Hb; simpl.
    all: try (through_recipient Hrec;
              [destruct R as (R0 & R1 & R2); rewrite R0, R1, R2; clear R0 R1 R2|]).
    all: at_key; auto.
    to_prop. congruence.
Qed.

Lemma agent_persists_run txs st k :
  Agent.exists_ (agents st !!! k) = true ->
  agents (run txs st) !!! k = agents st !!! k.
Proof.
  revert st. induction txs as [|tx txs IH]; intros st Hex; [reflexivity|].
  unfold run in *. simpl. unfold apply_tx at 2.
  rewrite IH; [apply agent_persists; exact Hex|].
  rewrite agent_persists; exact Hex.
Qed.

Lemma capsule_persists_run txs st k :
  Capsule.exists_ (capsules st !!! k) = true ->
  Capsule.exists_ (capsules (run txs st) !!! k) = true.
Proof.
  revert st. induction txs as [|tx txs IH]; intros st Hex; [exact Hex|].
  unfold run in *. simpl. apply IH. unfold apply_tx.
  apply capsule_persists. exact Hex.
Qed.

Lemma registerAgent_taken env id n d p st :
  Agent.exists_ (getAgentDetails st (msg_sender env) id) = true ->
  exists e, transact env (RegisterAgent id n d p) st = (Failure e, st).
Proof.
  unfold getAgentDetails. intros Hex.
  destruct (transact env (RegisterAgent id n d p) st) as [[|e] st'] eqn:Htx.
  - exfalso. apply transact_success in Htx. follow Htx. to_prop. congruence.
  - exists e. apply transact_failure in Htx as [-> _]. reflexivity.
Qed.

Lemma createCapsule_taken env id n d g p st :
  Capsule.exists_ (getCapsuleDetails st (msg_sender env) id) = true ->
  exists e, transact env (CreateCapsule id n d g p) st = (Failure e, st).
Proof.
  unfold getCapsuleDetails. intros Hex.
  destruct (transact env (CreateCapsule id n d g p) st) as [[|e] st'] eqn:Htx.
  - exfalso. apply transact_success in Htx. follow Htx. to_prop. congruence.
  - exists e. apply transact_failure in Htx as [-> _]. reflexivity.
Qed.

(** C7. Once [registerAgent] has succeeded for a principal and an id,
    then after any sequence of transactions every further [registerAgent]
    by that principal with that id fails and leaves the state, and so the
    agent's record, as it is (the record is moreover the one written by
    the successful call); likewise for [createCapsule]. *)
Theorem registration_is_unique :
  (forall env id n d p st st1,
     transact env (RegisterAgent id n d p) st = (Success, st1) ->
     forall txs env' n' d' p',
       msg_sender env' = msg_sender env ->
       (exists e, transact env' (RegisterAgent id n' d' p') (run txs st1)
                  = (Failure e, run txs st1))
       /\ getAgentDetails (run txs st1) (msg_sender env) id
          = getAgentDetails st1 (msg_sender env) id)
  /\ (forall env id n d g p st st1,
        transact env (CreateCapsule id n d g p) st = (Success, st1) ->
        forall txs env' n' d' g' p',
          msg_sender env' = msg_sender env ->
          exists e, transact env' (CreateCapsule id n' d' g' p') (run txs st1)
                    = (Failure e, run txs st1)).
Proof.
  split.
  - intros env id n d p st st1 Htx txs env' n' d' p' Hsame.
    assert (Agent.exists_ (agents st1 !!! derive_key (msg_sender env) id) = true)
      as Hex.
    { apply transact_success in Htx. follow Htx.
      inversion Htx; subst; clear Htx. at_key. reflexivity. }
    split.
    + apply registerAgent_taken. unfold getAgentDetails. rewrite Hsame.
      rewrite agent_persists_run; exact Hex.
    + unfold getAgentDetails. apply agent_persists_run. exact Hex.
  - intros env id n d g p st st1 Htx txs env' n' d' g' p' Hsame.
    assert (Capsule.exists_ (capsules st1 !!! derive_key (msg_sender env) id) = true)
      as Hex.
    { apply transact_success in Htx. follow Htx.
      inversion Htx; subst; clear Htx. at_key. reflexivity. }
    apply createCapsule_taken. unfold getCapsuleDetails. rewrite Hsame.
    apply capsule_persists_run. exact Hex.
Qed.

(** *** The two earnings fields *)

Lemma initial_lookup_capsule k : capsules initial_state !!! k = Capsule.zero.
Proof. unfold initial_state; simpl. rewrite lookup_total_empty. reflexivity. Qed.

Lemma initial_lookup_earnings k : earnings initial_state !!! k = Earnings.zero.
Proof. unfold initial_state; simpl. rewrite lookup_total_empty. reflexivity. Qed.

Lemma initial_lookup_agent k : agents initial_state !!! k = Agent.zero.
Proof. unfold initial_state; simpl. rewrite lookup_total_empty. reflexivity. Qed.

Lemma earnings_invariant_step env call st :
  earnings_mirrored st /\ unlisted_earn_nothing st ->
  earnings_mirrored (snd (transact env call st))
  /\ unlisted_earn_nothing (snd (transact env call st)).
Proof.
  revert env call st.
  apply (transact_keeps
           (fun s => earnings_mirrored s /\ unlisted_earn_nothing s)).
  intros receive env call st Hrec [Hm Hu]. unfold execute.
  destruct (body _ env call _) as [[] st'|e dirty] eqn:Hb; [|simpl; auto].
  simpl.
  destruct call; follow Hb; inversion Hb; subst; clear Hb.
  all: try (through_recipient Hrec; [clear Hm Hu; destruct R as [Hm Hu]|]).
  all: unfold earnings_mirrored, unlisted_earn_nothing in *.
  all: split; intros k; specialize (Hm k); specialize (Hu k).
  all: at_key; to_prop; auto; try congruence; try lia.
  all: try (rewrite Hu in Hm by assumption; lia).
  all: symmetry; auto.
Qed.

Lemma earnings_invariant st :
  reachable st -> earnings_mirrored st /\ unlisted_earn_nothing st.
Proof.
  induction 1 as [|st tx _ IH _ _].
  - split; intros k; rewrite ?initial_lookup_capsule, initial_lookup_earnings;
      reflexivity.
  - apply earnings_invariant_step. exact IH.
Qed.

(* What is known of a recipient that answers without calling back. *)
Ltac direct_answer Hdirect :=
  repeat match goal with
         | R : run_payee _ (payee ?env ?x) _ = _ |- _ =>
             let b := fresh "b" in
             let Hb := fresh "Hb" in
             destruct (Hdirect x) as [b Hb]; rewrite Hb in R;
             destruct b; cbn [run_payee] in R;
             [inversion R; subst; clear R Hb | discriminate R]
         end.

(** C8. In every reachable state, whatever calls the recipients of value
    made back to the contract on the way, [Capsule.earnings] equals
    [EarningsRecord.totalEarnings] at every key. The two fields are
    written together and by two functions only: a successful call from
    such a state by a caller whose code does not call the contract when
    it is sent value leaves in the two fields what [expected_earnings]
    says, [queryCapsule] having added the price to both at the capsule's
    key, [withdrawEarnings] having zeroed both at the caller's key,
    every other operation and every other key keeping both; and the two
    do succeed: a query paid exactly, with room in the counters, and a
    withdrawal of earnings that the contract holds, when the caller's
    code accepts them on the ledger it is handed, in which both fields
    are already zero. *)
Theorem earnings_in_lockstep st :
  reachable st ->
  earnings_mirrored st
  /\ (forall env call st',
        answers_directly env ->
        transact env call st = (Success, st') ->
        forall k, earnings_pair st' k = expected_earnings env call st k)
  /\ (forall env creator id,
        let c := getCapsuleDetails st creator id in
        Capsule.exists_ c = true ->
        0 <= balance st ->
        0 <= Capsule.price c ->
        Capsule.earnings c + Capsule.price c <= MAX_UINT256 ->
        Earnings.queryCount (getEarnings st creator id) + 1 <= MAX_UINT256 ->
        exists st',
          transact env (QueryCapsule creator id (Capsule.price c)) st
          = (Success, st')
          /\ earnings_pair st' (derive_key creator id)
             = (Capsule.earnings c + Capsule.price c,
                Capsule.earnings c + Capsule.price c))
  /\ (forall env id,
        let amount :=
          Earnings.totalEarnings (getEarnings st (msg_sender env) id) in
        0 < amount <= balance st ->
        exists asked,
          earnings_pair asked (derive_key (msg_sender env) id) = (0, 0)
          /\ transfers asked = transfers st ++ [(msg_sender env, amount)]
          /\ (payee env asked = Answer true ->
              exists st',
                transact env (WithdrawEarnings id) st = (Success, st')
                /\ earnings_pair st' (derive_key (msg_sender env) id) = (0, 0))).
Proof.
  intros Hreach. destruct (earnings_invariant st Hreach) as [Hm Hu].
  split; [exact Hm|]. split; [|split].
  - intros env call st' Hdirect Htx k. apply transact_success in Htx.
    unfold earnings_pair, expected_earnings, earnings_pair.
    specialize (Hm k). specialize (Hu k).
    destruct call; follow Htx; inversion Htx; subst; clear Htx.
    all: direct_answer Hdirect.
    all: at_key; to_prop; try reflexivity; try congruence.
    all: repeat case_decide; try congruence; try reflexivity.
    all: try (rewrite Hu in Hm by assumption; rewrite Hm; reflexivity).
  - intros env creator id c Hex Hbal HP Hroom Hq.
    assert (Earnings.totalEarnings (getEarnings st creator id)
            = Capsule.earnings c) as Hsame
      by (symmetry; apply Hm).
    destruct (queryCapsule_hands_over env creator id (Capsule.price c) st
                Hex Hbal (conj HP (Z.le_refl _)) Hroom)
      as (credited & dirty & (Ht & Hc & _) & _ & Hrun);
      [rewrite Hsame; exact Hroom | exact Hq |].
    fold c in Ht, Hc, Hrun.
    unfold transact, execute. rewrite Hrun, Z.eqb_refl.
    eexists. split; [reflexivity|].
    unfold earnings_pair, getEarnings, getCapsuleDetails in *. state_simpl.
    rewrite Hc, Ht, Hsame. reflexivity.
  - intros env id amount Ha.
    destruct (withdrawEarnings_hands_over env id st Ha)
      as (asked & dirty & (He & Hc & Ht & _) & _ & Hrun).
    exists asked.
    unfold earnings_pair, getEarnings, getCapsuleDetails in *.
    split; [rewrite Hc, He; reflexivity|]. split; [exact Ht|].
    intros Hacc.
    unfold transact, execute. cbn [receive_value]. rewrite Hrun.
    unfold reaction. rewrite Hacc. cbn [run_payee].
    eexists. split; [reflexivity|].
    state_simpl. rewrite Hc, He. reflexivity.
Qed.

(** *** Key derivation *)

Lemma be_bytes_inj n :
  forall a b s t,
    (a < 256 ^ N.of_nat n)%N -> (b < 256 ^ N.of_nat n)%N ->
    be_bytes n a s = be_bytes n b t -> a = b /\ s = t.
Proof.
  induction n as [|n IH]; intros a b s t Ha Hb Heq.
  - simpl in *. split; [lia | exact Heq].
  - rewrite Nat2N.inj_succ, N.pow_succ_r' in Ha, Hb.
    cbn [be_bytes] in Heq.
    apply IH in Heq as [Hdiv Htail].
    + injection Htail as Hbyte Hrest.
      apply (f_equal N_of_ascii) in Hbyte.
      rewrite !N_ascii_embedding in Hbyte by (apply N.mod_lt; lia).
      split; [|exact Hrest].
      rewrite (N.div_mod a 256), (N.div_mod b 256) by lia. congruence.
    + apply N.Div0.div_lt_upper_bound; lia.
    + apply N.Div0.div_lt_upper_bound; lia.
Qed.

Lemma abi_encodePacked_inj a b s t :
  address_ok a = true -> address_ok b = true ->
  abi_encodePacked a s = abi_encodePacked b t -> a = b /\ s = t.
Proof.
  unfold address_ok, abi_encodePacked. intros Ha Hb.
  apply N.ltb_lt in Ha, Hb. apply be_bytes_inj; assumption.
Qed.

Lemma derive_key_inj {collision_free : CollisionFree hash} a b s t :
  address_ok a = true -> address_ok b = true ->
  derive_key a s = derive_key b t -> a = b /\ s = t.
Proof.
  intros Ha Hb Heq. unfold derive_key in Heq. apply keccak256_inj in Heq.
  apply abi_encodePacked_inj; assumption.
Qed.

(** *** Records sit at the key of their owner *)

Lemma keyed_step tx st :
  well_typed tx = true -> callbacks_well_typed tx ->
  capsules_keyed st /\ agents_keyed st ->
  capsules_keyed (apply_tx st tx) /\ agents_keyed (apply_tx st tx).
Proof.
  revert tx st.
  apply (apply_tx_keeps (fun s => capsules_keyed s /\ agents_keyed s)).
  intros receive env call st Hty Hrec [Hc Ha].
  assert (address_ok (msg_sender env) = true) as Hsender
    by (unfold well_typed in Hty; simpl in Hty; to_prop; assumption).
  unfold execute.
  destruct (body _ env call _) as [[] st'|e dirty] eqn:Hb; [|simpl; auto].
  simpl.
  destruct call; follow Hb; inversion Hb; subst; clear Hb.
  all: try (through_recipient Hrec; [clear Hc Ha; destruct R as [Hc Ha]|]).
  all: unfold capsules_keyed, agents_keyed in *.
  all: split; intros k; specialize (Hc k); specialize (Ha k).
  all: at_key; auto.
Qed.

Lemma keyed_invariant st :
  reachable st -> capsules_keyed st /\ agents_keyed st.
Proof.
  induction 1 as [|st tx _ IH Htyped Hcalls].
  - split; intros k; rewrite ?initial_lookup_capsule, ?initial_lookup_agent;
      discriminate.
  - apply keyed_step; assumption.
Qed.

Lemma capsule_at_own_key {collision_free : CollisionFree hash} st p id :
  reachable st ->
  address_ok p = true ->
  Capsule.exists_ (getCapsuleDetails st p id) = true ->
  Capsule.creator (getCapsuleDetails st p id) = p.
Proof.
  intros Hreach Hp Hex. unfold getCapsuleDetails in *.
  destruct (keyed_invariant st Hreach) as [Hc _].
  destruct (Hc _ Hex) as [Hok Hkey].
  apply derive_key_inj in Hkey as [Hsame _]; auto.
Qed.

Lemma agent_at_own_key {collision_free : CollisionFree hash} st p id :
  reachable st ->
  address_ok p = true ->
  Agent.exists_ (getAgentDetails st p id) = true ->
  Agent.owner (getAgentDetails st p id) = p.
Proof.
  intros Hreach Hp Hex. unfold getAgentDetails in *.
  destruct (keyed_invariant st Hreach) as [_ Ha].
  destruct (Ha _ Hex) as [Hok Hkey].
  apply derive_key_inj in Hkey as [Hsame _]; auto.
Qed.

(* No transaction on a reachable state ends in [Unauthorized]. *)
Lemma never_unauthorized {collision_free : CollisionFree hash} st env call :
  reachable st ->
  address_ok (msg_sender env) = true ->
  fst (transact env call st) <> Failure Unauthorized.
Proof.
  intros Hreach Hsender.
  destruct (transact env call st) as [[|e] st'] eqn:Htx; [discriminate|].
  simpl. intros Heq. injection Heq as ->.
  apply transact_failure in Htx as [-> [dirty Hd]].
  destruct call; follow Hd; try discriminate Hd; to_prop.
  all: pose proof (capsule_at_own_key st (msg_sender env) _capsuleId
                     Hreach Hsender) as Hown.
  all: unfold getCapsuleDetails in *.
  all: match goal with
       | H : Capsule.exists_ _ = true |- _ => specialize (Hown H)
       end.
  all: congruence.
Qed.

(* A call keyed by its caller that sends no value leaves the capsules of
   every other principal as they are. *)
Lemma foreign_capsule_untouched {collision_free : CollisionFree hash} env call st q id :
  address_ok (msg_sender env) = true ->
  address_ok q = true ->
  q <> msg_sender env ->
  sends_no_value call = true ->
  getCapsuleDetails (snd (transact env call st)) q id = getCapsuleDetails st q id.
Proof.
  intros Hsender Hq Hne Hkeyed.
  assert (forall id', derive_key (msg_sender env) id' <> derive_key q id) as Hkeys.
  { intros id' Heq. apply derive_key_inj in Heq as [Heq _]; auto. }
  unfold getCapsuleDetails, transact, execute.
  destruct (body _ env call _) as [[] st'|e dirty] eqn:Hb; [|reflexivity].
  destruct call; try discriminate Hkeyed.
  all: follow Hb; inversion Hb; subst; clear Hb; simpl.
  all: at_key; try reflexivity.
  all: exfalso; eapply Hkeys; eassumption.
Qed.

Lemma stake_without_capsule env id v st :
  Capsule.exists_ (getCapsuleDetails st (msg_sender env) id) = false ->
  MIN_STAKE_AMOUNT <= v <= MAX_STAKE_AMOUNT ->
  transact env (Stake id v) st = (Failure CapsuleNotFound, st).
Proof.
  unfold getCapsuleDetails. intros Hnone Hv.
  destruct (transact env (Stake id v) st) as [[|e] st'] eqn:Htx.
  - exfalso. apply transact_success in Htx. follow Htx; to_prop; congruence.
  - apply transact_failure in Htx as [-> [dirty Hd]]. f_equal. f_equal.
    follow Hd; to_prop; try lia; try congruence.
    all: inversion Hd; reflexivity.
Qed.

Lemma updateCapsulePrice_without_capsule env id p st :
  Capsule.exists_ (getCapsuleDetails st (msg_sender env) id) = false ->
  MIN_PRICE_PER_QUERY <= p <= MAX_PRICE_PER_QUERY ->
  transact env (UpdateCapsulePrice id p) st = (Failure CapsuleNotFound, st).
Proof.
  unfold getCapsuleDetails. intros Hnone Hp.
  destruct (transact env (UpdateCapsulePrice id p) st) as [[|e] st'] eqn:Htx.
  - exfalso. apply transact_success in Htx. follow Htx; to_prop; congruence.
  - apply transact_failure in Htx as [-> [dirty Hd]]. f_equal. f_equal.
    follow Hd; to_prop; try lia; try congruence.
    all: inversion Hd; reflexivity.
Qed.

(** C10. With [keccak256] free of collisions, in every reachable state
    a capsule that exists at the key derived from (p, s) has creator p,
    and an agent that exists there has owner p. Consequently no
    transaction of a caller that is an address ends in [Unauthorized]: a
    [stake] or [updateCapsulePrice] that passes its range checks fails
    with [CapsuleNotFound] when the caller has no capsule of that id, and
    whatever it does, it leaves the capsules of every other principal as
    they are. *)
Theorem creator_is_key_owner {collision_free : CollisionFree hash} st :
  reachable st ->
  (forall p s,
     address_ok p = true ->
     (Capsule.exists_ (getCapsuleDetails st p s) = true ->
      Capsule.creator (getCapsuleDetails st p s) = p)
     /\ (Agent.exists_ (getAgentDetails st p s) = true ->
         Agent.owner (getAgentDetails st p s) = p))
  /\ (forall env call,
        address_ok (msg_sender env) = true ->
        fst (transact env call st) <> Failure Unauthorized)
  /\ (forall env id,
        address_ok (msg_sender env) = true ->
        Capsule.exists_ (getCapsuleDetails st (msg_sender env) id) = false ->
        (forall v,
           MIN_STAKE_AMOUNT <= v <= MAX_STAKE_AMOUNT ->
           transact env (Stake id v) st = (Failure CapsuleNotFound, st))
        /\ (forall p,
              MIN_PRICE_PER_QUERY <= p <= MAX_PRICE_PER_QUERY ->
              transact env (UpdateCapsulePrice id p) st
              = (Failure CapsuleNotFound, st)))
  /\ (forall env id q id',
        address_ok (msg_sender env) = true ->
        address_ok q = true ->
        q <> msg_sender env ->
        (forall v, getCapsuleDetails (snd (transact env (Stake id v) st)) q id'
                   = getCapsuleDetails st q id')
        /\ (forall p,
              getCapsuleDetails (snd (transact env (UpdateCapsulePrice id p) st)) q id'
              = getCapsuleDetails st q id')).
Proof.
  intros Hreach. split; [|split; [|split]].
  - intros p s Hp. split.
    + apply capsule_at_own_key; assumption.
    + apply agent_at_own_key; assumption.
  - intros env call Hsender. apply never_unauthorized; assumption.
  - intros env id Hsender Hnone. split.
    + intros v Hv. apply stake_without_capsule; assumption.
    + intros p Hp. apply updateCapsulePrice_without_capsule; assumption.
  - intros env id q id' Hsender Hq Hne. split; intros x.
    + apply foreign_capsule_untouched; auto.
    + apply foreign_capsule_untouched; auto.
Qed.

Lemma stake_effect_on_capsule env id v st st' :
  transact env (Stake id v) st = (Success, st') ->
  Capsule.exists_ (getCapsuleDetails st (msg_sender env) id) = true
  /\ Capsule.totalStake (getCapsuleDetails st' (msg_sender env) id)
     = Capsule.totalStake (getCapsuleDetails st (msg_sender env) id) + v.
Proof.
  rewrite transact_success. unfold getCapsuleDetails. intros H. follow H.
  all: inversion H; subst; clear H.
  all: at_key; to_prop; auto.
Qed.

(** C4 (as amended). With [keccak256] free of collisions, in a reachable
    state, let q own a capsule with some id and let another principal
    call [stake] with that id. The call never ends in [Unauthorized]; it
    leaves q's capsule and every stake record on it as they were; and,
    when the deposit is within the staking limits and the caller has no
    capsule of that id of its own, it fails with [CapsuleNotFound] and
    changes nothing; when it succeeds, the caller has a capsule of that
    id of its own and the deposit went to that capsule. *)
Theorem stake_by_non_creator {collision_free : CollisionFree hash} st env id v q :
  reachable st ->
  address_ok (msg_sender env) = true ->
  address_ok q = true ->
  Capsule.exists_ (getCapsuleDetails st q id) = true ->
  q <> msg_sender env ->
  fst (transact env (Stake id v) st) <> Failure Unauthorized
  /\ getCapsuleDetails (snd (transact env (Stake id v) st)) q id
     = getCapsuleDetails st q id
  /\ (forall a, getStakeDetails (snd (transact env (Stake id v) st)) q id a
                = getStakeDetails st q id a)
  /\ (MIN_STAKE_AMOUNT <= v <= MAX_STAKE_AMOUNT ->
      Capsule.exists_ (getCapsuleDetails st (msg_sender env) id) = false ->
      transact env (Stake id v) st = (Failure CapsuleNotFound, st))
  /\ (forall st',
        transact env (Stake id v) st = (Success, st') ->
        Capsule.exists_ (getCapsuleDetails st (msg_sender env) id) = true
        /\ Capsule.totalStake (getCapsuleDetails st' (msg_sender env) id)
           = Capsule.totalStake (getCapsuleDetails st (msg_sender env) id) + v).
Proof.
  intros Hreach Hsender Hq Hex Hne.
  assert (derive_key (msg_sender env) id <> derive_key q id) as Hkeys.
  { intros Heq. apply derive_key_inj in Heq as [Heq _]; auto. }
  split; [apply never_unauthorized; assumption|].
  split; [|split; [|split]].
  - apply foreign_capsule_untouched; auto.
  - intros a. unfold getStakeDetails, transact, execute.
    destruct (body _ env (Stake id v) _) as [[] st'|e dirty] eqn:Hb; [|reflexivity].
    follow Hb; inversion Hb; subst; clear Hb; simpl.
    all: at_key; congruence.
  - intros Hv Hnone. apply stake_without_capsule; assumption.
  - intros st' Htx. apply stake_effect_on_capsule. exact Htx.
Qed.

(** ** Further properties of the contract *)

(** *** The batched lookups *)

Lemma capsule_details_loop_spec st o ids :
  forall (n i : nat) details,
    (i + n)%nat = length ids ->
    length details = length ids ->
    capsule_details_loop st o ids n i details
    = take i details ++ map (getCapsuleDetails st o) (drop i ids).
Proof.
  induction n as [|n IH]; intros i details Hi Hlen.
  - rewrite Nat.add_0_r in Hi. subst i. simpl.
    rewrite drop_all, app_nil_r, <- Hlen, firstn_all. reflexivity.
  - cbn [capsule_details_loop]. rewrite IH by (rewrite ?length_insert; lia).
    assert (i < length ids)%nat as Hlt by lia.
    destruct (lookup_lt_is_Some_2 ids i Hlt) as [id Hid].
    rewrite (drop_S ids id i Hid). cbn [map].
    rewrite (list_lookup_total_correct ids i id Hid).
    rewrite (take_S_r (<[i:=_]> details) i (capsules st !!! derive_key o id))
      by (apply list_lookup_insert_eq; lia).
    rewrite take_insert_ge by lia. rewrite <- app_assoc. reflexivity.
Qed.

Lemma agent_details_loop_spec st o ids :
  forall (n i : nat) details,
    (i + n)%nat = length ids ->
    length details = length ids ->
    agent_details_loop st o ids n i details
    = take i details ++ map (getAgentDetails st o) (drop i ids).
Proof.
  induction n as [|n IH]; intros i details Hi Hlen.
  - rewrite Nat.add_0_r in Hi. subst i. simpl.
    rewrite drop_all, app_nil_r, <- Hlen, firstn_all. reflexivity.
  - cbn [agent_details_loop]. rewrite IH by (rewrite ?length_insert; lia).
    assert (i < length ids)%nat as Hlt by lia.
    destruct (lookup_lt_is_Some_2 ids i Hlt) as [id Hid].
    rewrite (drop_S ids id i Hid). cbn [map].
    rewrite (list_lookup_total_correct ids i id Hid).
    rewrite (take_S_r (<[i:=_]> details) i (agents st !!! derive_key o id))
      by (apply list_lookup_insert_eq; lia).
    rewrite take_insert_ge by lia. rewrite <- app_assoc. reflexivity.
Qed.

(** X1. The loops of [getCapsulesByOwnerDetailed] and
    [getAgentsByOwnerDetailed] return, for every owner and in every
    state, exactly what one [getCapsuleDetails] (respectively
    [getAgentDetails]) per listed id returns, in the order of the list. *)
Theorem detailed_views_are_batched_lookups st o :
  getCapsulesByOwnerDetailed st o
  = map (getCapsuleDetails st o) (getCapsulesByOwner st o)
  /\ getAgentsByOwnerDetailed st o
     = map (getAgentDetails st o) (getAgentsByOwner st o).
Proof.
  unfold getCapsulesByOwnerDetailed, getAgentsByOwnerDetailed,
    getCapsulesByOwner, getAgentsByOwner.
  split.
  - rewrite capsule_details_loop_spec by (rewrite ?length_replicate; lia).
    reflexivity.
  - rewrite agent_details_loop_spec by (rewrite ?length_replicate; lia).
    reflexivity.
Qed.

(** *** Outcomes of the registry functions *)

Lemma bytes_length_nonneg s : 0 <= bytes_length s.
Proof. unfold bytes_length. lia. Qed.

Lemma MIN_STRING_LENGTH_eq : MIN_STRING_LENGTH = 1.
Proof. reflexivity. Qed.

(* Split on the outcome of a transaction and follow the body. *)
Ltac by_cases_on_outcome :=
  match goal with
  | |- transact ?env ?call ?st = (Failure _, ?st) =>
      let Htx := fresh "Htx" in
      let Hd := fresh "Hd" in
      destruct (transact env call st) as [[|?e] ?st'] eqn:Htx;
      [ exfalso; apply transact_success in Htx; follow Htx
      | apply transact_failure in Htx as [-> [?dirty Hd]]; f_equal; f_equal;
        follow Hd; try (inversion Hd; reflexivity) ]
  end.

(** X2. [registerAgent] checks, in this order: an empty id or name
    ([EmptyString]); an id over 32 bytes or a name over 128 bytes
    ([InvalidMetadataLength]); an agent already at the caller's key
    (the [require] fails). Otherwise it succeeds whatever the display
    name and platform are: the record at the caller's key is the one
    passed in, stamped with the time of the call and reputation 10000;
    the id is appended to the caller's list; one event and one log entry
    are appended. *)
Theorem registerAgent_outcome env id n d p st :
  (bytes_length id = 0 \/ bytes_length n = 0 ->
   transact env (RegisterAgent id n d p) st = (Failure EmptyString, st))
  /\ (0 < bytes_length id -> 0 < bytes_length n ->
      32 < bytes_length id \/ 128 < bytes_length n ->
      transact env (RegisterAgent id n d p) st
      = (Failure InvalidMetadataLength, st))
  /\ (0 < bytes_length id <= 32 -> 0 < bytes_length n <= 128 ->
      (Agent.exists_ (getAgentDetails st (msg_sender env) id) = true ->
       transact env (RegisterAgent id n d p) st
       = (Failure (RequireFailed "Agent already exists"), st))
      /\ (Agent.exists_ (getAgentDetails st (msg_sender env) id) = false ->
          exists st',
            transact env (RegisterAgent id n d p) st = (Success, st')
            /\ getAgentDetails st' (msg_sender env) id
               = Agent.mk (msg_sender env) id n d p (block_timestamp env) 10000 true
            /\ getAgentsByOwner st' (msg_sender env)
               = getAgentsByOwner st (msg_sender env) ++ [id]
            /\ events st' = events st ++ [AgentRegistered (msg_sender env) id]
            /\ getAllAgentLogs st'
               = getAllAgentLogs st
                 ++ [AgentRegisteredLog.mk (msg_sender env) id (block_timestamp env)])).
Proof.
  pose proof (bytes_length_nonneg id). pose proof (bytes_length_nonneg n).
  unfold getAgentDetails, getAgentsByOwner, getAllAgentLogs.
  split; [|split; [|intros Hid Hn; split]].
  - intros Hempty. by_cases_on_outcome; rewrite MIN_STRING_LENGTH_eq in *;
      to_prop; lia.
  - intros Hid Hn Hlong. by_cases_on_outcome; rewrite MIN_STRING_LENGTH_eq in *;
      to_prop; lia.
  - intros Hex. by_cases_on_outcome; rewrite MIN_STRING_LENGTH_eq in *;
      to_prop; try lia; congruence.
  - intros Hnone.
    destruct (transact env (RegisterAgent id n d p) st) as [[|e] st'] eqn:Htx.
    + exists st'. split; [reflexivity|].
      apply transact_success in Htx. follow Htx.
      inversion Htx; subst; clear Htx. at_key. auto.
    + exfalso. apply transact_failure in Htx as [-> [dirty Hd]].
      follow Hd; rewrite MIN_STRING_LENGTH_eq in *; to_prop; try lia; congruence.
Qed.

Lemma price_limits : MIN_PRICE_PER_QUERY = 10 ^ 14 /\ MAX_PRICE_PER_QUERY = 10 ^ 18.
Proof. split; reflexivity. Qed.

(** X3. [createCapsule] checks, in this order: an empty id
    ([EmptyString]); an id over 32 bytes ([InvalidMetadataLength]); a
    price under 10^14 wei ([InvalidPrice]); a price over 10^18 wei
    ([PriceTooHigh]); a capsule already at the caller's key (the
    [require] fails). Otherwise it succeeds, whatever the name, the
    description and the category are: the new capsule has the given
    price, no stake and no earnings, [createdAt = updatedAt = now]; the
    id is appended to the caller's list; one event and one log entry are
    appended. *)
Theorem createCapsule_outcome env id n d g p st :
  (bytes_length id = 0 ->
   transact env (CreateCapsule id n d g p) st = (Failure EmptyString, st))
  /\ (32 < bytes_length id ->
      transact env (CreateCapsule id n d g p) st
      = (Failure InvalidMetadataLength, st))
  /\ (0 < bytes_length id <= 32 ->
      (p < 10 ^ 14 ->
       transact env (CreateCapsule id n d g p) st = (Failure InvalidPrice, st))
      /\ (10 ^ 18 < p ->
          transact env (CreateCapsule id n d g p) st = (Failure PriceTooHigh, st))
      /\ (10 ^ 14 <= p <= 10 ^ 18 ->
          (Capsule.exists_ (getCapsuleDetails st (msg_sender env) id) = true ->
           transact env (CreateCapsule id n d g p) st
           = (Failure (RequireFailed "Capsule already exists"), st))
          /\ (Capsule.exists_ (getCapsuleDetails st (msg_sender env) id) = false ->
              exists st',
                transact env (CreateCapsule id n d g p) st = (Success, st')
                /\ getCapsuleDetails st' (msg_sender env) id
                   = Capsule.mk (msg_sender env) id n d g p 0
                       (block_timestamp env) (block_timestamp env) 0 true
                /\ getCapsulesByOwner st' (msg_sender env)
                   = getCapsulesByOwner st (msg_sender env) ++ [id]
                /\ events st' = events st ++ [CapsuleCreated (msg_sender env) id]
                /\ getAllCapsuleLogs st'
                   = getAllCapsuleLogs st
                     ++ [CapsuleCreatedLog.mk (msg_sender env) id
                           (block_timestamp env)]))).
Proof.
  pose proof (bytes_length_nonneg id). destruct price_limits as [Hmin Hmax].
  unfold getCapsuleDetails, getCapsulesByOwner, getAllCapsuleLogs.
  split; [|split; [|intros Hid; split; [|split; [|intros Hp; split]]]].
  - intros Hempty. by_cases_on_outcome; rewrite MIN_STRING_LENGTH_eq in *;
      to_prop; lia.
  - intros Hlong. by_cases_on_outcome; rewrite MIN_STRING_LENGTH_eq in *;
      to_prop; lia.
  - intros Hp. by_cases_on_outcome; rewrite MIN_STRING_LENGTH_eq in *;
      to_prop; lia.
  - intros Hp. by_cases_on_outcome; rewrite MIN_STRING_LENGTH_eq in *;
      to_prop; lia.
  - intros Hex. by_cases_on_outcome; rewrite MIN_STRING_LENGTH_eq in *;
      to_prop; try lia; congruence.
  - intros Hnone.
    destruct (transact env (CreateCapsule id n d g p) st) as [[|e] st'] eqn:Htx.
    + exists st'. split; [reflexivity|].
      apply transact_success in Htx. follow Htx.
      inversion Htx; subst; clear Htx. at_key. auto.
    + exfalso. apply transact_failure in Htx as [-> [dirty Hd]].
      follow Hd; rewrite MIN_STRING_LENGTH_eq in *; to_prop; try lia; congruence.
Qed.

(** X4. [updateCapsulePrice] checks, in this order: a price under 10^14
    wei ([InvalidPrice]); a price over 10^18 wei ([PriceTooHigh]); no
    capsule at the caller's key ([CapsuleNotFound]); a capsule there
    whose creator is not the caller ([Unauthorized]). Otherwise it
    succeeds and changes, in the capsule, the price and [updatedAt] and
    nothing else (stake, earnings, creation time and texts stay); the
    balance, the earnings records and the stake records are untouched;
    one event and one log entry are appended. *)
Theorem updateCapsulePrice_outcome env id p st :
  let c := getCapsuleDetails st (msg_sender env) id in
  (p < 10 ^ 14 ->
   transact env (UpdateCapsulePrice id p) st = (Failure InvalidPrice, st))
  /\ (10 ^ 18 < p ->
      transact env (UpdateCapsulePrice id p) st = (Failure PriceTooHigh, st))
  /\ (10 ^ 14 <= p <= 10 ^ 18 ->
      (Capsule.exists_ c = false ->
       transact env (UpdateCapsulePrice id p) st = (Failure CapsuleNotFound, st))
      /\ (Capsule.exists_ c = true -> Capsule.creator c <> msg_sender env ->
          transact env (UpdateCapsulePrice id p) st = (Failure Unauthorized, st))
      /\ (Capsule.exists_ c = true -> Capsule.creator c = msg_sender env ->
          exists st',
            transact env (UpdateCapsulePrice id p) st = (Success, st')
            /\ getCapsuleDetails st' (msg_sender env) id
               = Capsule.set_updatedAt (block_timestamp env) (Capsule.set_price p c)
            /\ balance st' = balance st
            /\ earnings st' = earnings st
            /\ stakes st' = stakes st
            /\ events st' = events st ++ [PriceUpdated id p]
            /\ priceUpdatedHistory st'
               = priceUpdatedHistory st
                 ++ [PriceUpdatedLog.mk id p (block_timestamp env)])).
Proof.
  intros c. subst c. destruct price_limits as [Hmin Hmax].
  unfold getCapsuleDetails.
  split; [|split; [|intros Hp; split; [|split]]].
  - intros Hlow. by_cases_on_outcome; to_prop; lia.
  - intros Hhigh. by_cases_on_outcome; to_prop; lia.
  - intros Hnone. by_cases_on_outcome; to_prop; try lia; congruence.
  - intros Hex Hother. by_cases_on_outcome; to_prop; try lia; congruence.
  - intros Hex Hown.
    destruct (transact env (UpdateCapsulePrice id p) st) as [[|e] st'] eqn:Htx.
    + exists st'. split; [reflexivity|].
      apply transact_success in Htx. follow Htx.
      inversion Htx; subst; clear Htx. at_key. auto 10.
    + exfalso. apply transact_failure in Htx as [-> [dirty Hd]].
      follow Hd; to_prop; try lia; congruence.
Qed.

Lemma stake_limits : MIN_STAKE_AMOUNT = 10 ^ 14 /\ MAX_STAKE_AMOUNT = 10 ^ 20.
Proof. split; reflexivity. Qed.

(** X5. [stake] checks, in this order: a deposit under 10^14 wei
    ([InsufficientPayment]); a deposit over 10^20 wei ([StakeTooHigh]);
    no capsule at the caller's key ([CapsuleNotFound]); a capsule there
    whose creator is not the caller ([Unauthorized]). The limits bound
    one deposit, not the position: past the checks the call succeeds
    whenever [totalStake + deposit] and [now + 604800] fit in [uint256]
    (and aborts with [Panic 0x11] otherwise), whatever [totalStake]
    already is. On success [totalStake] grows by the deposit, [updatedAt]
    is the time of the call, the contract keeps the deposit and sends
    nothing, and one event and one log entry are appended. *)
Theorem stake_outcome env id v st :
  let c := getCapsuleDetails st (msg_sender env) id in
  (v < 10 ^ 14 ->
   transact env (Stake id v) st = (Failure InsufficientPayment, st))
  /\ (10 ^ 20 < v ->
      transact env (Stake id v) st = (Failure StakeTooHigh, st))
  /\ (10 ^ 14 <= v <= 10 ^ 20 ->
      (Capsule.exists_ c = false ->
       transact env (Stake id v) st = (Failure CapsuleNotFound, st))
      /\ (Capsule.exists_ c = true -> Capsule.creator c <> msg_sender env ->
          transact env (Stake id v) st = (Failure Unauthorized, st))
      /\ (Capsule.exists_ c = true -> Capsule.creator c = msg_sender env ->
          (Capsule.totalStake c + v <= MAX_UINT256 ->
           block_timestamp env + 604800 <= MAX_UINT256 ->
           exists st',
             transact env (Stake id v) st = (Success, st')
             /\ Capsule.totalStake (getCapsuleDetails st' (msg_sender env) id)
                = Capsule.totalStake c + v
             /\ Capsule.updatedAt (getCapsuleDetails st' (msg_sender env) id)
                = block_timestamp env
             /\ balance st' = balance st + v
             /\ transfers st' = transfers st
             /\ events st' = events st ++ [StakedOnCapsule (msg_sender env) id v]
             /\ stakedOnCapsuleHistory st'
                = stakedOnCapsuleHistory st
                  ++ [StakedOnCapsuleLog.mk (msg_sender env) id v
                        (block_timestamp env)])
          /\ (MAX_UINT256 < Capsule.totalStake c + v
              \/ MAX_UINT256 < block_timestamp env + 604800 ->
              transact env (Stake id v) st = (Failure (Panic 17), st)))).
Proof.
  intros c. subst c. destruct stake_limits as [Hmin Hmax].
  pose proof LOCK_PERIOD_SECONDS_eq as Hlock.
  unfold getCapsuleDetails.
  split; [|split; [|intros Hv; split; [|split; [|intros Hex Hown; split]]]].
  - intros Hlow. by_cases_on_outcome; to_prop; lia.
  - intros Hhigh. by_cases_on_outcome; to_prop; lia.
  - intros Hnone. by_cases_on_outcome; to_prop; try lia; congruence.
  - intros Hex Hother. by_cases_on_outcome; to_prop; try lia; congruence.
  - intros Hfit Hlockfit.
    destruct (transact env (Stake id v) st) as [[|e] st'] eqn:Htx.
    + exists st'. split; [reflexivity|].
      apply transact_success in Htx. follow Htx.
      all: inversion Htx; subst; clear Htx; at_key; auto 10.
    + exfalso. apply transact_failure in Htx as [-> [dirty Hd]].
      follow Hd; to_prop; try lia; congruence.
  - intros Hover. by_cases_on_outcome; to_prop; try lia; congruence.
Qed.

(** X6. [unstake] refuses, in this order: a zero amount
    ([InsufficientPayment]); no capsule at the caller's key
    ([CapsuleNotFound]); no stake record of the caller, or an amount
    above [totalStake] ([InsufficientStake]). The balance check comes
    before the lock check, so asking for too much fails with
    [InsufficientStake] even while the stake is locked. *)
Theorem unstake_refusals env id amount st :
  let c := getCapsuleDetails st (msg_sender env) id in
  let s := getStakeDetails st (msg_sender env) id (msg_sender env) in
  (amount = 0 ->
   transact env (Unstake id amount) st = (Failure InsufficientPayment, st))
  /\ (amount <> 0 -> Capsule.exists_ c = false ->
      transact env (Unstake id amount) st = (Failure CapsuleNotFound, st))
  /\ (amount <> 0 -> Capsule.exists_ c = true ->
      Staking.exists_ s = false \/ Capsule.totalStake c < amount ->
      transact env (Unstake id amount) st = (Failure InsufficientStake, st)).
Proof.
  intros c s. subst c s. unfold getCapsuleDetails, getStakeDetails.
  split; [|split].
  - intros Hzero. by_cases_on_outcome; to_prop; lia.
  - intros Hpos Hnone. by_cases_on_outcome; to_prop; try lia; congruence.
  - intros Hpos Hex Hshort.
    by_cases_on_outcome; to_prop; try lia; try congruence.
    all: destruct Hshort; try lia; congruence.
Qed.

(** X7. [withdrawEarnings] has no existence check: in a reachable state,
    a withdrawal for an id the caller never created finds no earnings at
    the derived key and fails with [InsufficientPayment] (not with
    [CapsuleNotFound]), changing nothing. *)
Theorem withdrawEarnings_without_capsule env id st :
  reachable st ->
  Capsule.exists_ (getCapsuleDetails st (msg_sender env) id) = false ->
  transact env (WithdrawEarnings id) st = (Failure InsufficientPayment, st).
Proof.
  intros Hreach Hnone. apply withdrawEarnings_nothing.
  destruct (earnings_invariant st Hreach) as [_ Hu].
  apply Hu. exact Hnone.
Qed.

(** *** Sums over mappings and logs *)

Lemma sum_over_empty {A} (f : A -> Z) : sum_over f ∅ = 0.
Proof. apply map_fold_empty. Qed.

Lemma sum_over_fresh {A} (f : A -> Z) (m : gmap bytes32 A) k v :
  m !! k = None -> sum_over f (<[k:=v]> m) = f v + sum_over f m.
Proof.
  intros Hk. unfold sum_over.
  apply (map_fold_insert_L (fun _ a acc => f a + acc)); [|exact Hk].
  intros. lia.
Qed.

(* Writing a record replaces its share of the sum. *)
Lemma sum_over_insert {A} `{Inhabited A} (f : A -> Z) (m : gmap bytes32 A) k v :
  f inhabitant = 0 ->
  sum_over f (<[k:=v]> m) = sum_over f m - f (m !!! k) + f v.
Proof.
  intros Hzero. rewrite lookup_total_alt.
  destruct (m !! k) as [a|] eqn:Hk; simpl.
  - rewrite <- (insert_delete_eq m k v).
    rewrite <- (insert_delete_id m k a Hk) at 2.
    rewrite !sum_over_fresh by apply lookup_delete_eq. lia.
  - rewrite sum_over_fresh by exact Hk. lia.
Qed.

(* With no negative share, no share exceeds the sum. *)
Lemma sum_over_bound {A} `{Inhabited A} (f : A -> Z) (m : gmap bytes32 A) :
  f inhabitant = 0 ->
  (forall k, 0 <= f (m !!! k)) ->
  forall k, 0 <= f (m !!! k) <= sum_over f m.
Proof.
  intros Hzero. induction m as [|j a m Hj IH] using map_ind; intros Hpos k.
  - rewrite lookup_total_empty, sum_over_empty. lia.
  - rewrite sum_over_fresh by exact Hj.
    assert (forall k', 0 <= f (m !!! k')) as Hpos'.
    { intros k'. destruct (decide (j = k')) as [->|Hne].
      - rewrite lookup_total_alt, Hj. simpl. lia.
      - specialize (Hpos k'). rewrite lookup_total_insert_ne in Hpos by exact Hne.
        exact Hpos. }
    pose proof (Hpos j) as Hj'. rewrite lookup_total_insert_eq in Hj'.
    destruct (decide (j = k)) as [->|Hne].
    + rewrite lookup_total_insert_eq.
      destruct (IH Hpos' k) as [_ Hle]. rewrite lookup_total_alt, Hj in Hle.
      simpl in Hle. lia.
    + rewrite lookup_total_insert_ne by exact Hne.
      destruct (IH Hpos' k). lia.
Qed.

Lemma sum_of_app {A} (f : A -> Z) (l1 l2 : list A) :
  sum_of f (l1 ++ l2) = sum_of f l1 + sum_of f l2.
Proof. induction l1 as [|a l1 IH]; simpl; [reflexivity|]. rewrite IH. lia. Qed.

Lemma MAX_UINT256_big : 10000 <= MAX_UINT256.
Proof. unfold MAX_UINT256. lia. Qed.

(* Bring the key equalities found by [at_key] to bear on the goal. *)
Ltac same_key :=
  repeat match goal with
         | H : derive_key _ _ = derive_key _ _ |- _ => rewrite H in *; clear H
         end.

Ltac sums :=
  unfold total_staked, total_earned, total_queries; state_simpl;
  repeat (rewrite sum_over_insert by reflexivity;
          rewrite ?lookup_total_insert_eq); simpl.

(** *** Owner lists *)

Lemma capsule_lists_step env call st :
  capsule_lists_sound st /\ capsule_lists_nodup st ->
  capsule_lists_sound (snd (transact env call st))
  /\ capsule_lists_nodup (snd (transact env call st)).
Proof.
  revert env call st.
  apply (transact_keeps
           (fun s => capsule_lists_sound s /\ capsule_lists_nodup s)).
  intros receive env call st Hrec [Hs Hn]. unfold execute.
  destruct (body _ env call _) as [[] st'|e dirty] eqn:Hb; [|simpl; auto].
  simpl. unfold capsule_lists_sound, capsule_lists_nodup in *.
  destruct call; follow Hb; inversion Hb; subst; clear Hb; state_simpl.
  all: try (through_recipient Hrec; [clear Hs Hn; destruct R as [Hs Hn]|]).
  all: split; [intros a id Hin | intros a].
  all: try (specialize (Hs a id Hin); at_key; same_key; tauto).
  all: try (specialize (Hn a); at_key; same_key; tauto).
  - to_prop.
    rewrite lookup_total_insert in Hin. case_decide; subst.
    + apply elem_of_app in Hin as [Hin|Hin].
      * specialize (Hs _ _ Hin). at_key; same_key; try tauto.
        destruct Hs; congruence.
      * apply list_elem_of_singleton in Hin. subst. at_key. auto.
    + specialize (Hs _ _ Hin). at_key; same_key; try tauto.
      destruct Hs; congruence.
  - to_prop. at_key; [|apply Hn].
    apply NoDup_app. split; [apply Hn|]. split; [|apply NoDup_singleton].
    intros x Hx Hx'. apply list_elem_of_singleton in Hx'. subst.
    destruct (Hs _ _ Hx). congruence.
Qed.

Lemma agent_lists_step env call st :
  agent_lists_sound st /\ agent_lists_nodup st ->
  agent_lists_sound (snd (transact env call st))
  /\ agent_lists_nodup (snd (transact env call st)).
Proof.
  revert env call st.
  apply (transact_keeps
           (fun s => agent_lists_sound s /\ agent_lists_nodup s)).
  intros receive env call st Hrec [Hs Hn]. unfold execute.
  destruct (body _ env call _) as [[] st'|e dirty] eqn:Hb; [|simpl; auto].
  simpl. unfold agent_lists_sound, agent_lists_nodup in *.
  destruct call; follow Hb; inversion Hb; subst; clear Hb; state_simpl.
  all: try (through_recipient Hrec; [clear Hs Hn; destruct R as [Hs Hn]|]).
  all: split; [intros a id Hin | intros a].
  all: try (specialize (Hs a id Hin); at_key; same_key; tauto).
  all: try (specialize (Hn a); at_key; same_key; tauto).
  - to_prop.
    rewrite lookup_total_insert in Hin. case_decide; subst.
    + apply elem_of_app in Hin as [Hin|Hin].
      * specialize (Hs _ _ Hin). at_key; same_key; try tauto.
        destruct Hs; congruence.
      * apply list_elem_of_singleton in Hin. subst. at_key. auto.
    + specialize (Hs _ _ Hin). at_key; same_key; try tauto.
      destruct Hs; congruence.
  - to_prop. at_key; [|apply Hn].
    apply NoDup_app. split; [apply Hn|]. split; [|apply NoDup_singleton].
    intros x Hx Hx'. apply list_elem_of_singleton in Hx'. subst.
    destruct (Hs _ _ Hx). congruence.
Qed.

Lemma lists_complete_step env call st :
  capsule_lists_complete st /\ agent_lists_complete st ->
  capsule_lists_complete (snd (transact env call st))
  /\ agent_lists_complete (snd (transact env call st)).
Proof.
  revert env call st.
  apply (transact_keeps
           (fun s => capsule_lists_complete s /\ agent_lists_complete s)).
  intros receive env call st Hrec [Hc Ha]. unfold execute.
  destruct (body _ env call _) as [[] st'|e dirty] eqn:Hb; [|simpl; auto].
  simpl. unfold capsule_lists_complete, agent_lists_complete in *.
  destruct call; follow Hb; inversion Hb; subst; clear Hb; state_simpl.
  all: try (through_recipient Hrec; [clear Hc Ha; destruct R as [Hc Ha]|]).
  all: split; intros k; specialize (Hc k); specialize (Ha k).
  all: at_key; auto.
  all: intros Hex; apply elem_of_app.
  all: first [ right; apply list_elem_of_singleton; reflexivity | left ].
  all: match goal with H : msg_sender _ = _ |- _ => rewrite H end; auto.
Qed.

Lemma owner_lists_invariant st :
  reachable st ->
  (capsule_lists_sound st /\ capsule_lists_nodup st)
  /\ (agent_lists_sound st /\ agent_lists_nodup st)
  /\ (capsule_lists_complete st /\ agent_lists_complete st).
Proof.
  induction 1 as [|st tx _ (IHc & IHa & IHl) _ _].
  - unfold capsule_lists_sound, capsule_lists_nodup, agent_lists_sound,
      agent_lists_nodup, capsule_lists_complete, agent_lists_complete,
      initial_state; simpl.
    repeat split; intros; rewrite ?lookup_total_empty in *; simpl in *;
      try discriminate; try apply NoDup_nil_2;
      match goal with H : _ ∈ [] |- _ => apply elem_of_nil in H; contradiction end.
  - unfold apply_tx. split; [|split].
    + apply capsule_lists_step; assumption.
    + apply agent_lists_step; assumption.
    + apply lists_complete_step; assumption.
Qed.

Lemma map_map_fixed {A B} (f : B -> A) (g : A -> B) (l : list A) :
  Forall (fun x => f (g x) = x) l -> map f (map g l) = l.
Proof.
  induction 1 as [|x l Hx _ IH]; [reflexivity|].
  cbn [map]. rewrite Hx, IH. reflexivity.
Qed.

(** X8. In every reachable state the list of capsule ids of an owner has
    no duplicates, every listed id resolves to an existing capsule whose
    creator is that owner and whose id is the listed one, and the ids of
    what [getCapsulesByOwnerDetailed] returns are the list itself; the
    same holds of the agent list and [getAgentsByOwnerDetailed]. *)
Theorem listed_ids_resolve st o :
  reachable st ->
  (NoDup (getCapsulesByOwner st o)
   /\ Forall (fun id =>
                Capsule.exists_ (getCapsuleDetails st o id) = true
                /\ Capsule.creator (getCapsuleDetails st o id) = o
                /\ Capsule.capsuleId (getCapsuleDetails st o id) = id)
             (getCapsulesByOwner st o)
   /\ map Capsule.capsuleId (getCapsulesByOwnerDetailed st o)
      = getCapsulesByOwner st o)
  /\ (NoDup (getAgentsByOwner st o)
      /\ Forall (fun id =>
                   Agent.exists_ (getAgentDetails st o id) = true
                   /\ Agent.owner (getAgentDetails st o id) = o
                   /\ Agent.agentId (getAgentDetails st o id) = id)
                (getAgentsByOwner st o)
      /\ map Agent.agentId (getAgentsByOwnerDetailed st o)
         = getAgentsByOwner st o).
Proof.
  intros Hreach.
  destruct (owner_lists_invariant st Hreach) as ((Hcs & Hcn) & (Has & Han) & _).
  assert (Forall (fun id =>
                    Capsule.exists_ (getCapsuleDetails st o id) = true
                    /\ Capsule.creator (getCapsuleDetails st o id) = o
                    /\ Capsule.capsuleId (getCapsuleDetails st o id) = id)
                 (getCapsulesByOwner st o)) as Hc.
  { apply Forall_forall. intros id Hin. apply Hcs. exact Hin. }
  assert (Forall (fun id =>
                    Agent.exists_ (getAgentDetails st o id) = true
                    /\ Agent.owner (getAgentDetails st o id) = o
                    /\ Agent.agentId (getAgentDetails st o id) = id)
                 (getAgentsByOwner st o)) as Ha.
  { apply Forall_forall. intros id Hin. apply Has. exact Hin. }
  split; (split; [|split]); auto.
  - apply Hcn.
  - unfold getCapsulesByOwnerDetailed.
    rewrite capsule_details_loop_spec by (rewrite ?length_replicate; lia).
    cbn [take drop app]. apply map_map_fixed.
    eapply Forall_impl; [exact Hc|]. intros id Hid. apply Hid.
  - apply Han.
  - unfold getAgentsByOwnerDetailed.
    rewrite agent_details_loop_spec by (rewrite ?length_replicate; lia).
    cbn [take drop app]. apply map_map_fixed.
    eapply Forall_impl; [exact Ha|]. intros id Hid. apply Hid.
Qed.

(** X9. In every reachable state every capsule that exists is listed
    under its creator, and looking it up by that creator and its id
    returns the very record; likewise every agent under its owner. *)
Theorem records_are_listed st k :
  reachable st ->
  (Capsule.exists_ (capsules st !!! k) = true ->
   Capsule.capsuleId (capsules st !!! k)
   ∈ getCapsulesByOwner st (Capsule.creator (capsules st !!! k))
   /\ getCapsuleDetails st (Capsule.creator (capsules st !!! k))
                          (Capsule.capsuleId (capsules st !!! k))
      = capsules st !!! k)
  /\ (Agent.exists_ (agents st !!! k) = true ->
      Agent.agentId (agents st !!! k)
      ∈ getAgentsByOwner st (Agent.owner (agents st !!! k))
      /\ getAgentDetails st (Agent.owner (agents st !!! k))
                            (Agent.agentId (agents st !!! k))
         = agents st !!! k).
Proof.
  intros Hreach.
  destruct (owner_lists_invariant st Hreach) as (_ & _ & Hc & Ha).
  destruct (keyed_invariant st Hreach) as [Hkc Hka].
  split; intros Hex.
  - split; [apply Hc; exact Hex|].
    unfold getCapsuleDetails. destruct (Hkc k Hex) as [_ Hkey].
    rewrite <- Hkey. reflexivity.
  - split; [apply Ha; exact Hex|].
    unfold getAgentDetails. destruct (Hka k Hex) as [_ Hkey].
    rewrite <- Hkey. reflexivity.
Qed.

(** *** Creation logs *)

Lemma capsule_logs_step env call st :
  capsule_logs_sound st /\ capsule_logs_complete st ->
  capsule_logs_sound (snd (transact env call st))
  /\ capsule_logs_complete (snd (transact env call st)).
Proof.
  revert env call st.
  apply (transact_keeps
           (fun s => capsule_logs_sound s /\ capsule_logs_complete s)).
  intros receive env call st Hrec [Hs Hc]. unfold execute.
  destruct (body _ env call _) as [[] st'|e dirty] eqn:Hb; [|simpl; auto].
  simpl. unfold capsule_logs_sound, capsule_logs_complete in *.
  destruct call; follow Hb; inversion Hb; subst; clear Hb; state_simpl.
  all: try (through_recipient Hrec; [clear Hs Hc; destruct R as [Hs Hc]|]).
  all: split; [intros l Hin | intros k; specialize (Hc k)].
  all: try (specialize (Hs l Hin); cbv zeta in *; at_key; same_key; tauto).
  all: try (at_key; same_key; tauto).
  - to_prop. cbv zeta. apply elem_of_app in Hin as [Hin|Hin].
    + specialize (Hs l Hin). cbv zeta in Hs. at_key; same_key; try tauto.
      destruct Hs; congruence.
    + apply list_elem_of_singleton in Hin. subst. simpl. at_key. auto.
  - at_key.
    + intros _. apply elem_of_app. right. apply list_elem_of_singleton. reflexivity.
    + intros Hex. apply elem_of_app. auto.
Qed.

Lemma agent_logs_step env call st :
  agent_logs_sound st /\ agent_logs_complete st ->
  agent_logs_sound (snd (transact env call st))
  /\ agent_logs_complete (snd (transact env call st)).
Proof.
  revert env call st.
  apply (transact_keeps
           (fun s => agent_logs_sound s /\ agent_logs_complete s)).
  intros receive env call st Hrec [Hs Hc]. unfold execute.
  destruct (body _ env call _) as [[] st'|e dirty] eqn:Hb; [|simpl; auto].
  simpl. unfold agent_logs_sound, agent_logs_complete in *.
  destruct call; follow Hb; inversion Hb; subst; clear Hb; state_simpl.
  all: try (through_recipient Hrec; [clear Hs Hc; destruct R as [Hs Hc]|]).
  all: split; [intros l Hin | intros k; specialize (Hc k)].
  all: try (specialize (Hs l Hin); cbv zeta in *; at_key; same_key; tauto).
  all: try (at_key; same_key; tauto).
  - to_prop. cbv zeta. apply elem_of_app in Hin as [Hin|Hin].
    + specialize (Hs l Hin). cbv zeta in Hs. at_key; same_key; try tauto.
      destruct Hs; congruence.
    + apply list_elem_of_singleton in Hin. subst. simpl. at_key. auto.
  - at_key.
    + intros _. apply elem_of_app. right. apply list_elem_of_singleton. reflexivity.
    + intros Hex. apply elem_of_app. auto.
Qed.

Lemma creation_logs_invariant st :
  reachable st ->
  (capsule_logs_sound st /\ capsule_logs_complete st)
  /\ (agent_logs_sound st /\ agent_logs_complete st).
Proof.
  induction 1 as [|st tx _ (IHc & IHa) _ _].
  - unfold capsule_logs_sound, capsule_logs_complete, agent_logs_sound,
      agent_logs_complete, initial_state; simpl.
    repeat split; intros; rewrite ?lookup_total_empty in *; simpl in *;
      try discriminate;
      match goal with H : _ ∈ [] |- _ => apply elem_of_nil in H; contradiction end.
  - unfold apply_tx. split.
    + apply capsule_logs_step; assumption.
    + apply agent_logs_step; assumption.
Qed.

(** X10. In every reachable state the creation logs and the records
    match: looking up the creator and id of an entry of
    [getAllCapsuleLogs] returns an existing capsule with that creator and
    id, created at the entry's timestamp; and every existing capsule has
    its entry. Likewise [getAllAgentLogs] and the agents. *)
Theorem creation_logs_match_records st :
  reachable st ->
  (forall l, l ∈ getAllCapsuleLogs st ->
     let c := getCapsuleDetails st (CapsuleCreatedLog.creator l)
                                   (CapsuleCreatedLog.capsuleId l) in
     Capsule.exists_ c = true
     /\ Capsule.creator c = CapsuleCreatedLog.creator l
     /\ Capsule.capsuleId c = CapsuleCreatedLog.capsuleId l
     /\ Capsule.createdAt c = CapsuleCreatedLog.timestamp l)
  /\ (forall o id,
        Capsule.exists_ (getCapsuleDetails st o id) = true ->
        CapsuleCreatedLog.mk (Capsule.creator (getCapsuleDetails st o id))
                             (Capsule.capsuleId (getCapsuleDetails st o id))
                             (Capsule.createdAt (getCapsuleDetails st o id))
        ∈ getAllCapsuleLogs st)
  /\ (forall l, l ∈ getAllAgentLogs st ->
        let a := getAgentDetails st (AgentRegisteredLog.owner l)
                                    (AgentRegisteredLog.agentId l) in
        Agent.exists_ a = true
        /\ Agent.owner a = AgentRegisteredLog.owner l
        /\ Agent.agentId a = AgentRegisteredLog.agentId l
        /\ Agent.createdAt a = AgentRegisteredLog.timestamp l)
  /\ (forall o id,
        Agent.exists_ (getAgentDetails st o id) = true ->
        AgentRegisteredLog.mk (Agent.owner (getAgentDetails st o id))
                              (Agent.agentId (getAgentDetails st o id))
                              (Agent.createdAt (getAgentDetails st o id))
        ∈ getAllAgentLogs st).
Proof.
  intros Hreach.
  destruct (creation_logs_invariant st Hreach) as ((Hcs & Hcc) & (Has & Hac)).
  unfold getAllCapsuleLogs, getAllAgentLogs, getCapsuleDetails, getAgentDetails.
  split; [|split; [|split]].
  - intros l Hin. apply Hcs. exact Hin.
  - intros o id Hex. apply Hcc. exact Hex.
  - intros l Hin. apply Has. exact Hin.
  - intros o id Hex. apply Hac. exact Hex.
Qed.

(** *** Limits *)

Lemma limits_step env call st :
  prices_within_limits st /\ reputations_initial st ->
  prices_within_limits (snd (transact env call st))
  /\ reputations_initial (snd (transact env call st)).
Proof.
  revert env call st.
  apply (transact_keeps
           (fun s => prices_within_limits s /\ reputations_initial s)).
  intros receive env call st Hrec [Hp Hr]. unfold execute.
  destruct (body _ env call _) as [[] st'|e dirty] eqn:Hb; [|simpl; auto].
  simpl. unfold prices_within_limits, reputations_initial in *.
  destruct call; follow Hb; inversion Hb; subst; clear Hb; to_prop.
  all: try (through_recipient Hrec; [clear Hp Hr; destruct R as [Hp Hr]|]).
  all: split; intros k; specialize (Hp k); specialize (Hr k).
  all: at_key; auto.
Qed.

Lemma limits_invariant st :
  reachable st -> prices_within_limits st /\ reputations_initial st.
Proof.
  induction 1 as [|st tx _ IH _ _].
  - split; intros k; rewrite ?initial_lookup_capsule, ?initial_lookup_agent;
      discriminate.
  - apply limits_step. exact IH.
Qed.

(** X11. In every reachable state the price of every existing capsule
    lies between 10^14 and 10^18 wei: [createCapsule] and
    [updateCapsulePrice] are the only writers of the price and both
    refuse a price outside the limits. *)
Theorem prices_stay_within_limits st o id :
  reachable st ->
  Capsule.exists_ (getCapsuleDetails st o id) = true ->
  10 ^ 14 <= Capsule.price (getCapsuleDetails st o id) <= 10 ^ 18.
Proof.
  intros Hreach Hex. destruct (limits_invariant st Hreach) as [Hp _].
  destruct price_limits as [Hmin Hmax]. rewrite <- Hmin, <- Hmax.
  apply Hp. exact Hex.
Qed.

(** X12. In every reachable state every existing agent has reputation
    10000: no function of the contract changes it after registration. *)
Theorem reputation_is_never_changed st o id :
  reachable st ->
  Agent.exists_ (getAgentDetails st o id) = true ->
  Agent.reputation (getAgentDetails st o id) = 10000.
Proof.
  intros Hreach Hex. destruct (limits_invariant st Hreach) as [_ Hr].
  apply Hr. exact Hex.
Qed.

(** *** Records that do not exist *)

Lemma unlisted_blank_execute receive env call st :
  (forall paid st', receive paid = Some st' ->
                    unlisted_blank paid -> unlisted_blank st') ->
  unlisted_blank st -> unlisted_blank (snd (execute receive env call st)).
Proof.
  intros Hrec (Hc & Ha & Hs). unfold execute.
  destruct (body _ env call _) as [[] st'|e dirty] eqn:Hb;
    [|simpl; split; [exact Hc | split; [exact Ha | exact Hs]]].
  simpl. unfold unlisted_blank in *.
  destruct call; follow Hb; inversion Hb; subst; clear Hb; to_prop.
  all: try (through_recipient Hrec;
            [clear Hc Ha Hs; destruct R as (Hc & Ha & Hs)|]).
  all: split; [intros k; specialize (Hc k)
              |split; [intros k; specialize (Ha k)
                      |intros k a; specialize (Hs k a)]].
  all: at_key; auto; try congruence.
  all: intros Hex; destruct (Hc Hex) as [Hzc Hze].
  all: try (rewrite Hzc; split; [reflexivity | assumption]).
  all: try (rewrite Hze in *; simpl in *; lia).
Qed.

Lemma unlisted_blank_step env call st :
  unlisted_blank st -> unlisted_blank (snd (transact env call st)).
Proof.
  revert env call st. apply (transact_keeps unlisted_blank).
  apply unlisted_blank_execute.
Qed.

Lemma unlisted_blank_reachable st : reachable st -> unlisted_blank st.
Proof.
  induction 1 as [|st tx _ IH _ _].
  - unfold unlisted_blank, initial_state; simpl.
    repeat split; intros; rewrite lookup_total_empty; reflexivity.
  - apply unlisted_blank_step. exact IH.
Qed.

(** X13. In every reachable state a lookup whose [exists] flag is off
    returns the zero record: a capsule that was never created reads as
    all zeros and has an all-zero earnings record, an agent that was
    never registered reads as all zeros, and so does a stake record that
    was never opened. *)
Theorem missing_records_read_as_zero st o id :
  reachable st ->
  (Capsule.exists_ (getCapsuleDetails st o id) = false ->
   getCapsuleDetails st o id = Capsule.zero
   /\ getEarnings st o id = Earnings.zero)
  /\ (Agent.exists_ (getAgentDetails st o id) = false ->
      getAgentDetails st o id = Agent.zero)
  /\ (forall staker,
        Staking.exists_ (getStakeDetails st o id staker) = false ->
        getStakeDetails st o id staker = Staking.zero).
Proof.
  intros Hreach. destruct (unlisted_blank_reachable st Hreach) as (Hc & Ha & Hs).
  unfold getCapsuleDetails, getEarnings, getAgentDetails, getStakeDetails.
  split; [|split].
  - apply Hc.
  - apply Ha.
  - intros staker. apply Hs.
Qed.

(** *** Stake records *)

Lemma stakes_by_creator_step env call st :
  stakes_by_creator st -> stakes_by_creator (snd (transact env call st)).
Proof.
  revert env call st. apply (transact_keeps stakes_by_creator).
  intros receive env call st Hrec [Hs Ht]. unfold execute.
  destruct (body _ env call _) as [[] st'|e dirty] eqn:Hb; [|simpl; split; auto].
  simpl. unfold stakes_by_creator in *.
  destruct call; follow Hb; inversion Hb; subst; clear Hb; to_prop.
  all: try (through_recipient Hrec; [clear Hs Ht; destruct R as [Hs Ht]|]).
  all: split; [intros k a; specialize (Hs k a) | intros k; specialize (Ht k)].
  all: at_key; auto.
  all: repeat match goal with
              | H : (_, _) = (_, _) |- _ => inversion H; subst; clear H
              end.
  all: try congruence.
  all: try (intros Hx; destruct (Hs Hx); congruence).
  all: try (intros _;
            match goal with
            | H : Staking.exists_ _ = true |- _ =>
                destruct (Hs _ _ H) as [_ Hcr]; rewrite Hcr; exact H
            end).
  all: auto.
Qed.

Lemma stakes_by_creator_reachable st : reachable st -> stakes_by_creator st.
Proof.
  induction 1 as [|st tx _ IH _ _].
  - unfold stakes_by_creator, initial_state; simpl.
    split; intros; rewrite ?lookup_total_empty in *; simpl in *;
      try discriminate; contradiction.
  - apply stakes_by_creator_step. exact IH.
Qed.

(** X14. In every reachable state a stake record exists only for the
    creator of an existing capsule (the creator check of [stake] keeps
    every other staker out, whatever the keys are), and a capsule whose
    [totalStake] is not zero has the stake record of its creator. *)
Theorem only_the_creator_holds_stake st q id :
  reachable st ->
  (forall staker,
     Staking.exists_ (getStakeDetails st q id staker) = true ->
     Capsule.exists_ (getCapsuleDetails st q id) = true
     /\ Capsule.creator (getCapsuleDetails st q id) = staker)
  /\ (Capsule.totalStake (getCapsuleDetails st q id) <> 0 ->
      Staking.exists_
        (getStakeDetails st q id (Capsule.creator (getCapsuleDetails st q id)))
      = true).
Proof.
  intros Hreach. destruct (stakes_by_creator_reachable st Hreach) as [Hs Ht].
  unfold getStakeDetails, getCapsuleDetails. split.
  - intros staker. apply Hs.
  - apply Ht.
Qed.

(** *** Numbers in range *)

Lemma amounts_in_range_step tx st :
  well_typed tx = true -> callbacks_well_typed tx ->
  amounts_in_range st -> amounts_in_range (apply_tx st tx).
Proof.
  revert tx st. apply (apply_tx_keeps amounts_in_range).
  intros receive env call st Hty Hrec (Hc & He & Hs & Ha).
  unfold well_typed in Hty. simpl in Hty. unfold execute.
  destruct (body _ env call _) as [[] st'|e dirty] eqn:Hb;
    [|simpl; split; [exact Hc | split; [exact He | split; [exact Hs | exact Ha]]]].
  simpl.
  pose proof MAX_UINT256_big as Hbig. pose proof LOCK_PERIOD_SECONDS_eq as Hlock.
  destruct call; follow Hb; inversion Hb; subst; clear Hb; to_prop.
  all: try (through_recipient Hrec;
            [clear Hc He Hs Ha; destruct R as (Hc & He & Hs & Ha)|]).
  all: unfold amounts_in_range, in_uint256, uint256_ok in *; to_prop.
  all: split; [intros k | split; [intros k | split; [intros k a | intros k]]].
  all: at_key.
  all: try pose proof (Hc k); try pose proof (He k);
       try pose proof (Hs k a); try pose proof (Ha k).
  all: try pose proof (Hc (derive_key (msg_sender env) _capsuleId)).
  all: try pose proof (He (derive_key (msg_sender env) _capsuleId)).
  all: try pose proof (Hc (derive_key _creator _capsuleId)).
  all: try pose proof (He (derive_key _creator _capsuleId)).
  all: try pose proof (Hs (derive_key (msg_sender env) _capsuleId) (msg_sender env)).
  all: try tauto; try lia.
Qed.

Lemma amounts_in_range_reachable st : reachable st -> amounts_in_range st.
Proof.
  induction 1 as [|st tx _ IH Hty Hcalls].
  - unfold amounts_in_range, in_uint256, initial_state; simpl.
    pose proof MAX_UINT256_big.
    repeat split; rewrite lookup_total_empty; simpl; lia.
  - apply amounts_in_range_step; assumption.
Qed.

(** X15. In every reachable state every number the contract stores
    (prices, stakes, earnings, query counts, timestamps, reputations) is
    within [0, 2^256 - 1]: the checked additions and the guarded
    subtractions never let a stored amount wrap or go negative. *)
Theorem stored_numbers_are_uint256 st :
  reachable st -> amounts_in_range st.
Proof. apply amounts_in_range_reachable. Qed.

(** *** What the contract holds and what it owes *)

Lemma moved_together_refl st : moved_together st st.
Proof. unfold moved_together. repeat split; lia. Qed.

Lemma moved_together_trans st1 st2 st3 :
  moved_together st1 st2 -> moved_together st2 st3 -> moved_together st1 st3.
Proof.
  unfold moved_together.
  intros (A & B & C & D & F) (A' & B' & C' & D' & F'). repeat split; lia.
Qed.

(* A transaction, with all the calls nested in it, moves the books
   together; so does each call on its own, from the ledger it starts
   from, which for a nested call is one in which the books of the
   calling function are still open. *)
Lemma ledger_moves_together env call st :
  unlisted_blank st ->
  unlisted_blank (snd (transact env call st))
  /\ moved_together st (snd (transact env call st)).
Proof.
  revert env call st.
  apply (transact_related_always
           (fun a b => unlisted_blank a ->
                       unlisted_blank b /\ moved_together a b)).
  - intros st Hb. split; [exact Hb | apply moved_together_refl].
  - intros a b c Hab Hbc Ha. destruct (Hab Ha) as [Hb Hmab].
    destruct (Hbc Hb) as [Hc Hmbc]. split; [exact Hc|].
    eapply moved_together_trans; eassumption.
  - intros receive env call st Hrec Hblank. split.
    { apply unlisted_blank_execute; [|exact Hblank].
      intros paid s Hr Hp. apply (Hrec paid s Hr Hp). }
    unfold execute.
    destruct (body _ env call _) as [[] st'|e dirty] eqn:Hb;
      [|simpl; apply moved_together_refl].
    simpl.
    destruct call; follow Hb; inversion Hb; subst; clear Hb.
    all: try (through_recipient Hrec; [destruct R as [_ Hmoved]; revert Hmoved|]).
    all: to_prop.
    (* the ledger handed to a recipient has no record without its flag *)
    all: try (destruct Hblank as (Hc & Ha & Hs); unfold unlisted_blank;
              split; [intros k; specialize (Hc k)
                     |split; [intros k; specialize (Ha k)
                             |intros k a; specialize (Hs k a)]];
              at_key; auto; try congruence;
              intros Hex; destruct (Hc Hex) as [Hzc Hze];
              try (rewrite Hzc; split; [reflexivity | assumption]);
              try (rewrite Hze in *; simpl in *; lia); fail).
    all: unfold moved_together, total_staked, total_earned, total_queries.
    all: sums; rewrite ?sum_of_app, ?length_app; simpl; to_prop.
    all: try match goal with
             | H : Capsule.exists_ _ = false |- _ =>
                 destruct Hblank as (Hc & _); destruct (Hc _ H) as [Hz _];
                 rewrite Hz
             end; simpl.
    all: try intros (A & B & C & D & F).
    all: repeat split; lia.
Qed.

Lemma balance_follows_owed env call st :
  unlisted_blank st ->
  balance (snd (transact env call st)) - balance st
  = (total_staked (snd (transact env call st))
     + total_earned (snd (transact env call st)))
    - (total_staked st + total_earned st).
Proof.
  intros Hblank. apply (ledger_moves_together env call st Hblank).
Qed.

Lemma owed_is_held st :
  reachable st -> balance st = total_staked st + total_earned st.
Proof.
  induction 1 as [|st tx Hreach IH _ _].
  - unfold total_staked, total_earned, initial_state; simpl.
    rewrite !sum_over_empty. reflexivity.
  - unfold apply_tx.
    pose proof (balance_follows_owed (tx_env tx) (tx_call tx) st
                  (unlisted_blank_reachable st Hreach)).
    lia.
Qed.

(** X16. In every reachable state the contract holds at least the sum of
    all stakes plus the sum of all unwithdrawn earnings, and every
    transaction, failed or not, moves its balance by exactly the change
    of that sum: a deposit, a payment net of its refund, an unstake and
    a withdrawal each change what is held and what is owed by the same
    amount. *)
Theorem contract_holds_what_it_owes st :
  reachable st ->
  total_staked st + total_earned st <= balance st
  /\ forall env call,
       balance (snd (transact env call st)) - balance st
       = (total_staked (snd (transact env call st))
          + total_earned (snd (transact env call st)))
         - (total_staked st + total_earned st).
Proof.
  intros Hreach. split.
  - rewrite (owed_is_held st Hreach). lia.
  - intros env call. apply balance_follows_owed.
    apply unlisted_blank_reachable. exact Hreach.
Qed.

Lemma share_of_stakes st k :
  reachable st ->
  0 <= Capsule.totalStake (capsules st !!! k) <= total_staked st.
Proof.
  intros Hreach. destruct (amounts_in_range_reachable st Hreach) as (Hc & _).
  apply (sum_over_bound Capsule.totalStake (capsules st)); [reflexivity|].
  intros k'. apply Hc.
Qed.

Lemma share_of_earnings st k :
  reachable st ->
  0 <= Earnings.totalEarnings (earnings st !!! k) <= total_earned st.
Proof.
  intros Hreach. destruct (amounts_in_range_reachable st Hreach) as (_ & He & _).
  apply (sum_over_bound Earnings.totalEarnings (earnings st)); [reflexivity|].
  intros k'. apply He.
Qed.

(* In a reachable state the contract holds every share. *)
Lemma share_is_held st k :
  reachable st ->
  Capsule.totalStake (capsules st !!! k) <= balance st
  /\ Earnings.totalEarnings (earnings st !!! k) <= balance st.
Proof.
  intros Hreach.
  pose proof (share_of_earnings st k Hreach).
  pose proof (share_of_stakes st k Hreach).
  pose proof (owed_is_held st Hreach). lia.
Qed.

(** X17. In every reachable state the funds for a withdrawal are there:
    the earnings of the caller's capsule never exceed what the contract
    holds, so the balance check of [withdrawEarnings] never stops a
    withdrawal. With earnings to withdraw, the amount is sent and the
    caller's code runs on the ledger [asked]; the call succeeds exactly
    when that run does not revert, in particular when the code accepts
    at once, and fails with [TransferFailed], changing nothing, exactly
    when it does. *)
Theorem withdrawal_is_funded st env id :
  let amount := Earnings.totalEarnings (getEarnings st (msg_sender env) id) in
  reachable st ->
  0 < amount ->
  amount <= balance st
  /\ exists asked,
       transfers asked = transfers st ++ [(msg_sender env, amount)]
       /\ balance asked = balance st - amount
       /\ (payee env asked = Answer true ->
           exists st', transact env (WithdrawEarnings id) st = (Success, st'))
       /\ ((exists st', transact env (WithdrawEarnings id) st = (Success, st'))
           <-> exists s, reaction env asked = Some s)
       /\ (transact env (WithdrawEarnings id) st = (Failure TransferFailed, st)
           <-> reaction env asked = None).
Proof.
  intros amount Hreach Hpos.
  assert (amount <= balance st) as Hheld
    by (subst amount; unfold getEarnings; apply share_is_held; exact Hreach).
  split; [exact Hheld|].
  destruct (withdrawEarnings_hands_over env id st (conj Hpos Hheld))
    as (asked & dirty & (_ & _ & Ht & Hb) & _ & Hrun).
  exists asked. split; [exact Ht|]. split; [exact Hb|].
  unfold transact, execute. cbn [receive_value]. rewrite Hrun.
  split; [|split].
  - intros Hacc. unfold reaction. rewrite Hacc. cbn [run_payee]. eauto.
  - destruct (reaction env asked) as [s|]; split.
    + eauto.
    + eauto.
    + intros [st' H]. discriminate H.
    + intros [s H]. discriminate H.
  - destruct (reaction env asked) as [s|]; split;
      intros H; first [discriminate H | reflexivity].
Qed.

(** X18. In every reachable state the funds for an unstake are there:
    the stake of a capsule never exceeds what the contract holds. When
    the caller has a stake record on its capsule, the lock has expired
    and 0 < amount <= [totalStake], the amount is sent and the caller's
    code runs on the ledger [asked]; the call succeeds exactly when that
    run does not revert, in particular when the code accepts at once,
    and fails with [TransferFailed], changing nothing, exactly when it
    does. *)
Theorem unstake_is_funded st env id amount :
  reachable st ->
  Capsule.exists_ (getCapsuleDetails st (msg_sender env) id) = true ->
  Staking.exists_ (getStakeDetails st (msg_sender env) id (msg_sender env)) = true ->
  0 < amount <= Capsule.totalStake (getCapsuleDetails st (msg_sender env) id) ->
  Staking.lockUntil (getStakeDetails st (msg_sender env) id (msg_sender env))
  <= block_timestamp env ->
  amount <= balance st
  /\ exists asked,
       transfers asked = transfers st ++ [(msg_sender env, amount)]
       /\ balance asked = balance st - amount
       /\ (payee env asked = Answer true ->
           exists st', transact env (Unstake id amount) st = (Success, st'))
       /\ ((exists st', transact env (Unstake id amount) st = (Success, st'))
           <-> exists s, reaction env asked = Some s)
       /\ (transact env (Unstake id amount) st = (Failure TransferFailed, st)
           <-> reaction env asked = None).
Proof.
  intros Hreach Hc Hs Ha Hl.
  assert (amount <= balance st) as Hheld.
  { pose proof (share_is_held st (derive_key (msg_sender env) id) Hreach).
    unfold getCapsuleDetails in Ha. lia. }
  split; [exact Hheld|].
  destruct (unstake_hands_over env id amount st Hc Hs Ha Hl Hheld)
    as (asked & dirty & (_ & _ & _ & Ht & Hb) & _ & Hrun).
  exists asked. split; [exact Ht|]. split; [exact Hb|].
  unfold transact, execute. cbn [receive_value]. rewrite Hrun.
  split; [|split].
  - intros Hacc. unfold reaction. rewrite Hacc. cbn [run_payee]. eauto.
  - destruct (reaction env asked) as [s|]; split.
    + eauto.
    + eauto.
    + intros [st' H]. discriminate H.
    + intros [s H]. discriminate H.
  - destruct (reaction env asked) as [s|]; split;
      intros H; first [discriminate H | reflexivity].
Qed.

(** *** The logs as books *)

Lemma books_balanced_step env call st :
  unlisted_blank st ->
  books_balanced st -> books_balanced (snd (transact env call st)).
Proof.
  intros Hblank (Hpaid & Hstaked & Hcount & Hevents).
  destruct (ledger_moves_together env call st Hblank)
    as (_ & _ & Hp & Hs & Hc & He).
  unfold books_balanced. repeat split; lia.
Qed.

Lemma books_balanced_reachable st : reachable st -> books_balanced st.
Proof.
  induction 1 as [|st tx Hreach IH _ _].
  - unfold books_balanced, total_earned, total_staked, total_queries,
      initial_state; simpl.
    rewrite !sum_over_empty. repeat split; reflexivity.
  - apply books_balanced_step; [apply unlisted_blank_reachable|]; assumption.
Qed.

(** X19. In every reachable state the amounts of the query log add up to
    the earnings still held plus the amounts of the withdrawal log:
    every payment credited is either still withdrawable or was paid out. *)
Theorem revenue_is_accounted st :
  reachable st ->
  sum_of CapsuleQueriedLog.amountPaid (capsuleQueriedHistory st)
  = total_earned st
    + sum_of EarningsWithdrawnLog.amount (earningsWithdrawnHistory st).
Proof. intros Hreach. apply (books_balanced_reachable st Hreach). Qed.

(** X20. In every reachable state the amounts of the stake log add up to
    the stakes still held plus the amounts of the unstake log. *)
Theorem stakes_are_accounted st :
  reachable st ->
  sum_of StakedOnCapsuleLog.amount (stakedOnCapsuleHistory st)
  = total_staked st
    + sum_of UnstakedFromCapsuleLog.amount (unstakedFromCapsuleHistory st).
Proof. intros Hreach. apply (books_balanced_reachable st Hreach). Qed.

(** X21. In every reachable state the query counts of all earnings
    records add up to the length of the query log (a count is never
    reset, not even by a withdrawal), and the number of events emitted
    is the total length of the seven history arrays: every successful
    call emits one event and appends one history entry. *)
Theorem logs_count_what_happened st :
  reachable st ->
  total_queries st = Z.of_nat (length (capsuleQueriedHistory st))
  /\ length (events st)
     = (length (agentRegisteredHistory st) + length (capsuleCreatedHistory st)
        + length (stakedOnCapsuleHistory st)
        + length (unstakedFromCapsuleHistory st)
        + length (priceUpdatedHistory st)
        + length (earningsWithdrawnHistory st)
        + length (capsuleQueriedHistory st))%nat.
Proof. intros Hreach. apply (books_balanced_reachable st Hreach). Qed.

(** *** What a call leaves alone *)

Lemma callbacks_impl (T T' : address -> uint256 -> Call -> Prop) now p :
  (forall sender call, T sender now call -> T' sender now call) ->
  callbacks T now p -> callbacks T' now p.
Proof.
  intros Himpl. induction 1; constructor; auto.
Qed.

Lemma other_keys_untouched env call st k :
  let elsewhere :=
    fun sender (_ : uint256) c =>
      k <> derive_key (keyed_owner sender c) (keyed_id c) in
  elsewhere (msg_sender env) (block_timestamp env) call ->
  (forall s, callbacks elsewhere (block_timestamp env) (payee env s)) ->
  same_records k st (snd (transact env call st)).
Proof.
  intros elsewhere. revert env call st.
  apply (transact_related elsewhere (same_records k)).
  - intros st. unfold same_records. auto.
  - unfold same_records. intros a b c (A1 & A2 & A3 & A4) (B1 & B2 & B3 & B4).
    repeat split; try congruence; intros x; rewrite B4; apply A4.
  - intros receive env call st Hne Hrec. subst elsewhere. cbv beta in Hne.
    unfold execute, same_records.
    destruct (body _ env call _) as [[] st'|e dirty] eqn:Hb; [|simpl; auto].
    destruct call; follow Hb; inversion Hb; subst; clear Hb; simpl in *.
    all: try (through_recipient Hrec; destruct R as (Ra & Rc & Re & Rs);
              state_simpl; rewrite ?Ra, ?Rc, ?Re).
    all: repeat split; try intros a; rewrite ?Rs; at_key; try reflexivity.
    all: repeat match goal with
                | H : (_, _) = (_, _) |- _ => inversion H; subst; clear H
                end.
    all: try congruence.
Qed.

Lemma other_lists_untouched env call st q :
  made_by_another q (msg_sender env) (block_timestamp env) call ->
  (forall s, callbacks (made_by_another q) (block_timestamp env) (payee env s)) ->
  same_lists q st (snd (transact env call st)).
Proof.
  revert env call st.
  apply (transact_related (made_by_another q) (same_lists q)).
  - intros st. unfold same_lists. auto.
  - unfold same_lists. intros a b c (A1 & A2) (B1 & B2). split; congruence.
  - intros receive env call st Hne Hrec. unfold made_by_another in Hne.
    unfold execute, same_lists.
    destruct (body _ env call _) as [[] st'|e dirty] eqn:Hb; [|simpl; auto].
    destruct call; follow Hb; inversion Hb; subst; clear Hb; simpl.
    all: try (through_recipient Hrec; destruct R as (Ra & Rc);
              state_simpl; rewrite ?Ra, ?Rc).
    all: split; at_key; try reflexivity; congruence.
Qed.

(** X22. A transaction changes the records of the pairs that its calls
    work on and no others. Let every call of the transaction, the one
    from outside and every call that a recipient's code can make back
    to the contract, work on another (owner, id) pair than (q, id): the
    pair of a call is the caller and the id it passes, for
    [queryCapsule] the creator it names. Then the agent, capsule,
    earnings and stake records of (q, id) are the same after the
    transaction, whether it succeeds or fails. Let every such call be
    made by another address than q: then the id lists of q are the
    same. *)
Theorem other_records_untouched {collision_free : CollisionFree hash}
        env call st q id :
  address_ok q = true ->
  let st' := snd (transact env call st) in
  (works_elsewhere q id (msg_sender env) (block_timestamp env) call ->
   (forall s, callbacks (works_elsewhere q id) (block_timestamp env)
                        (payee env s)) ->
   getAgentDetails st' q id = getAgentDetails st q id
   /\ getCapsuleDetails st' q id = getCapsuleDetails st q id
   /\ getEarnings st' q id = getEarnings st q id
   /\ (forall staker,
         getStakeDetails st' q id staker = getStakeDetails st q id staker))
  /\ (made_by_another q (msg_sender env) (block_timestamp env) call ->
      (forall s, callbacks (made_by_another q) (block_timestamp env)
                           (payee env s)) ->
      getAgentsByOwner st' q = getAgentsByOwner st q
      /\ getCapsulesByOwner st' q = getCapsulesByOwner st q).
Proof.
  intros Hq st'. subst st'. split.
  - intros Hcall Hcalls.
    assert (forall sender now c,
              works_elsewhere q id sender now c ->
              derive_key q id <> derive_key (keyed_owner sender c) (keyed_id c))
      as Hkey.
    { intros sender now c [Ho Hne] Heq.
      apply derive_key_inj in Heq as [-> ->]; auto. }
    apply (other_keys_untouched env call st (derive_key q id)).
    + eapply Hkey. exact Hcall.
    + intros s. eapply callbacks_impl; [|apply Hcalls].
      intros sender c. apply Hkey.
  - intros Hcall Hcalls. apply (other_lists_untouched env call st q); assumption.
Qed.

(** *** Records and logs are never taken back *)

Lemma logs_extend_refl st : logs_extend st st.
Proof. unfold logs_extend. repeat split; reflexivity. Qed.

Lemma logs_extend_trans st1 st2 st3 :
  logs_extend st1 st2 -> logs_extend st2 st3 -> logs_extend st1 st3.
Proof.
  unfold logs_extend.
  intros (A1 & A2 & A3 & A4 & A5 & A6 & A7 & A8 & A9 & A10 & A11)
         (B1 & B2 & B3 & B4 & B5 & B6 & B7 & B8 & B9 & B10 & B11).
  repeat match goal with |- _ /\ _ => split end.
  all: try (etransitivity; eassumption).
  - intros a. etransitivity; [apply A10 | apply B10].
  - intros a. etransitivity; [apply A11 | apply B11].
Qed.

Lemma logs_extend_step env call st :
  logs_extend st (snd (transact env call st)).
Proof.
  revert env call st.
  apply (transact_related_always logs_extend logs_extend_refl logs_extend_trans).
  intros receive env call st Hrec. unfold execute.
  destruct (body _ env call _) as [[] st'|e dirty] eqn:Hb;
    [|apply logs_extend_refl].
  destruct call; follow Hb; inversion Hb; subst; clear Hb; simpl.
  all: try (apply Hrec in R;
            eapply logs_extend_trans; [|eapply logs_extend_trans; [exact R|]];
            clear R).
  all: unfold logs_extend.
  all: repeat match goal with |- _ /\ _ => split end.
  all: try intros a; at_key.
  all: try reflexivity.
  all: try (apply prefix_app_r; reflexivity).
  all: try (destruct (_ =? _); [rewrite app_nil_r; reflexivity
                               | apply prefix_app_r; reflexivity]).
Qed.

Lemma logs_extend_run txs st : logs_extend st (run txs st).
Proof.
  revert st. induction txs as [|tx txs IH]; intros st;
    [apply logs_extend_refl|].
  unfold run in *. simpl.
  eapply logs_extend_trans; [|apply IH]. apply logs_extend_step.
Qed.

(** X23. The contract only appends: after any sequence of transactions
    each of the seven history arrays, the event and transfer logs and
    every owner's id lists start with what they held before. No entry is
    ever removed or rewritten. *)
Theorem histories_only_grow txs st : logs_extend st (run txs st).
Proof. apply logs_extend_run. Qed.

Lemma records_kept_refl k st : records_kept k st st.
Proof. unfold records_kept. split; intros; repeat split; auto. Qed.

Lemma records_kept_trans k st1 st2 st3 :
  records_kept k st1 st2 -> records_kept k st2 st3 -> records_kept k st1 st3.
Proof.
  unfold records_kept. intros [Ac As] [Bc Bs]. split.
  - intros Hex. destruct (Ac Hex) as (H0 & H1 & H2 & H3 & H4 & H5 & H6).
    destruct (Bc H0) as (I0 & I1 & I2 & I3 & I4 & I5 & I6).
    repeat split; congruence.
  - intros a Hex. destruct (As a Hex) as (H0 & H1).
    destruct (Bs a H0) as (I0 & I1). split; congruence.
Qed.

Lemma records_persist_step env call st k :
  records_kept k st (snd (transact env call st)).
Proof.
  revert env call st.
  apply (transact_related_always (records_kept k) (records_kept_refl k)
           (records_kept_trans k)).
  intros receive env call st Hrec. unfold execute.
  destruct (body _ env call _) as [[] st'|e dirty] eqn:Hb;
    [|apply records_kept_refl].
  destruct call; follow Hb; inversion Hb; subst; clear Hb; simpl.
  all: try (apply Hrec in R;
            eapply records_kept_trans;
            [|eapply records_kept_trans; [exact R|]]; clear R).
  all: unfold records_kept.
  all: split; [intros Hex | intros a Hex].
  all: revert Hex; at_key; intros Hex; repeat split; auto.
  all: to_prop; try congruence.
Qed.

Lemma records_persist_run txs st k : records_kept k st (run txs st).
Proof.
  revert st. induction txs as [|tx txs IH]; intros st;
    [apply records_kept_refl|].
  unfold run in *. simpl.
  eapply records_kept_trans; [|apply IH]. apply records_persist_step.
Qed.

(** X24. No function deletes or renames a record. Once a capsule exists
    it exists after any sequence of transactions, with the creator, id,
    name, description, category and creation time it was created with
    (only price, stake, earnings and [updatedAt] can change); once a
    stake record exists it stays, with its first [stakedAt], even when
    everything has been unstaked. *)
Theorem records_are_permanent txs st q id :
  let c := getCapsuleDetails st q id in
  let c' := getCapsuleDetails (run txs st) q id in
  (Capsule.exists_ c = true ->
   Capsule.exists_ c' = true
   /\ Capsule.creator c' = Capsule.creator c
   /\ Capsule.capsuleId c' = Capsule.capsuleId c
   /\ Capsule.name c' = Capsule.name c
   /\ Capsule.description c' = Capsule.description c
   /\ Capsule.category c' = Capsule.category c
   /\ Capsule.createdAt c' = Capsule.createdAt c)
  /\ (forall staker,
        Staking.exists_ (getStakeDetails st q id staker) = true ->
        Staking.exists_ (getStakeDetails (run txs st) q id staker) = true
        /\ Staking.stakedAt (getStakeDetails (run txs st) q id staker)
           = Staking.stakedAt (getStakeDetails st q id staker)).
Proof.
  intros c c'. subst c c'. unfold getCapsuleDetails, getStakeDetails.
  apply (records_persist_run txs st (derive_key q id)).
Qed.

(** X25. [queryCapsule] is open to every caller and refuses, in this
    order: a capsule that does not exist at the key of the creator named
    ([CapsuleNotFound], whatever is paid); a payment under the price
    (claim C1); and, with the price covered, a counter that would pass
    2^256 - 1 (Panic 17 of the checked additions). Each refusal leaves
    the state as it was. *)
Theorem queryCapsule_refusals env creator id V st :
  let c := getCapsuleDetails st creator id in
  let r := getEarnings st creator id in
  (Capsule.exists_ c = false ->
   transact env (QueryCapsule creator id V) st = (Failure CapsuleNotFound, st))
  /\ (Capsule.exists_ c = true ->
      Capsule.price c <= V ->
      MAX_UINT256 < Capsule.earnings c + Capsule.price c
      \/ MAX_UINT256 < Earnings.totalEarnings r + Capsule.price c
      \/ MAX_UINT256 < Earnings.queryCount r + 1 ->
      transact env (QueryCapsule creator id V) st = (Failure (Panic 17), st)).
Proof.
  intros c r. subst c r. unfold getCapsuleDetails, getEarnings. split.
  - intros Hnone. by_cases_on_outcome; to_prop; try lia; congruence.
  - intros Hex Hpaid Hover.
    by_cases_on_outcome; to_prop; try lia; try congruence.
Qed.

(** *** The packed encoding behind the keys *)

Lemma be_bytes_length n : forall a s,
  String.length (be_bytes n a s) = (n + String.length s)%nat.
Proof.
  induction n as [|n IH]; intros a s; [reflexivity|].
  cbn [be_bytes]. rewrite IH. simpl. lia.
Qed.

(** X26. The packed encoding of an address and an id is the 20 bytes of
    the address followed by the bytes of the id: it is 20 bytes longer
    than the id, and two encodings of addresses below 2^160 are equal
    only when the addresses and the ids are; under a collision-free
    hash the same holds for the derived keys, so two pairs share a key
    exactly when they are the same pair. *)
Theorem packed_keys_are_unambiguous {collision_free : CollisionFree hash}
        a b s t :
  address_ok a = true -> address_ok b = true ->
  bytes_length (abi_encodePacked a s) = 20 + bytes_length s
  /\ (abi_encodePacked a s = abi_encodePacked b t <-> a = b /\ s = t)
  /\ (derive_key a s = derive_key b t <-> a = b /\ s = t).
Proof.
  intros Ha Hb. split; [|split].
  - unfold bytes_length, abi_encodePacked. rewrite be_bytes_length. lia.
  - split; [apply abi_encodePacked_inj; assumption | intros [-> ->]; reflexivity].
  - split; [apply derive_key_inj; assumption | intros [-> ->]; reflexivity].
Qed.

(** *** The base URL of the API client *)

Lemma append_length (s t : string) :
  String.length (String.append s t) = (String.length s + String.length t)%nat.
Proof. induction s as [|a s IH]; simpl; [reflexivity | rewrite IH; reflexivity]. Qed.

(** X27. [normalizeUrl] returns a URL that starts with one of the two
    protocols, whatever it is given; it returns its argument as it is
    exactly when that already starts with one of them, and otherwise
    puts the seven characters of the http protocol in front; applying it
    twice is the same as applying it once. The test is case-sensitive. *)
Theorem normalizeUrl_adds_protocol_once url :
  let has_protocol u :=
    ApiClient.startsWith u "http://" || ApiClient.startsWith u "https://" in
  has_protocol (ApiClient.normalizeUrl url) = true
  /\ (ApiClient.normalizeUrl url = url <-> has_protocol url = true)
  /\ (has_protocol url = false ->
      ApiClient.normalizeUrl url = String.append "http://" url)
  /\ ApiClient.normalizeUrl (ApiClient.normalizeUrl url)
     = ApiClient.normalizeUrl url
  /\ ApiClient.normalizeUrl "HTTP://host" = "http://HTTP://host".
Proof.
  intros has_protocol. subst has_protocol. cbv beta.
  assert (forall u, ApiClient.startsWith (String.append "http://" u) "http://"
                    = true) as Hput.
  { intros u. unfold ApiClient.startsWith. destruct u; reflexivity. }
  unfold ApiClient.normalizeUrl.
  destruct (ApiClient.startsWith url "http://") eqn:H1;
    destruct (ApiClient.startsWith url "https://") eqn:H2;
    cbn [negb andb orb].
  all: rewrite ?H1, ?H2, ?Hput; cbn [negb andb orb].
  all: repeat split; auto; try discriminate.
  intros Heq. apply (f_equal String.length) in Heq.
  rewrite append_length in Heq. simpl in Heq. lia.
Qed.

End Properties.

(** ** The scenario, run *)

#[local] Existing Instance Scenario.hash.

(* Decide a closed statement about the scenario by running the contract. *)
Ltac by_running :=
  vm_compute; repeat split;
  first [reflexivity | let H := fresh in intro H; discriminate H].

Lemma stake_resets_lock_witness :
  Staking.lockUntil
    (getStakeDetails Scenario.staked Scenario.alice "cap1" Scenario.alice)
  = Scenario.t_stake + 604800.
Proof.
  apply (stake_resets_lock (Scenario.at_time Scenario.alice Scenario.t_stake)
           "cap1" (10 ^ 17) Scenario.listed Scenario.staked).
  vm_compute. reflexivity.
Defined.

(** C9. The field [stakedAt] is documented as the time of the last stake
    addition, but a top-up leaves it alone: alice stakes at 2000 and tops
    up at 5000; the top-up succeeds and resets the lock, and [stakedAt]
    still reads 2000. *)
Theorem topup_keeps_first_stakedAt :
  let topup := transact (Scenario.at_time Scenario.alice 5000)
                        (Stake "cap1" (10 ^ 17)) Scenario.staked in
  let record := getStakeDetails (snd topup) Scenario.alice "cap1" Scenario.alice in
  fst topup = Success
  /\ Staking.lockUntil record = 5000 + 604800
  /\ Staking.stakedAt record = 2000
  /\ Staking.stakedAt record <> 5000.
Proof. vm_compute. repeat split; discriminate. Qed.


Lemma queryCapsule_settlement_witness :
  (exists st',
     transact (Scenario.at_time Scenario.bob 3000)
              (QueryCapsule Scenario.alice "cap1" (10 ^ 17)) Scenario.staked
     = (Success, st')
     /\ balance st' = balance Scenario.staked + 5 * 10 ^ 16)
  /\ transact (Scenario.refusing Scenario.bob 3000)
              (QueryCapsule Scenario.alice "cap1" (10 ^ 17)) Scenario.staked
     = (Failure TransferFailed, Scenario.staked)
  /\ transact (Scenario.at_time Scenario.bob 3000)
              (QueryCapsule Scenario.alice "cap1" (10 ^ 16)) Scenario.staked
     = (Failure InsufficientPayment, Scenario.staked).
Proof.
  split; [|split].
  - destruct (queryCapsule_settlement (Scenario.at_time Scenario.bob 3000)
                Scenario.alice "cap1" (10 ^ 17) Scenario.staked)
      as [_ Hpaid]; [by_running ..|].
    destruct Hpaid as (credited & _ & Hok & _); [by_running ..|].
    destruct Hok as (st' & Htx & _ & _ & _ & _ & Hbal);
      [right; reflexivity|].
    exists st'. split; [exact Htx|]. rewrite Hbal. reflexivity.
  - destruct (queryCapsule_settlement (Scenario.refusing Scenario.bob 3000)
                Scenario.alice "cap1" (10 ^ 17) Scenario.staked)
      as [_ Hpaid]; [by_running ..|].
    destruct Hpaid as (credited & _ & _ & Hrefused & _); [by_running ..|].
    apply Hrefused; [by_running | reflexivity].
  - destruct (queryCapsule_settlement (Scenario.at_time Scenario.bob 3000)
                Scenario.alice "cap1" (10 ^ 16) Scenario.staked)
      as [Hshort _]; [by_running ..|].
    apply Hshort. by_running.
Defined.

(** C1 as stated fails, in two ways. Bob pays 0.1 ether for alice's
    capsule priced at 0.05 ether, so V >= P, but bob's code refuses the
    refund of the excess and the call fails with [TransferFailed]. And
    when bob's code, sent the excess, pays 0.05 ether for one more query
    before it accepts, the call succeeds and [totalEarnings] has grown
    by twice the price. *)
Lemma queryCapsule_overpayment_can_fail :
  ~ (forall (hash : Keccak256) env creator id V st,
       Capsule.exists_ (getCapsuleDetails st creator id) = true ->
       Capsule.price (getCapsuleDetails st creator id) <= V ->
       fst (transact env (QueryCapsule creator id V) st) = Success)
  /\ ~ (forall (hash : Keccak256) env creator id V st st',
          Capsule.exists_ (getCapsuleDetails st creator id) = true ->
          Capsule.price (getCapsuleDetails st creator id) <= V ->
          transact env (QueryCapsule creator id V) st = (Success, st') ->
          Earnings.totalEarnings (getEarnings st' creator id)
          = Earnings.totalEarnings (getEarnings st creator id)
            + Capsule.price (getCapsuleDetails st creator id)).
Proof.
  split.
  - intros claim.
    specialize (claim Scenario.hash (Scenario.refusing Scenario.bob 3000)
                  Scenario.alice "cap1" (10 ^ 17) Scenario.staked).
    assert (fst (transact (Scenario.refusing Scenario.bob 3000)
                   (QueryCapsule Scenario.alice "cap1" (10 ^ 17)) Scenario.staked)
            = Failure TransferFailed) as Hrun by by_running.
    rewrite Hrun in claim.
    discriminate claim; by_running.
  - intros claim.
    specialize (claim Scenario.hash
                  (Scenario.calling_back Scenario.bob 3000
                     (QueryCapsule Scenario.alice "cap1" (5 * 10 ^ 16)))
                  Scenario.alice "cap1" (10 ^ 17) Scenario.staked
                  (snd (transact
                          (Scenario.calling_back Scenario.bob 3000
                             (QueryCapsule Scenario.alice "cap1" (5 * 10 ^ 16)))
                          (QueryCapsule Scenario.alice "cap1" (10 ^ 17))
                          Scenario.staked))).
    assert (Earnings.totalEarnings
              (getEarnings
                 (snd (transact
                         (Scenario.calling_back Scenario.bob 3000
                            (QueryCapsule Scenario.alice "cap1" (5 * 10 ^ 16)))
                         (QueryCapsule Scenario.alice "cap1" (10 ^ 17))
                         Scenario.staked))
                 Scenario.alice "cap1")
            = Earnings.totalEarnings
                (getEarnings Scenario.staked Scenario.alice "cap1")
              + Capsule.price
                  (getCapsuleDetails Scenario.staked Scenario.alice "cap1"))
      as Hexact by (apply claim; by_running).
    vm_compute in Hexact. discriminate Hexact.
Qed.

Lemma withdrawEarnings_pays_once_witness :
  (exists st',
     transact (Scenario.at_time Scenario.alice 4000) (WithdrawEarnings "cap1")
              Scenario.queried = (Success, st')
     /\ transfers st' = transfers Scenario.queried ++ [(Scenario.alice, 5 * 10 ^ 16)]
     /\ transact (Scenario.at_time Scenario.alice 4001) (WithdrawEarnings "cap1") st'
        = (Failure InsufficientPayment, st'))
  /\ transact (Scenario.refusing Scenario.alice 4000) (WithdrawEarnings "cap1")
              Scenario.queried
     = (Failure TransferFailed, Scenario.queried).
Proof.
  split.
  - destruct (withdrawEarnings_pays_once (Scenario.at_time Scenario.alice 4000)
                "cap1" Scenario.queried) as (_ & Hheld); [by_running|].
    destruct Hheld as (asked & _ & _ & Haccepted & _); [by_running|].
    destruct Haccepted as (st' & Htx & Ht & _ & _ & _ & Hagain); [reflexivity|].
    exists st'. split; [exact Htx|]. split.
    + rewrite Ht. f_equal.
    + apply Hagain. reflexivity.
  - destruct (withdrawEarnings_pays_once (Scenario.refusing Scenario.alice 4000)
                "cap1" Scenario.queried) as (_ & Hheld); [by_running|].
    destruct Hheld as (asked & _ & _ & _ & Hrefused & _); [by_running|].
    destruct Hrefused as [Htx _]; [reflexivity|].
    exact Htx.
Defined.

(** C2 as stated fails: alice withdraws the 0.05 ether her capsule has
    earned; her code, when it is sent the amount, pays 0.05 ether for a
    query of her own capsule and then accepts. The withdrawal succeeds,
    and when it ends [totalEarnings] and [Capsule.earnings] hold the
    price of that query, not zero. *)
Lemma withdrawEarnings_credited_meanwhile :
  ~ (forall (hash : Keccak256) env id st st',
       0 < Earnings.totalEarnings (getEarnings st (msg_sender env) id) ->
       transact env (WithdrawEarnings id) st = (Success, st') ->
       Earnings.totalEarnings (getEarnings st' (msg_sender env) id) = 0
       /\ Capsule.earnings (getCapsuleDetails st' (msg_sender env) id) = 0
       /\ fst (transact env (WithdrawEarnings id) st')
          = Failure InsufficientPayment).
Proof.
  intros claim.
  specialize (claim Scenario.hash
                (Scenario.calling_back Scenario.alice 4000
                   (QueryCapsule Scenario.alice "cap1" (5 * 10 ^ 16)))
                "cap1" Scenario.queried
                (snd (transact
                        (Scenario.calling_back Scenario.alice 4000
                           (QueryCapsule Scenario.alice "cap1" (5 * 10 ^ 16)))
                        (WithdrawEarnings "cap1") Scenario.queried))).
  destruct claim as [Hzero _]; [by_running | by_running |].
  vm_compute in Hzero. discriminate Hzero.
Qed.

Lemma failure_is_atomic_witness :
  snd (transact (Scenario.at_time Scenario.bob 3000) (Stake "cap1" (10 ^ 17))
                Scenario.staked) = Scenario.staked
  /\ snd (transact (Scenario.reverting_after Scenario.alice Scenario.t_unlock
                      (Stake "cap1" (10 ^ 17)))
                   (Unstake "cap1" (10 ^ 16)) Scenario.staked)
     = Scenario.staked
  /\ transact (Scenario.refusing Scenario.alice Scenario.t_unlock)
              (Unstake "cap1" (10 ^ 16)) Scenario.staked
     = (Failure TransferFailed, Scenario.staked).
Proof.
  split; [|split].
  - destruct (proj1 failure_is_atomic (Scenario.at_time Scenario.bob 3000)
                (Stake "cap1" (10 ^ 17)) Scenario.staked CapsuleNotFound
                (snd (transact (Scenario.at_time Scenario.bob 3000)
                        (Stake "cap1" (10 ^ 17)) Scenario.staked)))
      as [Hsame _]; [by_running|].
    exact Hsame.
  - destruct (proj1 failure_is_atomic
                (Scenario.reverting_after Scenario.alice Scenario.t_unlock
                   (Stake "cap1" (10 ^ 17)))
                (Unstake "cap1" (10 ^ 16)) Scenario.staked TransferFailed
                (snd (transact
                        (Scenario.reverting_after Scenario.alice Scenario.t_unlock
                           (Stake "cap1" (10 ^ 17)))
                        (Unstake "cap1" (10 ^ 16)) Scenario.staked)))
      as [Hsame _]; [by_running|].
    exact Hsame.
  - destruct (proj2 (proj2 failure_is_atomic)
                (Scenario.refusing Scenario.alice Scenario.t_unlock)
                "cap1" (10 ^ 16) Scenario.staked)
      as (asked & _ & Hfail); [by_running ..|].
    destruct Hfail as [Htx _]; [right; reflexivity|].
    exact Htx.
Defined.

Lemma unstake_gating_witness :
  transact (Scenario.at_time Scenario.alice (Scenario.t_stake + 1000))
           (Unstake "cap1" (10 ^ 16)) Scenario.staked
  = (Failure StakeLocked, Scenario.staked)
  /\ (exists st',
        transact (Scenario.at_time Scenario.alice Scenario.t_unlock)
                 (Unstake "cap1" (10 ^ 16)) Scenario.staked = (Success, st')
        /\ getStakeDetails st' Scenario.alice "cap1" Scenario.alice
           = getStakeDetails Scenario.staked Scenario.alice "cap1" Scenario.alice)
  /\ transact (Scenario.refusing Scenario.alice Scenario.t_unlock)
              (Unstake "cap1" (10 ^ 16)) Scenario.staked
     = (Failure TransferFailed, Scenario.staked).
Proof.
  assert (0 < 10 ^ 16
          <= Capsule.totalStake
               (getCapsuleDetails Scenario.staked Scenario.alice "cap1")) as Hamount
    by by_running.
  split; [|split].
  - destruct (unstake_gating (Scenario.at_time Scenario.alice (Scenario.t_stake + 1000))
                "cap1" (10 ^ 16) Scenario.staked) as [Hlocked _];
      [by_running | by_running | exact Hamount |].
    apply Hlocked. by_running.
  - destruct (unstake_gating (Scenario.at_time Scenario.alice Scenario.t_unlock)
                "cap1" (10 ^ 16) Scenario.staked) as [_ Hopen];
      [by_running | by_running | exact Hamount |].
    destruct Hopen as [_ Hheld]; [by_running|].
    destruct Hheld as (asked & _ & Haccepted & _); [by_running|].
    destruct Haccepted as (st' & Htx & _ & _ & Hrecord & _); [reflexivity|].
    exists st'. split; [exact Htx | exact Hrecord].
  - destruct (unstake_gating (Scenario.refusing Scenario.alice Scenario.t_unlock)
                "cap1" (10 ^ 16) Scenario.staked) as [_ Hopen];
      [by_running | by_running | exact Hamount |].
    destruct Hopen as [_ Hheld]; [by_running|].
    destruct Hheld as (asked & _ & _ & Hrefused & _); [by_running|].
    apply Hrefused. reflexivity.
Defined.

(** C6 as stated fails, in two ways. The lock on alice's stake has
    expired and she asks for part of it, but her code refuses the
    transfer and the call fails with [TransferFailed]. And when her
    code, sent 0.04 ether, asks for 0.04 ether once more before it
    accepts, the call succeeds and [totalStake] is lower by twice the
    amount. *)
Lemma unstake_after_lock_can_fail :
  ~ (forall (hash : Keccak256) env id amount st,
       Capsule.exists_ (getCapsuleDetails st (msg_sender env) id) = true ->
       Staking.exists_ (getStakeDetails st (msg_sender env) id (msg_sender env))
       = true ->
       0 < amount <= Capsule.totalStake (getCapsuleDetails st (msg_sender env) id) ->
       Staking.lockUntil (getStakeDetails st (msg_sender env) id (msg_sender env))
       <= block_timestamp env ->
       fst (transact env (Unstake id amount) st) = Success)
  /\ ~ (forall (hash : Keccak256) env id amount st st',
          Capsule.exists_ (getCapsuleDetails st (msg_sender env) id) = true ->
          Staking.exists_
            (getStakeDetails st (msg_sender env) id (msg_sender env)) = true ->
          0 < amount
          <= Capsule.totalStake (getCapsuleDetails st (msg_sender env) id) ->
          Staking.lockUntil
            (getStakeDetails st (msg_sender env) id (msg_sender env))
          <= block_timestamp env ->
          transact env (Unstake id amount) st = (Success, st') ->
          Capsule.totalStake (getCapsuleDetails st' (msg_sender env) id)
          = Capsule.totalStake (getCapsuleDetails st (msg_sender env) id)
            - amount).
Proof.
  split.
  - intros claim.
    specialize (claim Scenario.hash
                  (Scenario.refusing Scenario.alice Scenario.t_unlock)
                  "cap1" (10 ^ 16) Scenario.staked).
    assert (fst (transact (Scenario.refusing Scenario.alice Scenario.t_unlock)
                   (Unstake "cap1" (10 ^ 16)) Scenario.staked)
            = Failure TransferFailed) as Hrun by by_running.
    rewrite Hrun in claim.
    discriminate claim; by_running.
  - intros claim.
    specialize (claim Scenario.hash
                  (Scenario.calling_back Scenario.alice Scenario.t_unlock
                     (Unstake "cap1" (4 * 10 ^ 16)))
                  "cap1" (4 * 10 ^ 16) Scenario.staked
                  (snd (transact
                          (Scenario.calling_back Scenario.alice Scenario.t_unlock
                             (Unstake "cap1" (4 * 10 ^ 16)))
                          (Unstake "cap1" (4 * 10 ^ 16)) Scenario.staked))).
    assert (Capsule.totalStake
              (getCapsuleDetails
                 (snd (transact
                         (Scenario.calling_back Scenario.alice Scenario.t_unlock
                            (Unstake "cap1" (4 * 10 ^ 16)))
                         (Unstake "cap1" (4 * 10 ^ 16)) Scenario.staked))
                 (msg_sender
                    (Scenario.calling_back Scenario.alice Scenario.t_unlock
                       (Unstake "cap1" (4 * 10 ^ 16))))
                 "cap1")
            = Capsule.totalStake
                (getCapsuleDetails Scenario.staked
                   (msg_sender
                      (Scenario.calling_back Scenario.alice Scenario.t_unlock
                         (Unstake "cap1" (4 * 10 ^ 16))))
                   "cap1")
              - 4 * 10 ^ 16)
      as Hexact by (apply claim; by_running).
    vm_compute in Hexact. discriminate Hexact.
Qed.

(** ** Calls made back to the contract, run

    The contract has no reentrancy guard. Alice's stake of 0.1 ether is
    unlocked; she asks for 0.04 ether, and her code, when it is sent the
    amount, asks for 0.04 ether once more before it accepts: the one
    transaction lowers [totalStake] by 0.08 ether and sends two
    transfers. Bob pays 0.1 ether for a query priced 0.05 ether, and his
    code, when it is sent the excess, pays for one more query: the one
    transaction credits the price twice and counts two queries. In both
    runs the contract still holds what it owes. *)

Lemma unstake_called_back :
  let env := Scenario.calling_back Scenario.alice Scenario.t_unlock
                                   (Unstake "cap1" (4 * 10 ^ 16)) in
  let after := transact env (Unstake "cap1" (4 * 10 ^ 16)) Scenario.staked in
  fst after = Success
  /\ Capsule.totalStake (getCapsuleDetails (snd after) Scenario.alice "cap1")
     = Capsule.totalStake (getCapsuleDetails Scenario.staked Scenario.alice "cap1")
       - 8 * 10 ^ 16
  /\ transfers (snd after)
     = transfers Scenario.staked
       ++ [(Scenario.alice, 4 * 10 ^ 16); (Scenario.alice, 4 * 10 ^ 16)]
  /\ balance (snd after) = total_staked (snd after) + total_earned (snd after).
Proof. vm_compute. repeat split; reflexivity. Qed.

Lemma queryCapsule_called_back :
  let env := Scenario.calling_back Scenario.bob 3000
               (QueryCapsule Scenario.alice "cap1" (5 * 10 ^ 16)) in
  let after := transact env (QueryCapsule Scenario.alice "cap1" (10 ^ 17))
                        Scenario.staked in
  fst after = Success
  /\ Earnings.totalEarnings (getEarnings (snd after) Scenario.alice "cap1")
     = 2 * (5 * 10 ^ 16)
  /\ Earnings.queryCount (getEarnings (snd after) Scenario.alice "cap1") = 2
  /\ balance (snd after) = total_staked (snd after) + total_earned (snd after).
Proof. vm_compute. repeat split; reflexivity. Qed.

Lemma scenario_hash_collision_free : CollisionFree Scenario.hash.
Proof.
  intros x y Heq. unfold keccak256, Scenario.hash in Heq.
  injection Heq as Heq. apply (inj encode) in Heq. exact Heq.
Qed.

Lemma scenario_reachable :
  reachable Scenario.staked /\ reachable Scenario.queried.
Proof.
  assert (reachable Scenario.staked) as Hstaked.
  { unfold Scenario.staked, Scenario.listed, Scenario.registered.
    repeat (apply reachable_step; [|by_running|intros s; constructor]).
    apply reachable_initial. }
  split; [exact Hstaked|].
  unfold Scenario.queried.
  apply reachable_step; [exact Hstaked | by_running | intros s; constructor].
Qed.

(** C4 as stated fails: bob, who is not the creator of alice's capsule
    "cap1", stakes 0.1 ether naming "cap1"; the key is derived from bob,
    no capsule is found there, and the call fails with [CapsuleNotFound],
    not with [Unauthorized]. *)
Lemma stake_by_stranger_not_unauthorized :
  ~ (forall (hash : Keccak256) env id v q st,
       Capsule.exists_ (getCapsuleDetails st q id) = true ->
       Capsule.creator (getCapsuleDetails st q id) = q ->
       q <> msg_sender env ->
       fst (transact env (Stake id v) st) = Failure Unauthorized).
Proof.
  intros claim.
  specialize (claim Scenario.hash (Scenario.at_time Scenario.bob 3000)
                "cap1" (10 ^ 17) Scenario.alice Scenario.staked).
  assert (fst (transact (Scenario.at_time Scenario.bob 3000)
                 (Stake "cap1" (10 ^ 17)) Scenario.staked)
          = Failure CapsuleNotFound) as Hrun by by_running.
  rewrite Hrun in claim.
  discriminate claim; by_running.
Qed.

Lemma stake_by_non_creator_witness :
  fst (transact (Scenario.at_time Scenario.bob 3000) (Stake "cap1" (10 ^ 17))
                Scenario.staked) <> Failure Unauthorized
  /\ transact (Scenario.at_time Scenario.bob 3000) (Stake "cap1" (10 ^ 17))
              Scenario.staked
     = (Failure CapsuleNotFound, Scenario.staked).
Proof.
  destruct (stake_by_non_creator (collision_free := scenario_hash_collision_free)
              Scenario.staked (Scenario.at_time Scenario.bob 3000) "cap1" (10 ^ 17)
              Scenario.alice) as (Hnot & _ & _ & Hfail & _);
    [exact (proj1 scenario_reachable) | by_running ..|].
  split; [exact Hnot|]. apply Hfail; by_running.
Defined.

Lemma registration_is_unique_witness :
  (exists e,
     transact (Scenario.at_time Scenario.alice 9000)
              (RegisterAgent "agent1" "Other" "Other" "anthropic")
              (run [Scenario.create_capsule; Scenario.stake_capsule]
                   Scenario.registered)
     = (Failure e,
        run [Scenario.create_capsule; Scenario.stake_capsule] Scenario.registered))
  /\ (exists e,
        transact (Scenario.at_time Scenario.alice 9000)
                 (CreateCapsule "cap1" "Other" "other" "finance" (10 ^ 15))
                 (run [Scenario.stake_capsule; Scenario.query_capsule]
                      Scenario.listed)
        = (Failure e,
           run [Scenario.stake_capsule; Scenario.query_capsule] Scenario.listed)).
Proof.
  split.
  - apply (proj1 registration_is_unique
             (Scenario.at_time Scenario.alice Scenario.t_create)
             "agent1" "Agent" "Agent One" "openai" initial_state Scenario.registered);
      [by_running | reflexivity].
  - apply (proj2 registration_is_unique
             (Scenario.at_time Scenario.alice Scenario.t_create)
             "cap1" "Capsule" "notes" "coding" (5 * 10 ^ 16)
             Scenario.registered Scenario.listed);
      [by_running | reflexivity].
Defined.

Lemma earnings_in_lockstep_witness :
  earnings_mirrored Scenario.staked
  /\ earnings_pair Scenario.queried (derive_key Scenario.alice "cap1")
     = expected_earnings (Scenario.at_time Scenario.bob 3000)
         (QueryCapsule Scenario.alice "cap1" (10 ^ 17)) Scenario.staked
         (derive_key Scenario.alice "cap1")
  /\ (exists st',
        transact (Scenario.at_time Scenario.alice 4000) (WithdrawEarnings "cap1")
                 Scenario.queried = (Success, st')
        /\ earnings_pair st' (derive_key Scenario.alice "cap1") = (0, 0)).
Proof.
  destruct (earnings_in_lockstep Scenario.staked (proj1 scenario_reachable))
    as (Hmirror & Hstep & _).
  split; [exact Hmirror|]. split.
  - apply Hstep; [intros s; exists true; reflexivity | by_running].
  - destruct (earnings_in_lockstep Scenario.queried (proj2 scenario_reachable))
      as (_ & _ & _ & Hwithdraw).
    destruct (Hwithdraw (Scenario.at_time Scenario.alice 4000) "cap1")
      as (asked & _ & _ & Haccepted); [by_running|].
    apply Haccepted. reflexivity.
Defined.

Lemma creator_is_key_owner_witness :
  Capsule.creator (getCapsuleDetails Scenario.staked Scenario.alice "cap1")
  = Scenario.alice
  /\ fst (transact (Scenario.at_time Scenario.bob 3000)
                   (UpdateCapsulePrice "cap1" (10 ^ 15)) Scenario.staked)
     <> Failure Unauthorized
  /\ transact (Scenario.at_time Scenario.bob 3000)
              (UpdateCapsulePrice "cap1" (10 ^ 15)) Scenario.staked
     = (Failure CapsuleNotFound, Scenario.staked).
Proof.
  destruct (creator_is_key_owner (collision_free := scenario_hash_collision_free)
              Scenario.staked (proj1 scenario_reachable))
    as (Hown & Hnever & Hmissing & _).
  split; [|split].
  - destruct (Hown Scenario.alice "cap1") as [Hcapsule _]; [by_running|].
    apply Hcapsule. by_running.
  - apply (Hnever (Scenario.at_time Scenario.bob 3000)
             (UpdateCapsulePrice "cap1" (10 ^ 15))).
    by_running.
  - destruct (Hmissing (Scenario.at_time Scenario.bob 3000) "cap1")
      as [_ Hprice]; [by_running ..|].
    apply Hprice. by_running.
Defined.


(** ** The further properties, on the scenario *)

Lemma registerAgent_outcome_witness :
  transact (Scenario.at_time Scenario.bob 5000)
           (RegisterAgent "agent1" "" "Agent One" "openai") Scenario.staked
  = (Failure EmptyString, Scenario.staked)
  /\ transact (Scenario.at_time Scenario.alice 5000)
              (RegisterAgent "agent1" "Other" "Other" "anthropic") Scenario.staked
     = (Failure (RequireFailed "Agent already exists"), Scenario.staked)
  /\ exists st',
       transact (Scenario.at_time Scenario.bob 5000)
                (RegisterAgent "agent1" "Agent" "Agent One" "openai")
                Scenario.staked
       = (Success, st').
Proof.
  split; [|split].
  - destruct (registerAgent_outcome (Scenario.at_time Scenario.bob 5000)
                "agent1" "" "Agent One" "openai" Scenario.staked)
      as [Hempty _].
    apply Hempty. right. reflexivity.
  - destruct (registerAgent_outcome (Scenario.at_time Scenario.alice 5000)
                "agent1" "Other" "Other" "anthropic" Scenario.staked)
      as (_ & _ & Hfit).
    destruct Hfit as [Htaken _]; [by_running ..|].
    apply Htaken. by_running.
  - destruct (registerAgent_outcome (Scenario.at_time Scenario.bob 5000)
                "agent1" "Agent" "Agent One" "openai" Scenario.staked)
      as (_ & _ & Hfit).
    destruct Hfit as [_ Hfree]; [by_running ..|].
    destruct Hfree as (st' & Htx & _); [by_running|].
    exists st'. exact Htx.
Defined.

Lemma createCapsule_outcome_witness :
  transact (Scenario.at_time Scenario.bob 5000)
           (CreateCapsule "cap1" "Capsule" "notes" "coding" (10 ^ 13))
           Scenario.staked
  = (Failure InvalidPrice, Scenario.staked)
  /\ transact (Scenario.at_time Scenario.alice 5000)
              (CreateCapsule "cap1" "Other" "other" "finance" (10 ^ 15))
              Scenario.staked
     = (Failure (RequireFailed "Capsule already exists"), Scenario.staked)
  /\ exists st',
       transact (Scenario.at_time Scenario.bob 5000)
                (CreateCapsule "cap1" "Capsule" "notes" "coding" (10 ^ 15))
                Scenario.staked
       = (Success, st').
Proof.
  split; [|split].
  - destruct (createCapsule_outcome (Scenario.at_time Scenario.bob 5000)
                "cap1" "Capsule" "notes" "coding" (10 ^ 13) Scenario.staked)
      as (_ & _ & Hfit).
    destruct Hfit as [Hlow _]; [by_running|].
    apply Hlow. by_running.
  - destruct (createCapsule_outcome (Scenario.at_time Scenario.alice 5000)
                "cap1" "Other" "other" "finance" (10 ^ 15) Scenario.staked)
      as (_ & _ & Hfit).
    destruct Hfit as (_ & _ & Hpriced); [by_running|].
    destruct Hpriced as [Htaken _]; [by_running|].
    apply Htaken. by_running.
  - destruct (createCapsule_outcome (Scenario.at_time Scenario.bob 5000)
                "cap1" "Capsule" "notes" "coding" (10 ^ 15) Scenario.staked)
      as (_ & _ & Hfit).
    destruct Hfit as (_ & _ & Hpriced); [by_running|].
    destruct Hpriced as [_ Hfree]; [by_running|].
    destruct Hfree as (st' & Htx & _); [by_running|].
    exists st'. exact Htx.
Defined.

Lemma updateCapsulePrice_outcome_witness :
  transact (Scenario.at_time Scenario.alice 5000)
           (UpdateCapsulePrice "cap1" (2 * 10 ^ 18)) Scenario.staked
  = (Failure PriceTooHigh, Scenario.staked)
  /\ exists st',
       transact (Scenario.at_time Scenario.alice 5000)
                (UpdateCapsulePrice "cap1" (10 ^ 15)) Scenario.staked
       = (Success, st')
       /\ balance st' = balance Scenario.staked.
Proof.
  split.
  - destruct (updateCapsulePrice_outcome (Scenario.at_time Scenario.alice 5000)
                "cap1" (2 * 10 ^ 18) Scenario.staked) as (_ & Hhigh & _).
    apply Hhigh. by_running.
  - destruct (updateCapsulePrice_outcome (Scenario.at_time Scenario.alice 5000)
                "cap1" (10 ^ 15) Scenario.staked) as (_ & _ & Hfit).
    destruct Hfit as (_ & _ & Hown); [by_running|].
    destruct Hown as (st' & Htx & _ & Hbal & _); [by_running ..|].
    exists st'. split; [exact Htx | exact Hbal].
Defined.

Lemma stake_outcome_witness :
  transact (Scenario.at_time Scenario.alice 5000) (Stake "cap1" (10 ^ 13))
           Scenario.staked
  = (Failure InsufficientPayment, Scenario.staked)
  /\ transact (Scenario.at_time Scenario.alice 5000) (Stake "cap1" (10 ^ 21))
              Scenario.staked
     = (Failure StakeTooHigh, Scenario.staked)
  /\ exists st',
       transact (Scenario.at_time Scenario.alice 5000) (Stake "cap1" (10 ^ 17))
                Scenario.staked
       = (Success, st')
       /\ balance st' = balance Scenario.staked + 10 ^ 17.
Proof.
  split; [|split].
  - destruct (stake_outcome (Scenario.at_time Scenario.alice 5000)
                "cap1" (10 ^ 13) Scenario.staked) as (Hlow & _).
    apply Hlow. by_running.
  - destruct (stake_outcome (Scenario.at_time Scenario.alice 5000)
                "cap1" (10 ^ 21) Scenario.staked) as (_ & Hhigh & _).
    apply Hhigh. by_running.
  - destruct (stake_outcome (Scenario.at_time Scenario.alice 5000)
                "cap1" (10 ^ 17) Scenario.staked) as (_ & _ & Hfit).
    destruct Hfit as (_ & _ & Hown); [by_running|].
    destruct Hown as [Hok _]; [by_running ..|].
    destruct Hok as (st' & Htx & _ & _ & Hbal & _); [by_running ..|].
    exists st'. split; [exact Htx | exact Hbal].
Defined.

Lemma unstake_refusals_witness :
  transact (Scenario.at_time Scenario.alice Scenario.t_unlock)
           (Unstake "cap1" 0) Scenario.staked
  = (Failure InsufficientPayment, Scenario.staked)
  /\ transact (Scenario.at_time Scenario.bob Scenario.t_unlock)
              (Unstake "cap1" (10 ^ 16)) Scenario.staked
     = (Failure CapsuleNotFound, Scenario.staked)
  /\ transact (Scenario.at_time Scenario.alice (Scenario.t_stake + 1000))
              (Unstake "cap1" (10 ^ 18)) Scenario.staked
     = (Failure InsufficientStake, Scenario.staked).
Proof.
  split; [|split].
  - destruct (unstake_refusals (Scenario.at_time Scenario.alice Scenario.t_unlock)
                "cap1" 0 Scenario.staked) as (Hzero & _).
    apply Hzero. reflexivity.
  - destruct (unstake_refusals (Scenario.at_time Scenario.bob Scenario.t_unlock)
                "cap1" (10 ^ 16) Scenario.staked) as (_ & Hnone & _).
    apply Hnone; by_running.
  - destruct (unstake_refusals
                (Scenario.at_time Scenario.alice (Scenario.t_stake + 1000))
                "cap1" (10 ^ 18) Scenario.staked) as (_ & _ & Hshort).
    apply Hshort; [by_running | by_running | right; by_running].
Defined.

Lemma withdrawEarnings_without_capsule_witness :
  transact (Scenario.at_time Scenario.bob 4000) (WithdrawEarnings "cap1")
           Scenario.queried
  = (Failure InsufficientPayment, Scenario.queried).
Proof.
  apply (withdrawEarnings_without_capsule (Scenario.at_time Scenario.bob 4000)
           "cap1" Scenario.queried (proj2 scenario_reachable)).
  by_running.
Defined.

Lemma listed_ids_resolve_witness :
  NoDup (getCapsulesByOwner Scenario.queried Scenario.alice)
  /\ map Capsule.capsuleId (getCapsulesByOwnerDetailed Scenario.queried Scenario.alice)
     = getCapsulesByOwner Scenario.queried Scenario.alice.
Proof.
  destruct (listed_ids_resolve Scenario.queried Scenario.alice
              (proj2 scenario_reachable)) as [(Hnodup & _ & Hids) _].
  split; [exact Hnodup | exact Hids].
Defined.

Lemma records_are_listed_witness :
  Capsule.capsuleId (capsules Scenario.queried !!! derive_key Scenario.alice "cap1")
  ∈ getCapsulesByOwner Scenario.queried
      (Capsule.creator (capsules Scenario.queried !!! derive_key Scenario.alice "cap1")).
Proof.
  destruct (records_are_listed Scenario.queried (derive_key Scenario.alice "cap1")
              (proj2 scenario_reachable)) as [Hcapsule _].
  destruct Hcapsule as [Hin _]; [by_running|].
  exact Hin.
Defined.

Lemma creation_logs_match_records_witness :
  CapsuleCreatedLog.mk
    (Capsule.creator (getCapsuleDetails Scenario.queried Scenario.alice "cap1"))
    (Capsule.capsuleId (getCapsuleDetails Scenario.queried Scenario.alice "cap1"))
    (Capsule.createdAt (getCapsuleDetails Scenario.queried Scenario.alice "cap1"))
  ∈ getAllCapsuleLogs Scenario.queried.
Proof.
  destruct (creation_logs_match_records Scenario.queried
              (proj2 scenario_reachable)) as (_ & Hlogged & _).
  apply (Hlogged Scenario.alice "cap1"). by_running.
Defined.

Lemma prices_stay_within_limits_witness :
  10 ^ 14
  <= Capsule.price (getCapsuleDetails Scenario.queried Scenario.alice "cap1")
  <= 10 ^ 18.
Proof.
  apply (prices_stay_within_limits Scenario.queried Scenario.alice "cap1"
           (proj2 scenario_reachable)).
  by_running.
Defined.

Lemma reputation_is_never_changed_witness :
  Agent.reputation (getAgentDetails Scenario.queried Scenario.alice "agent1")
  = 10000.
Proof.
  apply (reputation_is_never_changed Scenario.queried Scenario.alice "agent1"
           (proj2 scenario_reachable)).
  by_running.
Defined.

Lemma missing_records_read_as_zero_witness :
  getCapsuleDetails Scenario.queried Scenario.bob "cap1" = Capsule.zero
  /\ getEarnings Scenario.queried Scenario.bob "cap1" = Earnings.zero.
Proof.
  destruct (missing_records_read_as_zero Scenario.queried Scenario.bob "cap1"
              (proj2 scenario_reachable)) as [Hcapsule _].
  apply Hcapsule. by_running.
Defined.

Lemma only_the_creator_holds_stake_witness :
  Capsule.exists_ (getCapsuleDetails Scenario.queried Scenario.alice "cap1") = true
  /\ Capsule.creator (getCapsuleDetails Scenario.queried Scenario.alice "cap1")
     = Scenario.alice.
Proof.
  destruct (only_the_creator_holds_stake Scenario.queried Scenario.alice "cap1"
              (proj2 scenario_reachable)) as [Hstaker _].
  apply (Hstaker Scenario.alice). by_running.
Defined.

Lemma stored_numbers_are_uint256_witness : amounts_in_range Scenario.queried.
Proof.
  apply (stored_numbers_are_uint256 Scenario.queried (proj2 scenario_reachable)).
Defined.

Lemma contract_holds_what_it_owes_witness :
  total_staked Scenario.queried + total_earned Scenario.queried
  <= balance Scenario.queried.
Proof.
  destruct (contract_holds_what_it_owes Scenario.queried
              (proj2 scenario_reachable)) as [Hheld _].
  exact Hheld.
Defined.

Lemma withdrawal_is_funded_witness :
  exists st',
    transact (Scenario.at_time Scenario.alice 4000) (WithdrawEarnings "cap1")
             Scenario.queried
    = (Success, st').
Proof.
  destruct (withdrawal_is_funded Scenario.queried
              (Scenario.at_time Scenario.alice 4000) "cap1"
              (proj2 scenario_reachable))
    as [_ (asked & _ & _ & Haccepted & _)]; [by_running|].
  apply Haccepted. reflexivity.
Defined.

Lemma unstake_is_funded_witness :
  exists st',
    transact (Scenario.at_time Scenario.alice Scenario.t_unlock)
             (Unstake "cap1" (10 ^ 17)) Scenario.queried
    = (Success, st').
Proof.
  destruct (unstake_is_funded Scenario.queried
              (Scenario.at_time Scenario.alice Scenario.t_unlock) "cap1" (10 ^ 17)
              (proj2 scenario_reachable))
    as [_ (asked & _ & _ & Haccepted & _)];
    [by_running | by_running | by_running | by_running |].
  apply Haccepted. reflexivity.
Defined.

Lemma revenue_is_accounted_witness :
  sum_of CapsuleQueriedLog.amountPaid (capsuleQueriedHistory Scenario.queried)
  = total_earned Scenario.queried
    + sum_of EarningsWithdrawnLog.amount (earningsWithdrawnHistory Scenario.queried).
Proof.
  apply (revenue_is_accounted Scenario.queried (proj2 scenario_reachable)).
Defined.

Lemma stakes_are_accounted_witness :
  sum_of StakedOnCapsuleLog.amount (stakedOnCapsuleHistory Scenario.queried)
  = total_staked Scenario.queried
    + sum_of UnstakedFromCapsuleLog.amount
        (unstakedFromCapsuleHistory Scenario.queried).
Proof.
  apply (stakes_are_accounted Scenario.queried (proj2 scenario_reachable)).
Defined.

Lemma logs_count_what_happened_witness :
  total_queries Scenario.queried
  = Z.of_nat (length (capsuleQueriedHistory Scenario.queried)).
Proof.
  destruct (logs_count_what_happened Scenario.queried
              (proj2 scenario_reachable)) as [Hcount _].
  exact Hcount.
Defined.

Lemma other_records_untouched_witness :
  getAgentDetails
    (snd (transact
            (Scenario.calling_back Scenario.bob 5000
               (CreateCapsule "cap2" "Capsule" "notes" "coding" (10 ^ 15)))
            (QueryCapsule Scenario.alice "cap1" (10 ^ 17)) Scenario.staked))
    Scenario.alice "agent1"
  = getAgentDetails Scenario.staked Scenario.alice "agent1".
Proof.
  destruct (other_records_untouched
              (collision_free := scenario_hash_collision_free)
              (Scenario.calling_back Scenario.bob 5000
                 (CreateCapsule "cap2" "Capsule" "notes" "coding" (10 ^ 15)))
              (QueryCapsule Scenario.alice "cap1" (10 ^ 17)) Scenario.staked
              Scenario.alice "agent1") as [Hrecords _]; [by_running|].
  destruct Hrecords as (Hagent & _); [by_running | |exact Hagent].
  intros s. constructor; [by_running | intros; constructor | intros; constructor].
Defined.

Lemma records_are_permanent_witness :
  Capsule.exists_
    (getCapsuleDetails (run [Scenario.query_capsule] Scenario.staked)
                       Scenario.alice "cap1") = true.
Proof.
  destruct (records_are_permanent [Scenario.query_capsule] Scenario.staked
              Scenario.alice "cap1") as [Hcapsule _].
  destruct Hcapsule as [Hex _]; [by_running|].
  exact Hex.
Defined.

Lemma queryCapsule_refusals_witness :
  transact (Scenario.at_time Scenario.bob 3000)
           (QueryCapsule Scenario.bob "cap1" (10 ^ 17)) Scenario.staked
  = (Failure CapsuleNotFound, Scenario.staked).
Proof.
  destruct (queryCapsule_refusals (Scenario.at_time Scenario.bob 3000)
              Scenario.bob "cap1" (10 ^ 17) Scenario.staked) as [Hnone _].
  apply Hnone. by_running.
Defined.

Lemma packed_keys_are_unambiguous_witness :
  bytes_length (abi_encodePacked Scenario.alice "cap1") = 20 + bytes_length "cap1"
  /\ derive_key Scenario.alice "cap1" <> derive_key Scenario.bob "cap1".
Proof.
  destruct (packed_keys_are_unambiguous
              (collision_free := scenario_hash_collision_free)
              Scenario.alice Scenario.bob "cap1" "cap1")
    as (Hlength & _ & Hkeys); [by_running ..|].
  split; [exact Hlength|].
  intros Heq. apply Hkeys in Heq as [Heq _]. discriminate Heq.
Defined.
